(** * matsim: the compute registry, its dependency resolver, the energy
      computes and the parallelepiped geometry kernel

    A shallow embedding of [atsim/analysis/compute_funcs.py] and
    [geometry.py].  Python values are an inductive type, Python dicts are
    finite maps from strings, exceptions are the [Raise] results of an error
    monad.  In the compute registry Python floats and numpy floats are
    modelled as exact rationals ([Q]) and Python ints as [Z].  The arrays of
    the geometry kernel carry their element type, int64 or float64, and are
    added, multiplied and converted in the arithmetic of that type. *)

From stdpp Require Import gmap strings list fin_maps.
From Stdlib Require Import QArith Qround Qabs Qminmax Lqa Sorted.

#[local] Set Warnings "-register-all,-clear-no-such-hyp".
#[local] Open Scope string_scope.
#[local] Open Scope list_scope.

(** ** Python values *)

Inductive pyval : Type :=
  | PNone
  | PBool (b : bool)
  | PInt (z : Z)
  | PFloat (q : Q)
  | PStr (s : string)
  | PList (l : list pyval).

Abbreviation dict := (gmap string pyval).

(** The exceptions the modelled code raises.  A [ValueError] carries which of
    the [raise ValueError(...)] statements of the sources produced it, or
    numpy. *)
Inductive value_error : Type :=
  | ComputeNotAllowed (compute_name : string)
  | EnergySourceNotAvailable (energy_src method : string)
  | OptStepNotInteger
  | OriginPerBox
  | OperandsNotBroadcast
  | NeedAtLeastOneArray.

Inductive exn : Type :=
  | ValueError (e : value_error)
  | KeyError (k : string)
  | TypeError
  | IndexError
  | ZeroDivisionError
  | LinAlgError
  | RecursionError.

Inductive result (A : Type) : Type :=
  | Ok (a : A)
  | Raise (e : exn).
Arguments Ok {A} a.
Arguments Raise {A} e.

#[global] Instance result_ret : MRet result := λ A a, Ok a.
#[global] Instance result_bind : MBind result := λ A B f r,
  match r with
  | Ok a => f a
  | Raise e => Raise e
  end.

#[global] Instance result_fmap : FMap result := λ A B f r,
  match r with
  | Ok a => Ok (f a)
  | Raise e => Raise e
  end.

(** Monadic map over a list, left to right. *)
Fixpoint mapM {A B} (f : A → result B) (l : list A) : result (list B) :=
  match l with
  | [] => Ok []
  | x :: l => y ← f x; ys ← mapM f l; Ok (y :: ys)
  end.

(** [x is None] *)
Definition is_none (v : pyval) : bool :=
  match v with PNone => true | _ => false end.

(** bool, int and float compare by numeric value. *)
Definition as_num (v : pyval) : option Q :=
  match v with
  | PBool b => Some (if b then 1%Q else 0%Q)
  | PInt z => Some (inject_Z z)
  | PFloat q => Some q
  | _ => None
  end.

(** Python's [==] on the modelled values. *)
Fixpoint py_eqb (a b : pyval) : bool :=
  match a, b with
  | PNone, PNone => true
  | PStr s, PStr t => String.eqb s t
  | PList l, PList m =>
      (fix go (l m : list pyval) : bool :=
         match l, m with
         | [], [] => true
         | x :: l, y :: m => py_eqb x y && go l m
         | _, _ => false
         end) l m
  | _, _ =>
      match as_num a, as_num b with
      | Some x, Some y => Qeq_bool x y
      | _, _ => false
      end
  end.

(** [x in lst] *)
Definition py_in (x : pyval) (lst : list pyval) : bool := existsb (py_eqb x) lst.

(** [d.get(k)] and [d[k]] *)
Definition py_get (d : dict) (k : string) : pyval := default PNone (d !! k).

Definition py_item (d : dict) (k : string) : result pyval :=
  match d !! k with
  | Some v => Ok v
  | None => Raise (KeyError k)
  end.

(** [lst[i]] for a Python list: negative indices count from the end. *)
Definition list_item {A} (l : list A) (i : Z) : result A :=
  let n := Z.of_nat (length l) in
  let j := if (i <? 0)%Z then (n + i)%Z else i in
  if ((j <? 0) || (n <=? j))%Z then Raise IndexError
  else match l !! Z.to_nat j with
       | Some x => Ok x
       | None => Raise IndexError
       end.

(** ** The module-level definitions [PREDEFINED_VARS]

    The six dicts of [PREDEFINED_VARS] are module-level objects: the lists
    [get_depends] returns hold references to them, and the loop that adds or
    removes the [vals] key mutates them in place.  [predef] names the six
    objects, a [store] gives their current contents. *)

Inductive predef : Type :=
  | gb_area_var
  | gb_boundary_vac_var
  | sup_type_var
  | gb_dist_initial_var
  | gb_dist_final_var
  | gb_dist_change_var.

#[global] Instance predef_eq_dec : EqDecision predef.
Proof. solve_decision. Defined.

Definition predef_name (p : predef) : string :=
  match p with
  | gb_area_var => "gb_area"
  | gb_boundary_vac_var => "gb_boundary_vac"
  | sup_type_var => "supercell_type"
  | gb_dist_initial_var => "atoms_gb_dist_initial"
  | gb_dist_final_var => "atoms_gb_dist_final"
  | gb_dist_change_var => "atoms_gb_dist_change"
  end.

Definition store := predef → dict.

(** The contents of [PREDEFINED_VARS] when the module is loaded. *)
Definition PREDEFINED_VARS : store := λ p,
  {[ "type" := PStr "compute";
     "name" := PStr (predef_name p);
     "id" := PStr (predef_name p) ]}.

Definition store_update (p : predef) (f : dict → dict) (pv : store) : store :=
  λ q, if decide (p = q) then f (pv q) else pv q.

(** An element of a definition list: a dict only that list refers to, or a
    reference to one of the module-level dicts. *)
Inductive obj : Type :=
  | Own (d : dict)
  | Shared (p : predef).

Definition deref (pv : store) (o : obj) : dict :=
  match o with
  | Own d => d
  | Shared p => pv p
  end.

(** ** [dict_from_list] *)

(** One element satisfies the conditions when every key of the conditions
    other than [vals] is present in it with an equal value. *)
Definition key_matches (el : dict) (k : string) (v : pyval) : bool :=
  match el !! k with
  | Some w => py_eqb w v
  | None => false
  end.

Definition dict_matches (conditions el : dict) : bool :=
  bool_decide (map_Forall (λ k v, key_matches el k v = true) (delete "vals" conditions)).

(** Modelled from the spec: [dict_from_list] of [atsim.utils] is imported by
    [compute_funcs.py] but is not among the sources.  The spec describes its
    three uses: the resolver searches the accumulated list for a definition
    that is the same by its non-[vals] keys; [gb_energy] resolves a series
    from a variable by [id]; [energy_per_atom] and [atoms_gb_dist_change]
    locate already computed variables from re-resolved definitions.  It
    returns the first element that satisfies the conditions, [None] when
    there is none. *)
Definition dict_from_list (lst : list dict) (conditions : dict) : option dict :=
  List.find (dict_matches conditions) lst.

(** ** The registry *)

(** The keys of [SINGLE_COMPUTE_LOOKUP] and of [MULTI_COMPUTE_LOOKUP]. *)
Definition SINGLE_COMPUTE_LOOKUP_keys : list string :=
  [ "num_atoms"; "energy"; "energy_per_atom"; "gb_area"; "supercell_type";
    "gb_thickness"; "gb_boundary_vac"; "atoms_gb_dist_initial";
    "atoms_gb_dist_final"; "atoms_gb_dist_change" ].

Definition MULTI_COMPUTE_LOOKUP_keys : list string :=
  [ "gb_energy"; "gamma_surface_info"; "master_gamma" ].

Definition allowed_computes : list string :=
  SINGLE_COMPUTE_LOOKUP_keys ++ MULTI_COMPUTE_LOOKUP_keys.

(** ** [get_depends] *)

(** The body of the loop over [out] at the end of [get_depends], on one
    dict. *)
Definition set_vals (inc_val : bool) (v : dict) : dict :=
  if is_none (py_get v "vals") && inc_val then <["vals" := PList []]> v
  else if negb (is_none (py_get v "vals")) && negb inc_val then delete "vals" v
  else v.

(** The loop itself: an owned dict is updated where it stands, a shared one
    in the store. *)
Fixpoint vals_loop (inc_val : bool) (out : list obj) (pv : store) : list obj * store :=
  match out with
  | [] => ([], pv)
  | Own d :: out =>
      let '(out', pv') := vals_loop inc_val out pv in
      (Own (set_vals inc_val d) :: out', pv')
  | Shared p :: out =>
      let '(out', pv') := vals_loop inc_val out (store_update p (set_vals inc_val) pv) in
      (Shared p :: out', pv')
  end.

(** The end of [get_depends]: [d] joins [out] unless [dict_from_list] finds
    it there, then the loop runs over the whole list. *)
Definition finish (inc_val : bool) (d : dict) (out : list obj) (pv : store) : list obj * store :=
  (* If the d dict is not in out, add it *)
  let d_out := dict_from_list (deref pv <$> out) d in
  let out := if d_out is None then out ++ [Own d] else out in
  (* Add a vals key to each dict if inc_val is True *)
  vals_loop inc_val out pv.

(** The three series-index definitions [gamma_surface_info] depends on. *)
Definition series_id_defn (inc_id : bool) (name : string) : dict :=
  let i : dict := {[ "name" := PStr name;
                     "type" := PStr "series_id";
                     "col_id" := PStr "relative_shift" ]} in
  if inc_id then <["id" := PStr name]> i else i.

(** The body of [get_depends(compute_name, inc_id, inc_val, **kwargs)]; its
    first argument stands for the function itself in the recursive calls. *)
Definition get_depends_body
    (get_depends : string → bool → bool → dict → store → result (list obj * store))
    (compute_name : string) (inc_id inc_val : bool) (kwargs : dict) (pv : store) :
    result (list obj * store) :=
  (* Validation *)
  if negb (bool_decide (compute_name ∈ allowed_computes)) then
    Raise (ValueError (ComputeNotAllowed compute_name))
  else
  let d : dict := {[ "type" := PStr "compute"; "name" := PStr compute_name ]} in
  let d := if inc_id then <["id" := PStr compute_name]> d else d in
  '(d, out, pv) ←
    (if decide (compute_name = "gb_energy") then
       energy_src ← py_item kwargs "energy_src";
       opt_step ← py_item kwargs "opt_step";
       series_id ← py_item kwargs "series_id";
       unit ← py_item kwargs "unit";
       let d := <["unit" := unit]> (<["series_id" := series_id]>
                  (<["opt_step" := opt_step]> (<["energy_src" := energy_src]> d))) in
       '(o1, pv) ← get_depends "energy" inc_id inc_val
                     {[ "energy_src" := energy_src; "opt_step" := opt_step ]} pv;
       '(o2, pv) ← get_depends "num_atoms" inc_id inc_val ∅ pv;
       Ok (d, (o1 ++ o2 ++ [Shared gb_area_var; Shared sup_type_var]) ++ [], pv)
     else if decide (compute_name = "energy_per_atom") then
       energy_src ← py_item kwargs "energy_src";
       opt_step ← py_item kwargs "opt_step";
       let d := <["opt_step" := opt_step]> (<["energy_src" := energy_src]> d) in
       '(o1, pv) ← get_depends "num_atoms" inc_id inc_val ∅ pv;
       '(o2, pv) ← get_depends "energy" inc_id inc_val
                     {[ "energy_src" := energy_src; "opt_step" := opt_step ]} pv;
       Ok (d, o1 ++ o2 ++ [], pv)
     else if decide (compute_name = "gamma_surface_info") then
       info_name ← py_item kwargs "info_name";
       let d := <["info_name" := info_name]> d in
       let add_out := [ Own (series_id_defn inc_id "csi_idx");
                        Own (series_id_defn inc_id "grid_idx");
                        Own (series_id_defn inc_id "point_idx") ] in
       Ok (d, add_out ++ [], pv)
     else if decide (compute_name = "master_gamma") then
       energy_src ← py_item kwargs "energy_src";
       opt_step ← py_item kwargs "opt_step";
       series_id ← py_item kwargs "series_id";
       unit ← py_item kwargs "unit";
       let d := <["unit" := unit]> (<["series_id" := series_id]>
                  (<["opt_step" := opt_step]> (<["energy_src" := energy_src]> d))) in
       (* the nested calls pass [inv_val=inc_val]: the misspelt keyword lands
          in their [kwargs] and their [inc_val] keeps its default, [True] *)
       let info kw_info_name pv :=
         get_depends "gamma_surface_info" inc_id true
           {[ "inv_val" := PBool inc_val; "info_name" := PStr kw_info_name ]} pv in
       '(o0, pv) ← get_depends "gb_energy" inc_id true
                     {[ "inv_val" := PBool inc_val;
                        "energy_src" := energy_src; "opt_step" := opt_step;
                        "series_id" := series_id; "unit" := unit ]} pv;
       '(o1, pv) ← info "row_idx" pv;
       '(o2, pv) ← info "col_idx" pv;
       '(o3, pv) ← info "x_std_vals" pv;
       '(o4, pv) ← info "y_std_vals" pv;
       '(o5, pv) ← info "x_frac_vals" pv;
       '(o6, pv) ← info "y_frac_vals" pv;
       '(o7, pv) ← info "grid_shape" pv;
       Ok (d, (o0 ++ o1 ++ o2 ++ o3 ++ o4 ++ o5 ++ o6 ++ o7)
                ++ [Shared gb_boundary_vac_var] ++ [], pv)
     else if decide (compute_name = "energy") then
       energy_src ← py_item kwargs "energy_src";
       let d := <["energy_src" := energy_src]> d in
       let opt_step := py_get kwargs "opt_step" in
       let d := if negb (is_none opt_step) then <["opt_step" := opt_step]> d else d in
       Ok (d, [], pv)
     else if decide (compute_name = "atoms_gb_dist_change") then
       Ok (d, [ Shared gb_dist_initial_var; Shared gb_dist_final_var;
                Shared sup_type_var ] ++ [], pv)
     else Ok (d, [], pv));
  Ok (finish inc_val d out pv).

(** The recursion of the source is at most three calls deep ([master_gamma],
    [gb_energy], [energy]); [fuel] bounds the depth. *)
Fixpoint get_depends_rec (fuel : nat) :
    string → bool → bool → dict → store → result (list obj * store) :=
  match fuel with
  | O => λ _ _ _ _ _, Raise RecursionError
  | S fuel => get_depends_body (get_depends_rec fuel)
  end.

Definition get_depends : string → bool → bool → dict → store → result (list obj * store) :=
  get_depends_rec 3.

(** The definitions a returned list denotes, read through the store the call
    leaves behind. *)
Definition defns (r : list obj * store) : list dict := deref r.2 <$> r.1.

Definition names (ds : list dict) : list pyval := (λ d, py_get d "name") <$> ds.

(** ** Simulations and the output dict *)

(** The parts of an [AtomisticSimulation] the modelled computes read:
    [sim.structure.meta['supercell_type']] ([None] when the structure has no
    [meta] attribute), [sim.options['base_structure']['type']],
    [sim.options['method']] and [sim.results]. *)
Record simulation : Type := {
  structure_meta_supercell_type : option (list string);
  options_base_structure_type : string;
  options_method : string;
  results : dict;
}.

(** The output dict of the harvest as it is being built.  [variables] holds
    references, as the definition lists do; [series_id_val] is
    [out['series_id']['val']], one row of series values per simulation. *)
Record output : Type := {
  variables : list obj;
  series_name : list pyval;
  series_id_val : list (list pyval);
  session_id : list pyval;
  session_id_idx : list Z;
}.

(** Truth value of a Python object. *)
Definition truthy (v : pyval) : bool :=
  match v with
  | PNone => false
  | PBool b => b
  | PInt z => negb (z =? 0)%Z
  | PFloat q => negb (Qeq_bool q 0)
  | PStr s => negb (String.eqb s "")
  | PList l => negb (bool_decide (l = []))
  end.

(** [is_bicrystal(sim)]: [True], [False], or [None] where the source falls off
    the end of the first branch. *)
Definition is_bicrystal (sim : simulation) : pyval :=
  match structure_meta_supercell_type sim with
  | Some supercell_type =>
      if bool_decide ("bicrystal" ∈ supercell_type) then PBool true else PNone
  | None =>
      if decide (options_base_structure_type sim = "CSLBicrystal") then PBool true
      else PBool false
  end.

(** ** [energy] *)

(** The dict [allowed_en_srcs], subscripted by the method. *)
Definition allowed_en_srcs (method : string) : result (list string) :=
  if decide (method = "castep") then Ok ["final_energy"; "final_fenergy"; "final_zenergy"]
  else if decide (method = "lammps") then Ok ["final_energy"]
  else Raise (KeyError method).

(** [isinstance(v, int)]; [bool] is a subclass of [int]. *)
Definition isinstance_int (v : pyval) : bool :=
  match v with
  | PInt _ | PBool _ => true
  | _ => false
  end.

Definition int_value (v : pyval) : option Z :=
  match v with
  | PInt z => Some z
  | PBool b => Some (if b then 1 else 0)%Z
  | _ => None
  end.

(** [seq[i]] with [i] an int: lists and strings are subscriptable. *)
Definition py_index (seq i : pyval) : result pyval :=
  match int_value i with
  | None => Raise TypeError
  | Some z =>
      match seq with
      | PList l => list_item l z
      | PStr s => PStr ∘ (λ c, String c "") <$> list_item (String.list_ascii_of_string s) z
      | _ => Raise TypeError
      end
  end.

Definition energy (out : output) (sim : simulation) (sim_idx : Z)
    (energy_src : string) (opt_step : pyval) : result pyval :=
  (* Validation *)
  let method := options_method sim in
  srcs ← allowed_en_srcs method;
  if negb (bool_decide (energy_src ∈ srcs)) then
    Raise (ValueError (EnergySourceNotAvailable energy_src method))
  else
    energy ← py_item (results sim) energy_src;
    if is_none opt_step then Ok energy
    else if negb (isinstance_int opt_step) then Raise (ValueError OptStepNotInteger)
    else py_index energy opt_step.

(** ** [atoms_gb_dist_change] *)

(** Python number arithmetic: [int] stays [int] under [-] and [*], a [float]
    operand makes the result a [float], [/] is true division. *)
Definition is_float (v : pyval) : bool :=
  match v with PFloat _ => true | _ => false end.

Definition py_arith (fz : Z → Z → Z) (fq : Q → Q → Q) (a b : pyval) : result pyval :=
  match as_num a, as_num b with
  | Some x, Some y =>
      if is_float a || is_float b then Ok (PFloat (fq x y))
      else match int_value a, int_value b with
           | Some m, Some n => Ok (PInt (fz m n))
           | _, _ => Raise TypeError
           end
  | _, _ => Raise TypeError
  end.

Definition py_sub : pyval → pyval → result pyval := py_arith Z.sub Qminus.
Definition py_mul : pyval → pyval → result pyval := py_arith Z.mul Qmult.

Definition py_truediv (a b : pyval) : result pyval :=
  match as_num a, as_num b with
  | Some x, Some y =>
      if Qeq_bool y 0 then Raise ZeroDivisionError else Ok (PFloat (x / y))
  | _, _ => Raise TypeError
  end.

(** [np.array(v)] for a number or a flat sequence of numbers: the element type
    is the widest one present, an empty sequence gives a float array.  Deeper
    nesting is outside the model. *)
Inductive dtype : Type := DBool | DInt | DFloat.

Definition dtype_of (v : pyval) : option dtype :=
  match v with
  | PBool _ => Some DBool
  | PInt _ => Some DInt
  | PFloat _ => Some DFloat
  | _ => None
  end.

Definition dtype_max (a b : dtype) : dtype :=
  match a, b with
  | DFloat, _ | _, DFloat => DFloat
  | DInt, _ | _, DInt => DInt
  | DBool, DBool => DBool
  end.

Inductive ndarray : Type :=
  | Nd0 (t : dtype) (x : Q)
  | Nd1 (t : dtype) (xs : list Q).

Definition nd_dtype (a : ndarray) : dtype :=
  match a with Nd0 t _ | Nd1 t _ => t end.

(** Element type of a non-empty flat sequence. *)
Fixpoint seq_dtype (l : list pyval) : option dtype :=
  match l with
  | [] => None
  | [x] => dtype_of x
  | x :: l => t ← dtype_of x; u ← seq_dtype l; Some (dtype_max t u)
  end.

Definition np_array (v : pyval) : result ndarray :=
  match v with
  | PList [] => Ok (Nd1 DFloat [])
  | PList l =>
      match seq_dtype l, mapM (λ x, if as_num x is Some q then Ok q else Raise TypeError) l with
      | Some t, Ok xs => Ok (Nd1 t xs)
      | _, _ => Raise TypeError
      end
  | _ =>
      match dtype_of v, as_num v with
      | Some t, Some q => Ok (Nd0 t q)
      | _, _ => Raise TypeError
      end
  end.

(** The array as a Python value again: ints for an int array. *)
Definition of_dtype (t : dtype) (q : Q) : pyval :=
  match t with
  | DFloat => PFloat q
  | _ => PInt (Qfloor q)
  end.

Definition nd_value (a : ndarray) : pyval :=
  match a with
  | Nd0 t x => of_dtype t x
  | Nd1 t xs => PList (of_dtype t <$> xs)
  end.

(** [a - b] on arrays, with numpy's broadcasting of a scalar or of a
    one-element array; numpy refuses to subtract booleans. *)
Definition nd_sub (a b : ndarray) : result ndarray :=
  let t := dtype_max (nd_dtype a) (nd_dtype b) in
  if t is DBool then Raise TypeError else
  match a, b with
  | Nd0 _ x, Nd0 _ y => Ok (Nd0 t (x - y))
  | Nd0 _ x, Nd1 _ ys => Ok (Nd1 t ((λ y, x - y) <$> ys))
  | Nd1 _ xs, Nd0 _ y => Ok (Nd1 t ((λ x, x - y) <$> xs))
  | Nd1 _ xs, Nd1 _ ys =>
      if decide (length xs = length ys) then Ok (Nd1 t (zip_with Qminus xs ys))
      else match xs, ys with
           | [x], _ => Ok (Nd1 t ((λ y, x - y) <$> ys))
           | _, [y] => Ok (Nd1 t ((λ x, x - y) <$> xs))
           | _, _ => Raise (ValueError OperandsNotBroadcast)
           end
  end.

(** [dict_from_list(vrs, i)['vals'][sim_idx]] *)
Definition vals_at (req_var : option dict) (sim_idx : Z) : result pyval :=
  match req_var with
  | None => Raise TypeError
  | Some v => vals ← py_item v "vals"; py_index vals (PInt sim_idx)
  end.

Definition atoms_gb_dist_change (out : output) (sim : simulation) (sim_idx : Z)
    (pv : store) : result (pyval * store) :=
  '(req_vars_defn, pv) ← get_depends "atoms_gb_dist_change" false false ∅ pv;
  let vrs := deref pv <$> variables out in
  let req_vars := (λ i, dict_from_list vrs (deref pv i)) <$> req_vars_defn in
  r0 ← list_item req_vars 0;
  atoms_gb_dist_initial ← vals_at r0 sim_idx;
  r1 ← list_item req_vars 1;
  atoms_gb_dist_final ← vals_at r1 sim_idx;
  r2 ← list_item req_vars 2;
  sup_type ← vals_at r2 sim_idx;
  if truthy (is_bicrystal sim) then
    a ← np_array atoms_gb_dist_final;
    b ← np_array atoms_gb_dist_initial;
    c ← nd_sub a b;
    Ok (nd_value c, pv)
  else Ok (PNone, pv).

(** ** [gb_energy] *)

(** Iterating a Python value: a list gives its elements, a string its
    characters. *)
Definition py_iter (v : pyval) : result (list pyval) :=
  match v with
  | PList l => Ok l
  | PStr s => Ok ((λ c, PStr (String c "")) <$> String.list_ascii_of_string s)
  | _ => Raise TypeError
  end.

(** Modelled from the spec: [get_col] and [transpose_list] of [atsim.utils]
    are called by [gb_energy] but are not among the sources.  The spec has
    [series_id] hold the series values per simulation and has [gb_energy]
    compare, per simulation, the tuple of the values of the matching series:
    [get_col] takes the value at one column from every row,
    [transpose_list] turns the list of per-series columns into one tuple per
    simulation. *)
Definition get_col (a : list (list pyval)) (col_idx : Z) : result (list pyval) :=
  mapM (λ row, list_item row col_idx) a.

Fixpoint transpose_list (a : list (list pyval)) : list (list pyval) :=
  match a with
  | [] => []
  | [c] => (λ x, [x]) <$> c
  | c :: a => zip_with cons c (transpose_list a)
  end.

(** [lst.index(x)], for an [x] known to be in [lst]. *)
Fixpoint py_list_index (x : pyval) (lst : list pyval) : Z :=
  match lst with
  | [] => 0
  | y :: lst => if py_eqb y x then 0 else 1 + py_list_index x lst
  end.

(** The values of one entry of [series_id] over the simulations: a declared
    series by its name, otherwise the [vals] of the variable with that id. *)
Definition series_vals (out : output) (pv : store) (i : pyval) : result pyval :=
  if py_in i (series_name out) then
    let i_idx := py_list_index i (series_name out) in
    PList <$> get_col (series_id_val out) i_idx
  else
    match dict_from_list (deref pv <$> variables out) {[ "id" := i ]} with
    | None => Raise TypeError
    | Some v => py_item v "vals"
    end.

(** What [gb_energy] reads before its loops. *)
Record gb_inputs : Type := {
  gi_energy : pyval;
  gi_num_atoms : pyval;
  gi_area : pyval;
  gi_sup_type : list pyval;
  gi_unit : pyval;
  gi_num_sims : nat;
  gi_srs_vals : list (list pyval);
}.

Definition gb_energy_inputs (out : output) (req_vars : list dict) (pv : store) :
    result gb_inputs :=
  vs ← mapM (λ i, v ← list_item req_vars i; py_item v "vals") [0; 1; 2; 3]%Z;
  match vs with
  | [energy; num_atoms; area; sup_type] =>
      last ← list_item req_vars (-1);
      series_id ← py_item last "series_id";
      unit ← py_item last "unit";
      sesh_ids ← mapM (list_item (session_id out)) (session_id_idx out);
      let num_sims := length sesh_ids in
      series_id ← py_iter series_id;
      srs_vals ← mapM (series_vals out pv) series_id;
      srs_vals ← mapM py_iter srs_vals;
      let srs_vals := transpose_list srs_vals in
      let srs_vals :=
        if decide (length srs_vals = 0%nat) then replicate num_sims [PInt 0] else srs_vals in
      sup_type ← py_iter sup_type;
      Ok {| gi_energy := energy; gi_num_atoms := num_atoms; gi_area := area;
            gi_sup_type := sup_type; gi_unit := unit; gi_num_sims := num_sims;
            gi_srs_vals := srs_vals |}
  | _ => Raise TypeError
  end.

(** The indices of the bicrystal and of the bulk simulations. *)
Fixpoint partition_idx (i_idx : Z) (sup_type : list pyval) : list Z * list Z :=
  match sup_type with
  | [] => ([], [])
  | i :: sup_type =>
      let '(gb_idx, bulk_idx) := partition_idx (i_idx + 1) sup_type in
      if py_eqb i (PStr "bicrystal") then (i_idx :: gb_idx, bulk_idx)
      else if py_eqb i (PStr "bulk") then (gb_idx, i_idx :: bulk_idx)
      else (gb_idx, bulk_idx)
  end.

(** The GB energy of bicrystal [gb_i] against bulk [bulk_i]. *)
Definition gb_formula (a : gb_inputs) (gb_i bulk_i : Z) : result pyval :=
  gb_num ← py_index (gi_num_atoms a) (PInt gb_i);
  bulk_num ← py_index (gi_num_atoms a) (PInt bulk_i);
  bulk_frac ← py_truediv gb_num bulk_num;
  e_gb ← py_index (gi_energy a) (PInt gb_i);
  e_bulk ← py_index (gi_energy a) (PInt bulk_i);
  x ← py_mul bulk_frac e_bulk;
  y ← py_sub e_gb x;
  area_gb ← py_index (gi_area a) (PInt gb_i);
  z ← py_mul (PInt 2) area_gb;
  py_truediv y z.

(** [srs_vals[gb_i] == srs_vals[bulk_i]] *)
Definition same_series (a : gb_inputs) (gb_i bulk_i : Z) : result bool :=
  s_gb ← list_item (gi_srs_vals a) gb_i;
  s_bulk ← list_item (gi_srs_vals a) bulk_i;
  Ok (py_eqb (PList s_gb) (PList s_bulk)).

(** The loop over [bulk_idx]: it runs to the end, every match overwrites
    [E_gb]. *)
Fixpoint bulk_loop (a : gb_inputs) (gb_i : Z) (bulk_idx : list Z) (E_gb : pyval) :
    result pyval :=
  match bulk_idx with
  | [] => Ok E_gb
  | bulk_i :: bulk_idx =>
      same ← same_series a gb_i bulk_i;
      E_gb ← (if same : bool then gb_formula a gb_i bulk_i else Ok E_gb);
      bulk_loop a gb_i bulk_idx E_gb
  end.

Definition J_per_m2 : Q := 1602176565 # 100000000.

(** [all_E_gb[gb_i] = E_gb] *)
Definition list_assign {A} (l : list A) (i : Z) (x : A) : result (list A) :=
  let n := Z.of_nat (length l) in
  let j := if (i <? 0)%Z then (n + i)%Z else i in
  if ((j <? 0) || (n <=? j))%Z then Raise IndexError
  else Ok (<[Z.to_nat j := x]> l).

(** The loop over [gb_idx]. *)
Fixpoint gb_loop (a : gb_inputs) (gb_idx bulk_idx : list Z) (all_E_gb : list pyval) :
    result (list pyval) :=
  match gb_idx with
  | [] => Ok all_E_gb
  | gb_i :: gb_idx =>
      E_gb ← bulk_loop a gb_i bulk_idx PNone;
      all_E_gb ←
        (if negb (is_none E_gb) then
           E_gb ← (if py_eqb (gi_unit a) (PStr "J/m^2") then py_mul E_gb (PFloat J_per_m2)
                   else Ok E_gb);
           list_assign all_E_gb gb_i E_gb
         else Ok all_E_gb);
      gb_loop a gb_idx bulk_idx all_E_gb
  end.

(** [gb_energy(out, req_vars)]: the list it assigns to
    [req_vars[-1]['vals']]. *)
Definition gb_energy (out : output) (req_vars : list dict) (pv : store) :
    result (list pyval) :=
  a ← gb_energy_inputs out req_vars pv;
  let '(gb_idx, bulk_idx) := partition_idx 0 (gi_sup_type a) in
  gb_loop a gb_idx bulk_idx (replicate (gi_num_sims a) PNone).

(** ** Geometry: [get_box_corners], [get_box_xyz], [get_bounding_box]

    A 3D column vector is a triple, a (3, 3) array the triple of its rows.
    An array of shape (3, N) is modelled by the list of its N columns, an
    array of shape (N, 3, K) by the list, per parallelepiped, of its K
    columns.

    The arrays are of element type int64 or float64; other element types
    are not modelled.  An element of either type is a rational: an int64 is
    an integer of the 64-bit range, and its sums wrap; a float64 is a finite
    double, that is a rational a double holds exactly, and an elementwise
    float operation gives the exact result rounded to the nearest double,
    ties to even.  Infinities and NaN are not modelled. *)

(** What a call comes to: a value, an exception, or [Outside] when the run
    leaves what the model follows (an array element that is not of its
    type, a float result beyond the largest double, a matrix product that
    is not exact, a conversion to int64 out of range). *)
Inductive outcome (A : Type) : Type :=
  | Returns (a : A)
  | Raises (e : exn)
  | Outside.
Arguments Returns {A} a.
Arguments Raises {A} e.
Arguments Outside {A}.

#[global] Instance outcome_ret : MRet outcome := λ A a, Returns a.
#[global] Instance outcome_bind : MBind outcome := λ A B f r,
  match r with
  | Returns a => f a
  | Raises e => Raises e
  | Outside => Outside
  end.

Definition of_option {A} (o : option A) : outcome A :=
  match o with
  | Some a => Returns a
  | None => Outside
  end.

(** Map over a list in the option monad, left to right. *)
Fixpoint mapO {A B} (f : A → option B) (l : list A) : option (list B) :=
  match l with
  | [] => Some []
  | x :: l => y ← f x; ys ← mapO f l; Some (y :: ys)
  end.

Inductive num_type : Type :=
  | int64
  | float64.

#[global] Instance num_type_eq_dec : EqDecision num_type.
Proof. solve_decision. Defined.

Definition vec3 : Type := Q * Q * Q.
Definition mat3 : Type := vec3 * vec3 * vec3.
Definition ivec3 : Type := Z * Z * Z.

Section Geometry.
#[local] Open Scope Q_scope.

(** *** Numbers *)

(** int64 arithmetic wraps. *)
Definition wrap64 (z : Z) : Z := ((z + 2 ^ 63) mod 2 ^ 64 - 2 ^ 63)%Z.

Definition pow2 (e : Z) : Q :=
  if (0 <=? e)%Z then inject_Z (2 ^ e) else 1 # Pos.pow 2 (Z.to_pos (- e)).

(** The exponent [e] with [2 ^ e <= a < 2 ^ (e + 1)], for [a] positive. *)
Definition Qlog2 (a : Q) : Z :=
  let e := (Z.log2 (Qnum a) - Z.log2 (Zpos (Qden a)))%Z in
  if Qle_bool (pow2 e) a then e else (e - 1)%Z.

(** The nearest integer, a tie going to the even one. *)
Definition round_half_even (q : Q) : Z :=
  let f := Qfloor q in
  match Qcompare (q - inject_Z f) (1 # 2) with
  | Lt => f
  | Gt => (f + 1)%Z
  | Eq => if Z.even f then f else (f + 1)%Z
  end.

(** Rounding to binary64: 53 bits of precision, the least exponent -1022
    (below it the doubles are evenly spaced), [None] when the rounded value
    is beyond the largest double. *)
Definition round64 (x : Q) : option Q :=
  let x := Qred x in
  if Qeq_bool x 0 then Some 0
  else
    let a := Qabs x in
    let p := (Z.max (Qlog2 a) (-1022) - 52)%Z in
    let r := Qred (inject_Z (round_half_even (a / pow2 p)) * pow2 p) in
    if Qle_bool (pow2 1024) r then None
    else Some (if Qle_bool 0 x then r else - r).

(** [x] is a finite double. *)
Definition representable (x : Q) : bool :=
  match round64 x with
  | Some r => Qeq_bool r x
  | None => false
  end.

(** [x] is an int64. *)
Definition is_int64 (x : Q) : bool :=
  Qeq_bool (inject_Z (Qfloor x)) x &&
  (- 2 ^ 63 <=? Qfloor x)%Z && (Qfloor x <? 2 ^ 63)%Z.

Definition valid (t : num_type) (x : Q) : bool :=
  match t with
  | int64 => is_int64 x
  | float64 => representable x
  end.

(** [x + y] on elements of type [t] *)
Definition add (t : num_type) (x y : Q) : option Q :=
  match t with
  | int64 => Some (inject_Z (wrap64 (Qfloor x + Qfloor y)))
  | float64 => round64 (x + y)
  end.

(** numpy's casting rule [same_kind], which an in-place operation applies
    to its result: a float does not become an int. *)
Definition can_cast (from to : num_type) : bool :=
  match from, to with
  | float64, int64 => false
  | _, _ => true
  end.

(** An element of type [from] as one of type [to], where [can_cast]. *)
Definition cast (from to : num_type) (x : Q) : option Q :=
  match from, to with
  | int64, float64 => round64 x
  | _, _ => Some x
  end.

(** *** Vectors and matrices *)

Definition vzero : vec3 := (0, 0, 0).

Definition vmap (f : Q → Q) (a : vec3) : vec3 :=
  let '(a0, a1, a2) := a in (f a0, f a1, f a2).

Definition vmap2 (f : Q → Q → Q) (a b : vec3) : vec3 :=
  let '(a0, a1, a2) := a in
  let '(b0, b1, b2) := b in
  (f a0 b0, f a1 b1, f a2 b2).

Definition vmapO (f : Q → option Q) (a : vec3) : option vec3 :=
  let '(a0, a1, a2) := a in
  x ← f a0; y ← f a1; z ← f a2; Some (x, y, z).

Definition vmap2O (f : Q → Q → option Q) (a b : vec3) : option vec3 :=
  let '(a0, a1, a2) := a in
  let '(b0, b1, b2) := b in
  x ← f a0 b0; y ← f a1 b1; z ← f a2 b2; Some (x, y, z).

Definition vall (f : Q → bool) (a : vec3) : bool :=
  let '(a0, a1, a2) := a in f a0 && f a1 && f a2.

Definition mall (f : Q → bool) (m : mat3) : bool :=
  let '(r0, r1, r2) := m in vall f r0 && vall f r1 && vall f r2.

(** [a + b] on columns of type [t] *)
Definition vadd (t : num_type) : vec3 → vec3 → option vec3 := vmap2O (add t).

Definition vinject (a : ivec3) : vec3 :=
  let '(a0, a1, a2) := a in (inject_Z a0, inject_Z a1, inject_Z a2).

(** [m[:, j]] *)
Definition col0 (m : mat3) : vec3 :=
  let '((m00, _, _), (m10, _, _), (m20, _, _)) := m in (m00, m10, m20).
Definition col1 (m : mat3) : vec3 :=
  let '((_, m01, _), (_, m11, _), (_, m21, _)) := m in (m01, m11, m21).
Definition col2 (m : mat3) : vec3 :=
  let '((_, _, m02), (_, _, m12), (_, _, m22)) := m in (m02, m12, m22).

Definition eye3 : mat3 := ((1, 0, 0), (0, 1, 0), (0, 0, 1)).

(** The sum of three products in a matrix product of float arrays.  numpy
    leaves the order of the additions, and whether a product is fused with
    an addition, to the BLAS in use.  Where the three products and all
    their partial sums are doubles every order gives the exact sum; the
    model follows the product there and nowhere else. *)
Definition dot (a b : vec3) : option Q :=
  let '(a0, a1, a2) := a in
  let '(b0, b1, b2) := b in
  let p0 := a0 * b0 in
  let p1 := a1 * b1 in
  let p2 := a2 * b2 in
  if forallb representable [p0; p1; p2; p0 + p1; p0 + p2; p1 + p2; p0 + p1 + p2]
  then Some (p0 + p1 + p2) else None.

(** [m @ v] *)
Definition mat_vec (m : mat3) (v : vec3) : option vec3 :=
  let '(r0, r1, r2) := m in
  x ← dot r0 v; y ← dot r1 v; z ← dot r2 v; Some (x, y, z).

(** *** The arguments *)

Inductive box_arg : Type :=
  | Box2 (t : num_type) (b : mat3)             (* an array of shape (3, 3) *)
  | Box3 (t : num_type) (bs : list mat3).      (* an array of shape (N, 3, 3) *)

Inductive origin_arg : Type :=
  | Origin1 (t : num_type) (o : vec3)          (* an array of shape (3,) *)
  | Origin2 (t : num_type) (os : list vec3).   (* an array of shape (3, N) *)

(** [box.dtype] *)
Definition box_dtype (box : box_arg) : num_type :=
  match box with
  | Box2 t _ | Box3 t _ => t
  end.

(** [box[np.newaxis]] when [box.ndim == 2] *)
Definition boxes (box : box_arg) : list mat3 :=
  match box with
  | Box2 _ b => [b]
  | Box3 _ bs => bs
  end.

(** The elements of an argument are of its type. *)
Definition valid_box (box : box_arg) : bool :=
  forallb (mall (valid (box_dtype box))) (boxes box).

Definition valid_origin (origin : origin_arg) : bool :=
  match origin with
  | Origin1 t o => vall (valid t) o
  | Origin2 t os => forallb (vall (valid t)) os
  end.

(** *** [get_box_corners] *)

(** Columns 0 to 7 of [corners] for one parallelepiped, before the origin is
    added; the sums are those of the element type. *)
Definition box_corners (t : num_type) (b : mat3) : option (list vec3) :=
  c4 ← vadd t (col0 b) (col1 b);
  c5 ← vadd t (col0 b) (col2 b);
  c6 ← vadd t (col1 b) (col2 b);
  c01 ← vadd t (col0 b) (col1 b);
  c7 ← vadd t c01 (col2 b);
  Some [vzero; col0 b; col1 b; col2 b; c4; c5; c6; c7].

(** [cs += o] for the columns of one parallelepiped *)
Definition shift (t : num_type) (cs : list vec3) (o : vec3) : option (list vec3) :=
  mapO (λ c, vadd t c o) cs.

Fixpoint shift_each (t : num_type) (corners : list (list vec3)) (os : list vec3) :
    option (list (list vec3)) :=
  match corners, os with
  | cs :: corners, o :: os =>
      cs' ← shift t cs o; rest ← shift_each t corners os; Some (cs' :: rest)
  | _, _ => Some []
  end.

Definition get_box_corners (box : box_arg) (origin : option origin_arg) :
    outcome (list (list vec3)) :=
  if negb (valid_box box && from_option valid_origin true origin) then Outside
  else
  let t := box_dtype box in
  let box := boxes box in
  let N := length box in
  match default (Origin2 t (replicate N vzero)) origin with
  | Origin1 _ _ =>
      (* [origin.T[:, :, np.newaxis]] on a one-dimensional array *)
      Raises IndexError
  | Origin2 t_origin os =>
      (* corners += origin.T[:, :, np.newaxis] *)
      let fits := bool_decide (length os = N) || bool_decide (length os = 1%nat) in
      if negb (can_cast t_origin t) then
        (* the result of the addition is a float, [corners] is not; which
           error numpy reports when the shapes do not fit either is not
           modelled *)
        if fits then Raises TypeError else Outside
      else if negb fits then Raises (ValueError OperandsNotBroadcast)
      else
        of_option (
          corners ← mapO (box_corners t) box;
          os ← mapO (vmapO (cast t_origin t)) os;
          if decide (length os = N) then shift_each t corners os
          else match os with
               | [o] => mapO (λ cs, shift t cs o) corners
               | _ => None
               end)
  end.

(** *** [get_box_xyz] *)

(** [c[:, :, idx]] for one parallelepiped *)
Definition take_cols (idx : list nat) (c : list vec3) : list vec3 :=
  (λ k, nth k c vzero) <$> idx.

(** [np.concatenate(coords, axis=2)] for arrays of shape (N, 3, K) *)
Definition concatenate_axis2 (N : nat) (coords : list (list (list vec3))) : list (list vec3) :=
  foldr (zip_with app) (replicate N []) coords.

Inductive xyz_result : Type :=
  | Path (xyz : list (list vec3))
  | Faces (xyz : list (string * list (list vec3))).

Definition get_box_xyz (box : box_arg) (origin : option origin_arg) (faces : bool) :
    outcome xyz_result :=
  let t := box_dtype box in
  let box := boxes box in
  let N := length box in
  let '(t_origin, origin) :=
    match origin with
    | None => (t, replicate N vzero)
    | Some (Origin1 t_origin o) => (t_origin, [o])
    | Some (Origin2 t_origin os) => (t_origin, os)
    end in
  if negb (bool_decide (length origin = length box)) then Raises (ValueError OriginPerBox)
  else
    c ← get_box_corners (Box3 t box) (Some (Origin2 t_origin origin));
    let face01a := take_cols [0; 1; 4; 2; 0]%nat <$> c in
    let face01b := take_cols [3; 5; 7; 6; 3]%nat <$> c in
    let face02a := take_cols [0; 1; 5; 3; 0]%nat <$> c in
    let face02b := take_cols [2; 4; 7; 6; 2]%nat <$> c in
    let face12a := take_cols [0; 2; 6; 3; 0]%nat <$> c in
    let face12b := take_cols [1; 4; 7; 5; 1]%nat <$> c in
    let coords := [face01a; face01b; face02a; face02b; face12a; face12b] in
    if negb faces then
      Returns (Path (concatenate_axis2 N coords))
    else
      let faceNames := ["face01a"; "face01b"; "face02a"; "face02b"; "face12a"; "face12b"] in
      Returns (Faces (zip faceNames coords)).

(** *** [get_bounding_box] *)

(** Modelled from the spec: [snap_arr_to_val] of the module [vectors] is not
    among the sources.  The spec has the bounding box snap near-zero values
    to exactly zero within the tolerance: an entry closer to [val] than [tol]
    becomes [val], any other is kept. *)
Definition snap_arr_to_val (val tol x : Q) : Q :=
  if Qlt_le_dec (Qabs (x - val)) tol then val else x.

(** The double [1e-12]. *)
Definition tol : Q := 4951760157141521 # (2 ^ 92)%positive.

(** [np.min(cs, axis=2)] and [np.max(cs, axis=2)] for one parallelepiped *)
Definition col_fold (f : Q → Q → Q) (cs : list vec3) : vec3 :=
  match cs with
  | [] => vzero
  | c :: cs => fold_left (vmap2 f) cs c
  end.

(** [np.floor] and [np.ceil]: the results are doubles again, kept here as
    the integers they are. *)
Definition vfloor (a : vec3) : ivec3 :=
  let '(a0, a1, a2) := a in (Qfloor a0, Qfloor a1, Qfloor a2).

Definition vceil (a : vec3) : ivec3 :=
  let '(a0, a1, a2) := a in (Qceiling a0, Qceiling a1, Qceiling a2).

(** [x.astype(int)] for an integer-valued double: the int64 of that value
    where there is one, not followed elsewhere. *)
Definition astype_int (z : Z) : option Z :=
  if ((- 2 ^ 63 <=? z) && (z <? 2 ^ 63))%Z then Some z else None.

(** One entry of [(maxs_ceil - mins_floor).astype(int)]: the difference of
    two integer-valued doubles, followed where it is a double itself (no
    rounding) and an int64. *)
Definition extent (hi lo : Z) : option Z :=
  if representable (inject_Z (hi - lo)) then astype_int (hi - lo) else None.

Definition vextent (hi lo : ivec3) : option ivec3 :=
  let '(h0, h1, h2) := hi in
  let '(l0, l1, l2) := lo in
  x ← extent h0 l0; y ← extent h1 l1; z ← extent h2 l2; Some (x, y, z).

Definition vastype_int (a : ivec3) : option ivec3 :=
  let '(a0, a1, a2) := a in
  x ← astype_int a0; y ← astype_int a1; z ← astype_int a2; Some (x, y, z).

(** One entry of [bv[np.newaxis] * bound_vecs]: the int64 as a double, times
    the entry of [bound_vecs], rounded. *)
Definition scale (k : Z) (x : Q) : option Q :=
  k ← round64 (inject_Z k); round64 (k * x).

(** [bv[np.newaxis] * bound_vecs]: column [j] of [bound_vecs] times [bv[j]],
    then [snap_arr_to_val] on every entry *)
Definition scale_cols (bv : ivec3) (m : mat3) : option mat3 :=
  let '(k0, k1, k2) := bv in
  let row (r : vec3) : option vec3 :=
    let '(r0, r1, r2) := r in
    x ← scale k0 r0; y ← scale k1 r1; z ← scale k2 r2;
    Some (vmap (snap_arr_to_val 0 tol) (x, y, z)) in
  let '(r0, r1, r2) := m in
  a ← row r0; b ← row r1; c ← row r2; Some (a, b, c).

Record bounding : Type := {
  bound_box : list mat3;
  bound_box_origin : list vec3;
  bound_box_bv : list ivec3;
  bound_box_origin_bv : list ivec3;
}.

(** [bound_vecs] is a float64 array, as the default [np.eye(3)] is; a basis
    of another element type is not modelled.  [np.linalg.inv] is numpy's:
    the model takes it as a parameter, a function from a float array of
    shape (3, 3) to what the call comes to ([LinAlgError] for a matrix numpy
    finds singular).  [int] in [astype(int)] is int64. *)
Definition get_bounding_box (linalg_inv : mat3 → outcome mat3)
    (box : box_arg) (bound_vecs : option mat3) : outcome bounding :=
  let bound_vecs := default eye3 bound_vecs in
  if negb (mall representable bound_vecs) then Outside
  else
  (* Transformation matrix to `bound_vecs` basis *)
  bound_vecs_inv ← linalg_inv bound_vecs;
  if negb (mall representable bound_vecs_inv) then Outside
  else
  corners ← get_box_corners box None;
  (* the matrix product is one of float arrays *)
  corners ← of_option (mapO (mapO (vmapO (cast (box_dtype box) float64))) corners);
  corners_bound ← of_option (mapO (mapO (mat_vec bound_vecs_inv)) corners);
  let mins := (λ cs, vmap (snap_arr_to_val 0 tol) (col_fold Qmin cs)) <$> corners_bound in
  let maxs := (λ cs, vmap (snap_arr_to_val 0 tol) (col_fold Qmax cs)) <$> corners_bound in
  let mins_floor := vfloor <$> mins in
  let maxs_ceil := vceil <$> maxs in
  (* [np.concatenate] refuses an empty sequence of arrays *)
  if decide (length corners = 0%nat) then Raises (ValueError NeedAtLeastOneArray)
  else
    bound_box_origin ← of_option (mapO (λ m, mat_vec bound_vecs (vinject m)) mins_floor);
    bound_box_bv ← of_option (mapO (λ '(hi, lo), vextent hi lo) (zip maxs_ceil mins_floor));
    bound_box ← of_option (mapO (λ bv, scale_cols bv bound_vecs) bound_box_bv);
    bound_box_origin_bv ← of_option (mapO vastype_int mins_floor);
    Returns {| bound_box := bound_box;
               bound_box_origin := bound_box_origin;
               bound_box_bv := bound_box_bv;
               bound_box_origin_bv := bound_box_origin_bv |}.

End Geometry.

(** [np.linalg.inv] where its result is beyond doubt: the inverse of the
    identity is the identity.  For any other matrix this stand-in says
    nothing. *)
Definition inv_of_eye (m : mat3) : outcome mat3 :=
  let '((a, b, c), (d, e, f), (g, h, i)) := m in
  if forallb (λ '(x, y), Qeq_bool x y)
       [(a, 1); (b, 0); (c, 0); (d, 0); (e, 1); (f, 0); (g, 0); (h, 0); (i, 1)]%Q
  then Returns eye3 else Outside.

(** ** Example data for [gb_energy]

    [example_req_vars] gives the five definitions [gb_energy] is passed:
    energies, atom counts, boundary areas and supercell types of the
    simulations, and the [gb_energy] definition itself. *)

Definition example_var (name : string) (vals : pyval) : dict :=
  {[ "type" := PStr "compute"; "name" := PStr name; "id" := PStr name; "vals" := vals ]}.

Definition example_req_vars (energy num_atoms area sup_type series_id : list pyval)
    (unit : string) : list dict :=
  [ example_var "energy" (PList energy);
    example_var "num_atoms" (PList num_atoms);
    example_var "gb_area" (PList area);
    example_var "supercell_type" (PList sup_type);
    <["unit" := PStr unit]> (<["series_id" := PList series_id]>
      (example_var "gb_energy" (PList []))) ].

(** One bulk and one bicrystal simulation of one session, with a declared
    series [gamma]. *)
Definition example_out (gamma_bulk gamma_gb : Z) : output :=
  {| variables := [];
     series_name := [PStr "gamma"];
     series_id_val := [[PInt gamma_bulk]; [PInt gamma_gb]];
     session_id := [PStr "session"];
     session_id_idx := [0; 0]%Z |}.

Definition example_pair (unit : string) : list dict :=
  example_req_vars [PFloat (-500); PFloat (-510)] [PInt 100; PInt 100]
    [PNone; PFloat 50] [PStr "bulk"; PStr "bicrystal"] [PStr "gamma"] unit.

(** Two bulk simulations of different energies and one bicrystal, no series
    declared. *)
Definition example_out3 : output :=
  {| variables := [];
     series_name := [];
     series_id_val := [[]; []; []];
     session_id := [PStr "session"];
     session_id_idx := [0; 0; 0]%Z |}.

Definition example_triple : list dict :=
  example_req_vars [PFloat (-500); PFloat (-400); PFloat (-510)]
    [PInt 100; PInt 100; PInt 100] [PNone; PNone; PFloat 50]
    [PStr "bulk"; PStr "bulk"; PStr "bicrystal"] [] "eV/A^2".

(** ** Invariants and auxiliary notions of the statements *)

(** No [vals] key bound to [None]: the loop of [get_depends] tells such a key
    from an absent one only through [get]. *)
Definition clean (d : dict) : Prop := d !! "vals" ≠ Some PNone.

(** The loop maps [set_vals] over the dicts the list refers to. *)
Definition on_own (f : dict → dict) (o : obj) : obj :=
  match o with
  | Own d => Own (f d)
  | Shared p => Shared p
  end.

(** Whether a list refers to the module-level dict [p]. *)
Definition refers (p : predef) (out : list obj) : bool :=
  existsb (λ o, if o is Shared q then bool_decide (q = p) else false) out.

(** The store differs from the module as loaded in [vals] keys only. *)
Definition store_wf (pv : store) : Prop :=
  ∀ p, delete "vals" (pv p) = PREDEFINED_VARS p ∧ clean (pv p).

(** An owned dict as [get_depends] makes them: without [vals], or with the
    empty list the loop gave it. *)
Definition own_ok (d : dict) : Prop :=
  d !! "vals" = Some (PList []) ∨ d !! "vals" = None.

(** [effect_weak iv pv out pv']: [pv'] is [pv] but for dicts [out] refers
    to, which went through the loop for [iv]. *)
Definition effect_weak (iv : bool) (pv : store) (out : list obj) (pv' : store) : Prop :=
  (∀ d, Own d ∈ out → own_ok d) ∧
  (∀ p, pv' p = pv p ∨ (refers p out = true ∧ pv' p = set_vals iv (pv p))).

(** [effect iv pv out pv']: every dict [out] refers to went through the loop
    for [iv] last. *)
Definition effect (iv : bool) (pv : store) (out : list obj) (pv' : store) : Prop :=
  (∀ d, Own d ∈ out → d !! "vals" = if iv then Some (PList []) else None) ∧
  (∀ p, pv' p = if refers p out then set_vals iv (pv p) else pv p).

(** The keyword arguments a compute reads with [kwargs[...]]. *)
Definition required_kwargs (name : string) : list string :=
  if decide (name = "gb_energy") then ["energy_src"; "opt_step"; "series_id"; "unit"]
  else if decide (name = "energy_per_atom") then ["energy_src"; "opt_step"]
  else if decide (name = "gamma_surface_info") then ["info_name"]
  else if decide (name = "master_gamma") then ["energy_src"; "opt_step"; "series_id"; "unit"]
  else if decide (name = "energy") then ["energy_src"]
  else [].

(** The energy sources the spec allows for a method. *)
Definition allowed_for (method energy_src : string) : Prop :=
  (method = "castep" ∧
   energy_src ∈ ["final_energy"; "final_fenergy"; "final_zenergy"]) ∨
  (method = "lammps" ∧ energy_src = "final_energy").

(** Whether bulk [b] has the series values of bicrystal [gb_i]. *)
Definition is_match (a : gb_inputs) (gb_i b : Z) : bool :=
  if same_series a gb_i b is Ok true then true else false.

(** The last element of a list of bulk indices that matches. *)
Fixpoint last_match (a : gb_inputs) (gb_i : Z) (bulk_idx : list Z) : option Z :=
  match bulk_idx with
  | [] => None
  | b :: bulk_idx =>
      match last_match a gb_i bulk_idx with
      | Some x => Some x
      | None => if is_match a gb_i b then Some b else None
      end
  end.

(** The unit conversion at the end of the loop body. *)
Definition scaled (a : gb_inputs) (E_gb : pyval) : result pyval :=
  if py_eqb (gi_unit a) (PStr "J/m^2") then py_mul E_gb (PFloat J_per_m2) else Ok E_gb.

(** ** Notions of the statements on the geometry *)

(** Equality of vectors, componentwise on the rationals. *)
Definition veq (a b : vec3) : Prop :=
  let '(a0, a1, a2) := a in
  let '(b0, b1, b2) := b in
  (a0 == b0 ∧ a1 == b1 ∧ a2 == b2)%Q.

(** [origin.shape[1]] once [get_box_xyz] has turned a one-dimensional origin
    into a column. *)
Definition n_origins (origin : origin_arg) : nat :=
  match origin with
  | Origin1 _ _ => 1
  | Origin2 _ os => length os
  end.

(** [origin.dtype] *)
Definition origin_dtype (origin : origin_arg) : num_type :=
  match origin with
  | Origin1 t _ | Origin2 t _ => t
  end.

(** The columns of an origin array. *)
Definition origin_columns (origin : origin_arg) : list vec3 :=
  match origin with
  | Origin1 _ o => [o]
  | Origin2 _ os => os
  end.

(** The eight corners of the parallelepiped [b] at the origin [o], in the
    arithmetic of the element type [t]: [o] added to zero, to each edge
    vector, to each sum of two edge vectors, and to the sum of the three,
    the first two added first. *)
Definition corners_of (t : num_type) (b : mat3) (o : vec3) (cs : list vec3) : Prop :=
  ∃ s01 s02 s12 s012 c0 c1 c2 c3 c4 c5 c6 c7,
    cs = [c0; c1; c2; c3; c4; c5; c6; c7] ∧
    vadd t (col0 b) (col1 b) = Some s01 ∧
    vadd t (col0 b) (col2 b) = Some s02 ∧
    vadd t (col1 b) (col2 b) = Some s12 ∧
    vadd t s01 (col2 b) = Some s012 ∧
    vadd t vzero o = Some c0 ∧
    vadd t (col0 b) o = Some c1 ∧
    vadd t (col1 b) o = Some c2 ∧
    vadd t (col2 b) o = Some c3 ∧
    vadd t s01 o = Some c4 ∧
    vadd t s02 o = Some c5 ∧
    vadd t s12 o = Some c6 ∧
    vadd t s012 o = Some c7.

(** The corners of the parallelepipeds [box], of element type [t], each
    shifted by its own origin, the origins being of type [t_origin]. *)
Definition shifted_corners (t t_origin : num_type) (box : list mat3) (os : list vec3) :
    option (list (list vec3)) :=
  corners ← mapO (box_corners t) box;
  os ← mapO (vmapO (cast t_origin t)) os;
  shift_each t corners os.

(** The point with coordinates [x] in the basis lies in the box of origin
    [o_bv] and extent [bv], both in units of the basis vectors, up to [eps]
    on every axis. *)
Definition in_box_within (eps : Q) (o_bv bv : ivec3) (x : vec3) : Prop :=
  let '(o0, o1, o2) := o_bv in
  let '(b0, b1, b2) := bv in
  let '(x0, x1, x2) := x in
  (inject_Z o0 - eps <= x0 <= inject_Z (o0 + b0) + eps ∧
   inject_Z o1 - eps <= x1 <= inject_Z (o1 + b1) + eps ∧
   inject_Z o2 - eps <= x2 <= inject_Z (o2 + b2) + eps)%Q.

Section GeometryOrder.
#[local] Open Scope Q_scope.

(** Componentwise order. *)
Definition vle (a b : vec3) : Prop :=
  let '(a0, a1, a2) := a in
  let '(b0, b1, b2) := b in
  a0 <= b0 ∧ a1 <= b1 ∧ a2 <= b2.

End GeometryOrder.

(** [x] is an integer of absolute value at most [B]. *)
Definition intq (B : Z) (x : Q) : Prop := ∃ z, (x == inject_Z z)%Q ∧ (Z.abs z ≤ B)%Z.

Definition vintq (B : Z) (a : vec3) : Prop :=
  let '(a0, a1, a2) := a in intq B a0 ∧ intq B a1 ∧ intq B a2.

(** An array element that is an integer of absolute value at most 2^50. *)
Definition small_int (x : Q) : bool :=
  Qeq_bool (inject_Z (Qfloor x)) x && (Z.abs (Qfloor x) <=? 2 ^ 50)%Z.

(** ** The dependency table

    The names of the definitions [get_depends] returns for a compute, in
    order, as the branches of the source list them. *)

Definition gamma_surface_info_names : list string :=
  ["csi_idx"; "grid_idx"; "point_idx"; "gamma_surface_info"].

Definition gb_energy_names : list string :=
  ["energy"; "num_atoms"; "gb_area"; "supercell_type"; "gb_energy"].

Definition resolved_names (compute_name : string) : list string :=
  if decide (compute_name = "gb_energy") then gb_energy_names
  else if decide (compute_name = "energy_per_atom") then
    ["num_atoms"; "energy"; "energy_per_atom"]
  else if decide (compute_name = "gamma_surface_info") then gamma_surface_info_names
  else if decide (compute_name = "master_gamma") then
    gb_energy_names ++ concat (replicate 7 gamma_surface_info_names)
      ++ ["gb_boundary_vac"; "master_gamma"]
  else if decide (compute_name = "atoms_gb_dist_change") then
    ["atoms_gb_dist_initial"; "atoms_gb_dist_final"; "supercell_type";
     "atoms_gb_dist_change"]
  else [compute_name].

(** The name of the definition an element of a list refers to. *)
Definition obj_name (o : obj) : pyval :=
  match o with
  | Own d => py_get d "name"
  | Shared p => PStr (predef_name p)
  end.

(** The [id] key of an element as [get_depends] makes it for [inc_id]: an
    own definition has its name as [id], or none; a module-level definition
    is not made by the call. *)
Definition id_ok (inc_id : bool) (o : obj) : Prop :=
  match o with
  | Own d => d !! "id" = if inc_id then d !! "name" else None
  | Shared _ => True
  end.

(** Keyword arguments for the examples. *)
Definition example_kwargs : dict :=
  {[ "energy_src" := PStr "final_energy"; "opt_step" := PInt 0;
     "series_id" := PList [PStr "gamma_surface"]; "unit" := PStr "J/m^2" ]}.

(** ** The computes that call [is_bicrystal] *)

(** The attributes of [sim.structure] the four computes below return. *)
Record structure_attrs : Type := {
  boundary_area : pyval;
  boundary_vac : pyval;
  bicrystal_thickness : pyval;
  atoms_gb_dist : pyval;
}.

Definition gb_area (out : output) (sim : simulation) (structure : structure_attrs)
    (sim_idx : Z) : pyval :=
  if truthy (is_bicrystal sim) then boundary_area structure else PNone.

Definition gb_boundary_vac (out : output) (sim : simulation) (structure : structure_attrs)
    (sim_idx : Z) : pyval :=
  if truthy (is_bicrystal sim) then boundary_vac structure else PNone.

Definition gb_thickness (out : output) (sim : simulation) (structure : structure_attrs)
    (sim_idx : Z) : pyval :=
  if truthy (is_bicrystal sim) then bicrystal_thickness structure else PNone.

Definition atoms_gb_dist_initial (out : output) (sim : simulation)
    (structure : structure_attrs) (sim_idx : Z) : pyval :=
  if truthy (is_bicrystal sim) then atoms_gb_dist structure else PNone.

(** ** [supercell_type] *)

Definition COMPATIBILITY_LOOKUP : gmap string string :=
  {[ "CSLBicrystal" := "bicrystal";
     "CSLBulkBicrystal" := "bulk";
     "CSLSurfaceBicrystal" := "surface";
     "BulkCrystal" := "bulk" ]}.

Definition supercell_type (out : output) (sim : simulation) (sim_idx : Z) : result string :=
  match structure_meta_supercell_type sim with
  | Some supercell_type => list_item supercell_type 0
  | None =>
      let type := options_base_structure_type sim in
      match COMPATIBILITY_LOOKUP !! type with
      | Some t => Ok t
      | None => Raise (KeyError type)
      end
  end.

(** ** [energy_per_atom] *)

Definition energy_per_atom (out : output) (sim : simulation) (sim_idx : Z)
    (energy_src opt_step : pyval) (pv : store) : result (pyval * store) :=
  '(req_vars_defn, pv) ← get_depends "energy_per_atom" false false
                           {[ "energy_src" := energy_src; "opt_step" := opt_step ]} pv;
  let vrs := deref pv <$> variables out in
  let req_vars := (λ i, dict_from_list vrs (deref pv i)) <$> req_vars_defn in
  r0 ← list_item req_vars 0;
  n ← vals_at r0 sim_idx;
  r1 ← list_item req_vars 1;
  e ← vals_at r1 sim_idx;
  r ← py_truediv e n;
  Ok (r, pv).

(** The definitions [energy_per_atom] looks its two variables up by. *)
Definition num_atoms_defn : dict :=
  {[ "type" := PStr "compute"; "name" := PStr "num_atoms" ]}.

Definition energy_defn (energy_src opt_step : pyval) : dict :=
  let d : dict := <["energy_src" := energy_src]>
                    {[ "type" := PStr "compute"; "name" := PStr "energy" ]} in
  if negb (is_none opt_step) then <["opt_step" := opt_step]> d else d.

(** * Properties *)

(** ** The error monad *)

Lemma bind_Ok {A B} (f : A → result B) (r : result A) (b : B) :
  r ≫= f = Ok b → ∃ a, r = Ok a ∧ f a = Ok b.
Proof. destruct r as [a|e]; [eauto | discriminate]. Qed.

Lemma bind_Raise {A B} (f : A → result B) (r : result A) (e : exn) :
  r ≫= f = Raise e → r = Raise e ∨ ∃ a, r = Ok a ∧ f a = Raise e.
Proof. destruct r as [a|e']; [eauto | intros [= ->]; auto]. Qed.

(** Splits a hypothesis [x ← r; k = Ok b] into [r = Ok a] and [k a = Ok b]. *)
Ltac bind_ok H :=
  let a := fresh "a" in
  let Ha := fresh "Ha" in
  apply bind_Ok in H as (a & Ha & H); cbn beta in H.

(** ** The [vals] loop *)

Lemma set_vals_lookup_ne iv (d : dict) k :
  k ≠ "vals" → set_vals iv d !! k = d !! k.
Proof.
  intros Hk. unfold set_vals.
  repeat case_match; [by rewrite lookup_insert_ne | by rewrite lookup_delete_ne | done].
Qed.

Lemma set_vals_true_lookup (d : dict) :
  clean d → set_vals true d !! "vals" = Some (default (PList []) (d !! "vals")).
Proof.
  unfold clean, set_vals, py_get. intros Hc.
  destruct (d !! "vals") as [[]|] eqn:E; simpl; rewrite ?lookup_insert_eq, ?E; done.
Qed.

Lemma set_vals_false_lookup (d : dict) :
  clean d → set_vals false d !! "vals" = None.
Proof.
  unfold clean, set_vals, py_get. intros Hc.
  destruct (d !! "vals") as [[]|] eqn:E; simpl; rewrite ?lookup_delete_eq, ?E; done.
Qed.

Lemma set_vals_clean iv (d : dict) : clean d → clean (set_vals iv d).
Proof.
  intros Hc. unfold clean. destruct iv.
  - rewrite set_vals_true_lookup by done. unfold clean in Hc.
    destruct (d !! "vals") as [[]|]; simpl; congruence.
  - by rewrite set_vals_false_lookup.
Qed.

Lemma set_vals_idemp iv (d : dict) : set_vals iv (set_vals iv d) = set_vals iv d.
Proof.
  unfold set_vals, py_get. destruct iv; simpl; rewrite ?andb_false_r, ?andb_true_r.
  - destruct (is_none (default PNone (d !! "vals"))) eqn:E; [|by rewrite E].
    by rewrite lookup_insert_eq.
  - destruct (is_none (default PNone (d !! "vals"))) eqn:E; simpl; [by rewrite E|].
    by rewrite lookup_delete_eq.
Qed.

(** A loop with [inc_val] true followed by a loop with any [inc_val] amounts
    to the second loop alone. *)
Lemma set_vals_after_true iv (d : dict) :
  clean d → set_vals iv (set_vals true d) = set_vals iv d.
Proof.
  intros Hc. destruct iv; [apply set_vals_idemp|].
  apply map_eq. intros k. destruct (decide (k = "vals")) as [->|Hk].
  - rewrite !set_vals_false_lookup; auto using set_vals_clean.
  - by rewrite !set_vals_lookup_ne.
Qed.

Lemma refers_app p (o1 o2 : list obj) : refers p (o1 ++ o2) = refers p o1 || refers p o2.
Proof. apply existsb_app. Qed.

Lemma refers_on_own f p (out : list obj) : refers p (on_own f <$> out) = refers p out.
Proof.
  unfold refers. induction out as [|[d|q] out IH]; simpl; [done | done | by f_equal].
Qed.

Lemma refers_elem_of p (out : list obj) : refers p out = true ↔ Shared p ∈ out.
Proof.
  unfold refers. rewrite existsb_exists. setoid_rewrite <- list_elem_of_In. split.
  - intros ([d|q] & Hin & Hq); [done|]. by apply bool_decide_eq_true in Hq as ->.
  - intros Hin. exists (Shared p). split; [done | by apply bool_decide_eq_true].
Qed.

Lemma vals_loop_fst iv (out : list obj) (pv : store) :
  (vals_loop iv out pv).1 = on_own (set_vals iv) <$> out.
Proof.
  revert pv. induction out as [|[d|p] out IH]; intros pv; simpl; [done| |].
  - specialize (IH pv). destruct (vals_loop iv out pv). simpl in *. by rewrite IH.
  - specialize (IH (store_update p (set_vals iv) pv)).
    destruct (vals_loop iv out _). simpl in *. by rewrite IH.
Qed.

Lemma vals_loop_snd iv (out : list obj) (pv : store) (p : predef) :
  (vals_loop iv out pv).2 p =
    if refers p out then set_vals iv (pv p) else pv p.
Proof.
  revert pv. induction out as [|[d|q] out IH]; intros pv; simpl; [done| |].
  - specialize (IH pv). destruct (vals_loop iv out pv). simpl in *. by rewrite IH.
  - specialize (IH (store_update q (set_vals iv) pv)).
    destruct (vals_loop iv out _). simpl in *. rewrite IH.
    unfold store_update. destruct (decide (q = p)) as [->|Hne].
    + rewrite set_vals_idemp, bool_decide_eq_true_2 by done. simpl. by destruct (refers p out).
    + by rewrite bool_decide_eq_false_2.
Qed.

(** ** What one call of [get_depends] does to the dicts *)

Lemma PREDEFINED_VARS_wf : store_wf PREDEFINED_VARS.
Proof. intros p. split; [by destruct p | by destruct p]. Qed.

Lemma store_wf_lookup pv p k :
  store_wf pv → k ≠ "vals" → pv p !! k = PREDEFINED_VARS p !! k.
Proof.
  intros Hwf Hk. destruct (Hwf p) as [<- _]. by rewrite lookup_delete_ne.
Qed.

Lemma own_ok_clean d : own_ok d → clean d.
Proof. unfold clean. intros [-> | ->]; done. Qed.

Lemma effect_weaken iv pv out pv' : effect iv pv out pv' → effect_weak iv pv out pv'.
Proof.
  intros [Ho Hs]. split.
  - intros d Hd. unfold own_ok. rewrite (Ho d Hd). destruct iv; auto.
  - intros p. rewrite Hs. destruct (refers p out); auto.
Qed.

Lemma effect_weak_refl iv pv (out : list obj) :
  (∀ d, Own d ∈ out → own_ok d) → effect_weak iv pv out pv.
Proof. intros Ho. split; auto. Qed.

Lemma effect_weak_app iv pv o1 pv1 o2 pv2 :
  effect_weak iv pv o1 pv1 → effect_weak iv pv1 o2 pv2 →
  effect_weak iv pv (o1 ++ o2) pv2.
Proof.
  intros [Ho1 Hs1] [Ho2 Hs2]. split.
  - intros d. rewrite elem_of_app. intros [?|?]; auto.
  - intros p. rewrite refers_app.
    destruct (Hs2 p) as [->|[Hin ->]], (Hs1 p) as [->|[Hin' ->]];
      rewrite ?Hin, ?Hin', ?orb_true_r, ?set_vals_idemp; auto.
Qed.

Lemma effect_weak_wf iv pv out pv' :
  store_wf pv → effect_weak iv pv out pv' → store_wf pv'.
Proof.
  intros Hwf [_ Hs] p. destruct (Hwf p) as [Hd Hc].
  destruct (Hs p) as [->|[_ ->]]; [done|]. split; [|by apply set_vals_clean].
  rewrite <- Hd. apply map_eq. intros k. destruct (decide (k = "vals")) as [->|Hk].
  - by rewrite !lookup_delete_eq.
  - by rewrite !lookup_delete_ne, set_vals_lookup_ne.
Qed.

Lemma finish_effect iv iv' d (out0 : list obj) pv pv0 :
  store_wf pv → effect_weak iv' pv out0 pv0 → iv' = iv ∨ iv' = true →
  d !! "vals" = None →
  effect iv pv (finish iv d out0 pv0).1 (finish iv d out0 pv0).2.
Proof.
  intros Hwf [Ho Hs] Hiv Hd. unfold finish.
  set (out := if dict_from_list _ _ is None then _ else _).
  assert (Hown : ∀ e, Own e ∈ out → own_ok e).
  { intros e. subst out. destruct (dict_from_list _ _); [auto|].
    rewrite elem_of_app, list_elem_of_singleton.
    intros [?|[= ->]]; [auto | by right]. }
  assert (Hsh : ∀ p, refers p out = refers p out0).
  { intros p. subst out. destruct (dict_from_list _ _); [done|].
    rewrite refers_app. simpl. by rewrite orb_false_r. }
  clearbody out. split.
  - intros e. rewrite vals_loop_fst, list_elem_of_fmap.
    intros ([e0|q] & Heq & Hin); simpl in Heq; [|discriminate].
    injection Heq as ->. specialize (Hown e0 Hin).
    pose proof (own_ok_clean _ Hown) as Hc. destruct iv.
    + rewrite set_vals_true_lookup by done. by destruct Hown as [-> | ->].
    + by apply set_vals_false_lookup.
  - intros p. rewrite vals_loop_snd, vals_loop_fst, refers_on_own, Hsh.
    destruct (Hwf p) as [_ Hc].
    destruct (Hs p) as [->|[Hin ->]]; [done|]. rewrite Hin.
    destruct Hiv as [->| ->]; [apply set_vals_idemp | by apply set_vals_after_true].
Qed.

Lemma get_depends_rec_S fuel :
  get_depends_rec (S fuel) = get_depends_body (get_depends_rec fuel).
Proof. reflexivity. Qed.

Lemma series_id_defn_vals inc_id name : series_id_defn inc_id name !! "vals" = None.
Proof. by destruct inc_id. Qed.

(** Takes the successful run recorded in a hypothesis apart, one bind at a
    time. *)
Ltac run_ok :=
  repeat match goal with
  | H : (let '(_, _) := ?x in _) = Ok _ |- _ => destruct x as [? ?]
  | H : _ ≫= _ = Ok _ |- _ => bind_ok H
  | H : Ok _ = Ok _ |- _ => progress simplify_eq
  end.

(** One branch of [get_depends]: the nested calls ran the loop for [iv']. *)
Ltac effect_branch iv' :=
  exists iv'; split; [|split; [by auto | by repeat case_match]];
  repeat (eapply effect_weak_app; [eassumption|]);
  first [ eassumption
        | apply effect_weak_refl; intros d; rewrite ?elem_of_cons, ?elem_of_nil;
          intros Hd; repeat destruct Hd as [Hd|Hd]; simplify_eq; try done;
          right; apply series_id_defn_vals ].

Lemma get_depends_rec_effect fuel : ∀ name inc_id iv kwargs pv out pv',
  store_wf pv →
  get_depends_rec fuel name inc_id iv kwargs pv = Ok (out, pv') →
  effect iv pv out pv'.
Proof.
  induction fuel as [|fuel IH]; intros name inc_id iv kwargs pv out pv' Hwf H; [discriminate|].
  rewrite get_depends_rec_S in H. unfold get_depends_body in H.
  destruct (negb _); [discriminate|].
  bind_ok H. destruct a as [[d out0] pv0]. injection H as H.
  cut (∃ iv', effect_weak iv' pv out0 pv0 ∧ (iv' = iv ∨ iv' = true) ∧ d !! "vals" = None).
  { intros (iv' & Hw & Hiv & Hd).
    pose proof (finish_effect iv iv' d out0 pv pv0 Hwf Hw Hiv Hd) as He.
    by rewrite H in He. }
  clear H out pv'.
  repeat case_decide; run_ok; subst;
    repeat match goal with
    | Hw : store_wf ?pv, H : get_depends_rec _ _ _ _ _ ?pv = Ok (_, _) |- _ =>
        apply (IH _ _ _ _ _ _ _ Hw), effect_weaken in H;
        pose proof (effect_weak_wf _ _ _ _ Hw H)
    end;
    rewrite ?app_nil_r, <- ?app_assoc.
  all: first [ by effect_branch iv | by effect_branch true ].
Qed.

(** ** Which errors [get_depends] raises *)

Lemma allowed_computes_elem name :
  bool_decide (name ∈ allowed_computes) = true → name ∈ allowed_computes.
Proof. apply bool_decide_eq_true. Qed.

Ltac registered := apply allowed_computes_elem; vm_compute; reflexivity.

Lemma py_item_raise (d : dict) k e : py_item d k = Raise e → e = KeyError k ∧ d !! k = None.
Proof. unfold py_item. destruct (d !! k); [discriminate | by intros [= <-]]. Qed.

(** The only [ValueError] of [get_depends] is the one for a name outside the
    registry: the nested calls all name registered computes. *)
Lemma get_depends_rec_no_value_error fuel : ∀ name inc_id iv kwargs pv e,
  name ∈ allowed_computes →
  get_depends_rec fuel name inc_id iv kwargs pv ≠ Raise (ValueError e).
Proof.
  induction fuel as [|fuel IH]; intros name inc_id iv kwargs pv e Hin H; [discriminate|].
  rewrite get_depends_rec_S in H. unfold get_depends_body in H.
  rewrite bool_decide_eq_true_2 in H by done. cbn [negb] in H.
  apply bind_Raise in H as [H | ([[d out] pv0] & _ & H)]; [|discriminate].
  repeat case_decide;
    repeat match goal with
    | H : _ ≫= _ = Raise _ |- _ => apply bind_Raise in H as [H | (? & ? & H)]; cbn beta in H
    | H : (let '(_, _) := ?x in _) = Raise _ |- _ => destruct x as [? ?]
    | H : py_item _ _ = Raise (ValueError _) |- _ => by apply py_item_raise in H as [? _]
    | H : get_depends_rec _ _ _ _ _ _ = Raise (ValueError _) |- _ =>
        exfalso; revert H; apply IH; registered
    | H : Ok _ = Raise _ |- _ => discriminate
    end.
Qed.

Ltac eval_required Hk :=
  match type of Hk with
  | Forall _ (required_kwargs ?n) =>
      let l := eval vm_compute in (required_kwargs n) in
      change (required_kwargs n) with l in Hk
  end;
  repeat (apply Forall_cons in Hk as [? Hk]).

Lemma py_item_ok (d : dict) k : is_Some (d !! k) → ∃ v, py_item d k = Ok v ∧ d !! k = Some v.
Proof. intros [v Hv]. exists v. unfold py_item. by rewrite Hv. Qed.

(** Rewrites a successful [kwargs[k]] under the binds of the goal. *)
Ltac item_ok kwargs k :=
  let v := fresh "v" in
  let Hv := fresh "Hv" in
  let Hk := fresh "Hk" in
  destruct (py_item_ok kwargs k) as (v & Hv & Hk);
    [ done | rewrite Hv; cbn [mbind result_bind] ].

(** Selects the branch of [get_depends] for a given registered name. *)
Ltac pick_branch :=
  rewrite bool_decide_eq_true_2 by registered; cbn [negb];
  repeat (let Hb := fresh "Hb" in
          case_decide as Hb;
            [ try discriminate Hb | try (exfalso; apply Hb; reflexivity) ]).

Lemma get_depends_rec_ok_leaf fuel name inc_id iv kwargs pv :
  name ∈ ["energy"; "num_atoms"; "gamma_surface_info"] →
  Forall (λ k, is_Some (kwargs !! k)) (required_kwargs name) →
  ∃ r, get_depends_rec (S fuel) name inc_id iv kwargs pv = Ok r.
Proof.
  intros Hin Hk. rewrite get_depends_rec_S.
  rewrite !elem_of_cons, elem_of_nil in Hin.
  destruct Hin as [->|[->|[->|[]]]]; eval_required Hk;
    unfold get_depends_body; pick_branch.
  - item_ok kwargs "energy_src". eauto.
  - eauto.
  - item_ok kwargs "info_name". eauto.
Qed.

(** Runs a nested call on a leaf of the dependency graph under the binds of
    the goal. *)
Ltac leaf_ok fuel name :=
  let o := fresh "o" in
  let pv := fresh "pv" in
  let Ho := fresh "Ho" in
  match goal with
  | |- context [get_depends_rec (S fuel) name ?inc_id ?iv ?kw ?pv0] =>
      destruct (get_depends_rec_ok_leaf fuel name inc_id iv kw pv0) as [[o pv] Ho];
        [ rewrite !elem_of_cons; auto
        | by repeat constructor
        | rewrite Ho; cbn [mbind result_bind] ]
  end.

Lemma get_depends_rec_ok_gb_energy fuel inc_id iv kwargs pv :
  Forall (λ k, is_Some (kwargs !! k)) (required_kwargs "gb_energy") →
  ∃ r, get_depends_rec (S (S fuel)) "gb_energy" inc_id iv kwargs pv = Ok r.
Proof.
  intros Hk. rewrite get_depends_rec_S.
  eval_required Hk.
  unfold get_depends_body. pick_branch.
  item_ok kwargs "energy_src". item_ok kwargs "opt_step".
  item_ok kwargs "series_id". item_ok kwargs "unit".
  leaf_ok fuel "energy". leaf_ok fuel "num_atoms". eauto.
Qed.

(** Three levels of recursion are enough for every compute: the call returns
    whenever the name is registered and the keyword arguments it reads are
    given. *)
Lemma get_depends_ok name inc_id iv kwargs pv :
  name ∈ allowed_computes →
  Forall (λ k, is_Some (kwargs !! k)) (required_kwargs name) →
  ∃ r, get_depends name inc_id iv kwargs pv = Ok r.
Proof.
  intros Hin Hk. unfold get_depends.
  destruct (decide (name = "gb_energy")) as [->|?];
    [by apply get_depends_rec_ok_gb_energy|].
  destruct (decide (name ∈ ["energy"; "num_atoms"; "gamma_surface_info"])) as [?|Hleaf];
    [by apply get_depends_rec_ok_leaf|].
  rewrite get_depends_rec_S. unfold get_depends_body.
  rewrite bool_decide_eq_true_2 by done. cbn [negb].
  unfold required_kwargs in Hk.
  repeat case_decide; try done; repeat (apply Forall_cons in Hk as [? Hk]).
  - item_ok kwargs "energy_src". item_ok kwargs "opt_step".
    leaf_ok 1%nat "num_atoms". leaf_ok 1%nat "energy". eauto.
  - exfalso. apply Hleaf. subst. rewrite !elem_of_cons. auto.
  - item_ok kwargs "energy_src". item_ok kwargs "opt_step".
    item_ok kwargs "series_id". item_ok kwargs "unit".
    match goal with
    | |- context [get_depends_rec 2 "gb_energy" ?a ?b ?kw ?pv0] =>
        destruct (get_depends_rec_ok_gb_energy 0 a b kw pv0) as [[o pv1] Ho];
          [ by repeat constructor | rewrite Ho; cbn [mbind result_bind] ]
    end.
    do 7 leaf_ok 1%nat "gamma_surface_info". eauto.
  - exfalso. apply Hleaf. subst. rewrite !elem_of_cons. auto.
  - eauto.
  - eauto.
Qed.

(** ** The list [get_depends] returns *)

Lemma vals_loop_defns iv (out : list obj) (pv : store) :
  defns (vals_loop iv out pv) = (λ o, set_vals iv (deref pv o)) <$> out.
Proof.
  unfold defns. rewrite vals_loop_fst, <- list_fmap_compose.
  apply list_fmap_ext. intros i [d|p] Hi; simpl; [done|].
  rewrite vals_loop_snd.
  assert (refers p out = true) as ->; [|done].
  apply refers_elem_of. by eapply list_elem_of_lookup_2.
Qed.

(** Definitions of different names never match. *)
Lemma dict_matches_name (d el : dict) n n' :
  d !! "name" = Some (PStr n) → el !! "name" = Some (PStr n') → n' ≠ n →
  dict_matches d el = false.
Proof.
  intros Hd Hel Hne. apply bool_decide_eq_false. intros HF.
  specialize (HF "name" (PStr n)). rewrite lookup_delete_ne in HF by done.
  specialize (HF Hd). unfold key_matches in HF. rewrite Hel in HF. simpl in HF.
  by apply String.eqb_eq in HF.
Qed.

Lemma finish_fresh iv (d : dict) (out : list obj) pv n :
  d !! "name" = Some (PStr n) →
  Forall (λ o, ∃ n', deref pv o !! "name" = Some (PStr n') ∧ n' ≠ n) out →
  finish iv d out pv = vals_loop iv (out ++ [Own d]) pv.
Proof.
  intros Hd Hout. unfold finish.
  assert (dict_from_list (deref pv <$> out) d = None) as ->; [|done].
  unfold dict_from_list. induction Hout as [|o out (n' & Ho & Hne) _ IH]; simpl; [done|].
  by rewrite (dict_matches_name d _ n n').
Qed.

Lemma base_defn_name inc_id name :
  (if inc_id : bool
   then <["id" := PStr name]> ({[ "type" := PStr "compute"; "name" := PStr name ]} : dict)
   else {[ "type" := PStr "compute"; "name" := PStr name ]}) !! "name" = Some (PStr name).
Proof. by destruct inc_id. Qed.

(** The call for [energy]: one definition, with [energy_src] and, unless it is
    [None], [opt_step]. *)
Lemma get_depends_rec_energy fuel inc_id iv (kwargs : dict) pv energy_src :
  kwargs !! "energy_src" = Some energy_src →
  ∃ d : dict,
    get_depends_rec (S fuel) "energy" inc_id iv kwargs pv = Ok ([Own (set_vals iv d)], pv) ∧
    d !! "name" = Some (PStr "energy") ∧
    d !! "energy_src" = Some energy_src ∧
    py_get d "opt_step" = py_get kwargs "opt_step".
Proof.
  intros Hk. rewrite get_depends_rec_S. unfold get_depends_body. pick_branch.
  unfold py_item. rewrite Hk. cbn [mbind result_bind].
  eexists. split; [reflexivity|].
  destruct (py_get kwargs "opt_step") eqn:E; destruct inc_id; cbn [is_none negb];
    unfold py_get; by simplify_map_eq.
Qed.

(** The call for a compute without parameters or prerequisites. *)
Lemma get_depends_rec_plain fuel name inc_id iv (kwargs : dict) pv :
  name ∈ ["num_atoms"; "gb_area"; "supercell_type"; "gb_thickness"; "gb_boundary_vac";
          "atoms_gb_dist_initial"; "atoms_gb_dist_final"] →
  ∃ d : dict,
    get_depends_rec (S fuel) name inc_id iv kwargs pv = Ok ([Own (set_vals iv d)], pv) ∧
    d !! "name" = Some (PStr name).
Proof.
  intros Hin. rewrite get_depends_rec_S. unfold get_depends_body.
  rewrite !elem_of_cons, elem_of_nil in Hin.
  repeat destruct Hin as [->|Hin]; try done; pick_branch;
    (eexists; split; [reflexivity | apply base_defn_name]).
Qed.

(** C1: resolving [gb_energy] with [energy_src], [opt_step], [series_id] and
    [unit] returns five definitions: [energy] with the same [energy_src] and
    [opt_step] (an [opt_step] of [None] is left out of it), [num_atoms], the
    module-level [gb_area] and [supercell_type], and last [gb_energy] with
    its four parameters; no definition appears twice. *)
Theorem gb_energy_depends inc_id inc_val (kwargs : dict) pv energy_src opt_step series_id unit :
  store_wf pv →
  kwargs !! "energy_src" = Some energy_src →
  kwargs !! "opt_step" = Some opt_step →
  kwargs !! "series_id" = Some series_id →
  kwargs !! "unit" = Some unit →
  ∃ r (e n g : dict),
    get_depends "gb_energy" inc_id inc_val kwargs pv = Ok r ∧
    r.1 = [Own e; Own n; Shared gb_area_var; Shared sup_type_var; Own g] ∧
    names (defns r) = PStr <$> ["energy"; "num_atoms"; "gb_area"; "supercell_type"; "gb_energy"] ∧
    NoDup (names (defns r)) ∧
    last (defns r) = Some g ∧
    e !! "energy_src" = Some energy_src ∧
    py_get e "opt_step" = opt_step ∧
    g !! "energy_src" = Some energy_src ∧
    g !! "opt_step" = Some opt_step ∧
    g !! "series_id" = Some series_id ∧
    g !! "unit" = Some unit.
Proof.
  intros Hwf H1 H2 H3 H4. unfold get_depends.
  rewrite get_depends_rec_S. unfold get_depends_body. pick_branch.
  unfold py_item. rewrite H1, H2, H3, H4. cbn [mbind result_bind].
  destruct (get_depends_rec_energy 1 inc_id inc_val
              {[ "energy_src" := energy_src; "opt_step" := opt_step ]} pv energy_src)
    as (e & -> & He1 & He2 & He3); [done|].
  cbn [mbind result_bind].
  destruct (get_depends_rec_plain 1 "num_atoms" inc_id inc_val ∅ pv)
    as (n & -> & Hn); [rewrite !elem_of_cons; auto|].
  cbn [mbind result_bind app].
  set (g := <["unit":=unit]> _).
  assert (Hg : g !! "name" = Some (PStr "gb_energy")).
  { subst g. rewrite !lookup_insert_ne by done. apply base_defn_name. }
  rewrite (finish_fresh _ _ _ _ "gb_energy" Hg); cycle 1.
  { repeat constructor; simpl; eexists;
      (split; [rewrite ?set_vals_lookup_ne by done; first [eassumption
               | by rewrite store_wf_lookup by done] | done]). }
  eexists _, _, _, _. split; [reflexivity|].
  assert (Hnames : names (defns (vals_loop inc_val
            ([Own (set_vals inc_val e); Own (set_vals inc_val n);
              Shared gb_area_var; Shared sup_type_var] ++ [Own g]) pv)) =
          PStr <$> ["energy"; "num_atoms"; "gb_area"; "supercell_type"; "gb_energy"]).
  { rewrite vals_loop_defns. unfold names, py_get. simpl.
    rewrite !set_vals_lookup_ne by done.
    rewrite !(store_wf_lookup pv) by done. by rewrite He1, Hn, Hg. }
  split; [reflexivity|]. split; [exact Hnames|]. split.
  { rewrite Hnames. apply NoDup_fmap_2; [by intros ?? [=] |].
    apply (bool_decide_unpack _). by vm_compute. }
  split. { rewrite vals_loop_defns. reflexivity. }
  unfold py_get.
  rewrite !set_vals_lookup_ne by done. subst g.
  split; [done|]. split; [unfold py_get in He3; rewrite He3; by simplify_map_eq|].
  by simplify_map_eq.
Qed.

Lemma gb_energy_depends_witness :
  ∃ r (e n g : dict),
    get_depends "gb_energy" true true
      {[ "energy_src" := PStr "final_energy"; "opt_step" := PNone;
         "series_id" := PList [PStr "gamma_surface"]; "unit" := PStr "J/m^2" ]}
      PREDEFINED_VARS = Ok r ∧
    r.1 = [Own e; Own n; Shared gb_area_var; Shared sup_type_var; Own g] ∧
    names (defns r) = PStr <$> ["energy"; "num_atoms"; "gb_area"; "supercell_type"; "gb_energy"] ∧
    NoDup (names (defns r)) ∧
    last (defns r) = Some g ∧
    e !! "energy_src" = Some (PStr "final_energy") ∧
    py_get e "opt_step" = PNone ∧
    g !! "energy_src" = Some (PStr "final_energy") ∧
    g !! "opt_step" = Some PNone ∧
    g !! "series_id" = Some (PList [PStr "gamma_surface"]) ∧
    g !! "unit" = Some (PStr "J/m^2").
Proof.
  apply gb_energy_depends; [apply PREDEFINED_VARS_wf | reflexivity..].
Defined.

(** C3: with [inc_val] true every definition of the returned list, the
    prerequisites included, has a [vals] key: the empty list when it had none
    (only the module-level definitions can have one already); with [inc_val]
    false none has a [vals] key. *)
Theorem get_depends_vals name inc_id inc_val kwargs pv out pv' :
  store_wf pv →
  get_depends name inc_id inc_val kwargs pv = Ok (out, pv') →
  ∀ o, o ∈ out →
    deref pv' o !! "vals" =
      if inc_val
      then Some (match o with
                 | Own _ => PList []
                 | Shared p => default (PList []) (pv p !! "vals")
                 end)
      else None.
Proof.
  intros Hwf H o Ho.
  destruct (get_depends_rec_effect _ _ _ _ _ _ _ _ Hwf H) as [Hown Hsh].
  destruct o as [d|p]; simpl.
  - by apply Hown.
  - rewrite Hsh. apply refers_elem_of in Ho as ->.
    destruct (Hwf p) as [_ Hc]. destruct inc_val.
    + by apply set_vals_true_lookup.
    + by apply set_vals_false_lookup.
Qed.

Lemma get_depends_vals_witness :
  ∃ out pv',
    get_depends "master_gamma" true false
      {[ "energy_src" := PStr "final_energy"; "opt_step" := PInt 0;
         "series_id" := PList []; "unit" := PStr "J/m^2" ]}
      PREDEFINED_VARS = Ok (out, pv') ∧
    length out = 35%nat ∧
    deref pv' (Shared gb_boundary_vac_var) !! "vals" = None.
Proof.
  pose proof (eq_refl :
    (if get_depends "master_gamma" true false
          {[ "energy_src" := PStr "final_energy"; "opt_step" := PInt 0;
             "series_id" := PList []; "unit" := PStr "J/m^2" ]}
          PREDEFINED_VARS is Ok r
     then (length r.1 =? 35)%nat && refers gb_boundary_vac_var r.1 else false) = true) as X.
  destruct (get_depends _ _ _ _ _) as [[out pv']|e] eqn:E; [|discriminate].
  apply andb_prop in X as [Hlen Hin].
  exists out, pv'. split; [reflexivity|]. split; [by apply Nat.eqb_eq|].
  apply refers_elem_of in Hin.
  exact (get_depends_vals _ _ false _ _ _ _ PREDEFINED_VARS_wf E _ Hin).
Defined.

(** C5: resolution of a name outside the registry raises the error for an
    unknown compute; for a registered name it never does. *)
Theorem get_depends_unknown_compute name inc_id inc_val kwargs pv :
  (name ∉ allowed_computes →
     get_depends name inc_id inc_val kwargs pv = Raise (ValueError (ComputeNotAllowed name))) ∧
  (name ∈ allowed_computes →
     ∀ n, get_depends name inc_id inc_val kwargs pv ≠ Raise (ValueError (ComputeNotAllowed n))).
Proof.
  split.
  - intros Hn. unfold get_depends. rewrite get_depends_rec_S. unfold get_depends_body.
    by rewrite bool_decide_eq_false_2.
  - intros Hin n. by apply get_depends_rec_no_value_error.
Qed.

Lemma get_depends_unknown_compute_witness :
  (("gb_energies" ∉ allowed_computes) ∧
   get_depends "gb_energies" true true ∅ PREDEFINED_VARS =
     Raise (ValueError (ComputeNotAllowed "gb_energies"))) ∧
  ("gb_energy" ∈ allowed_computes ∧
   (get_depends "gb_energy" true true ∅ PREDEFINED_VARS ≠
      Raise (ValueError (ComputeNotAllowed "gb_energy")))).
Proof.
  assert (H1 : "gb_energies" ∉ allowed_computes).
  { apply (bool_decide_unpack _). vm_compute. exact I. }
  assert (H2 : "gb_energy" ∈ allowed_computes).
  { apply (bool_decide_unpack _). vm_compute. exact I. }
  split; split; [exact H1 | | exact H2 | ].
  - exact (proj1 (get_depends_unknown_compute "gb_energies" true true ∅ PREDEFINED_VARS) H1).
  - exact (proj2 (get_depends_unknown_compute "gb_energy" true true ∅ PREDEFINED_VARS) H2 _).
Defined.

(** ** [energy] *)

Lemma allowed_en_srcs_allowed_for method energy_src :
  method = "castep" ∨ method = "lammps" →
  ∃ srcs, allowed_en_srcs method = Ok srcs ∧ (energy_src ∈ srcs ↔ allowed_for method energy_src).
Proof.
  unfold allowed_for. intros [-> | ->]; eexists; (split; [reflexivity|]).
  - split; [by left | by intros [[_ ?]|[? _]]].
  - rewrite list_elem_of_singleton. split; [by right | by intros [[? _]|[_ ?]]].
Qed.

(** C4: for the methods [castep] and [lammps], [energy] raises the error for
    an invalid energy source exactly when [energy_src] is not allowed for the
    method; for an allowed source with a stored value it returns that value
    when [opt_step] is [None], raises the error for a non-integer [opt_step]
    when [opt_step] is not an int, and subscripts the stored sequence with an
    int [opt_step]. *)
Theorem energy_spec out sim sim_idx energy_src opt_step :
  options_method sim = "castep" ∨ options_method sim = "lammps" →
  (energy out sim sim_idx energy_src opt_step =
     Raise (ValueError (EnergySourceNotAvailable energy_src (options_method sim)))
   ↔ ¬ allowed_for (options_method sim) energy_src) ∧
  (allowed_for (options_method sim) energy_src →
   ∀ stored, results sim !! energy_src = Some stored →
     (opt_step = PNone → energy out sim sim_idx energy_src opt_step = Ok stored) ∧
     (opt_step ≠ PNone → isinstance_int opt_step = false →
        energy out sim sim_idx energy_src opt_step = Raise (ValueError OptStepNotInteger)) ∧
     (∀ i steps, int_value opt_step = Some i → stored = PList steps →
        energy out sim sim_idx energy_src opt_step = list_item steps i)).
Proof.
  intros Hm.
  destruct (allowed_en_srcs_allowed_for _ energy_src Hm) as (srcs & Hs & Hiff).
  unfold energy. rewrite Hs. cbn [mbind result_bind]. split.
  - case_bool_decide as Hin; cbn [negb]; [|by rewrite <- Hiff].
    split; [|by rewrite <- Hiff].
    intros H. exfalso. unfold py_item in H. destruct (results sim !! energy_src); [|done].
    cbn [mbind result_bind] in H. destruct (is_none opt_step); [done|].
    destruct (isinstance_int opt_step); cbn [negb] in H; [|done].
    unfold py_index in H. destruct (int_value opt_step); [|done].
    destruct p; try done.
    + unfold list_item in H. repeat case_match; done.
    + unfold list_item in H. cbn in H. repeat case_match; done.
  - intros Ha stored Hst. apply Hiff in Ha.
    rewrite bool_decide_eq_true_2 by done. cbn [negb].
    unfold py_item. rewrite Hst. cbn [mbind result_bind].
    split; [by intros ->|]. split.
    + intros Hn ->. by destruct opt_step.
    + intros i steps Hi ->. unfold py_index. rewrite Hi.
      by destruct opt_step.
Qed.

Lemma energy_spec_witness :
  let sim := {| structure_meta_supercell_type := Some ["bulk"];
                options_base_structure_type := "";
                options_method := "lammps";
                results := {[ "final_energy" := PList [PFloat (-500); PFloat (-510)] ]} |} in
  let out := {| variables := []; series_name := []; series_id_val := [];
                session_id := []; session_id_idx := [] |} in
  energy out sim 0 "final_fenergy" PNone =
    Raise (ValueError (EnergySourceNotAvailable "final_fenergy" "lammps")) ∧
  energy out sim 0 "final_energy" PNone = Ok (PList [PFloat (-500); PFloat (-510)]) ∧
  energy out sim 0 "final_energy" (PStr "0") = Raise (ValueError OptStepNotInteger) ∧
  energy out sim 0 "final_energy" (PInt (-1)) = Ok (PFloat (-510)).
Proof.
  intros sim out.
  assert (Hm : options_method sim = "castep" ∨ options_method sim = "lammps") by (by right).
  assert (Ha : allowed_for (options_method sim) "final_energy") by (right; done).
  assert (Hn : ¬ allowed_for (options_method sim) "final_fenergy").
  { intros [[? _]|[_ ?]]; discriminate. }
  assert (Hst : results sim !! "final_energy" = Some (PList [PFloat (-500); PFloat (-510)]))
    by reflexivity.
  split; [exact (proj2 (proj1 (energy_spec out sim 0 "final_fenergy" PNone Hm)) Hn)|].
  split; [exact (proj1 (proj2 (energy_spec out sim 0 "final_energy" PNone Hm) Ha _ Hst) eq_refl)|].
  split.
  - refine (proj1 (proj2 (proj2 (energy_spec out sim 0 "final_energy" (PStr "0") Hm) Ha _ Hst))
              _ eq_refl). discriminate.
  - exact (proj2 (proj2 (proj2 (energy_spec out sim 0 "final_energy" (PInt (-1)) Hm) Ha _ Hst))
             (-1)%Z _ eq_refl eq_refl).
Defined.

(** ** [atoms_gb_dist_change] *)

(** [is_bicrystal(sim)] is true for a structure whose [meta] lists
    [bicrystal] among the supercell types, and for a structure without [meta]
    whose base structure is a [CSLBicrystal]. *)
Lemma is_bicrystal_truthy sim :
  truthy (is_bicrystal sim) = true ↔
  (∃ supercell_type, structure_meta_supercell_type sim = Some supercell_type ∧
                     "bicrystal" ∈ supercell_type) ∨
  (structure_meta_supercell_type sim = None ∧
   options_base_structure_type sim = "CSLBicrystal").
Proof.
  unfold is_bicrystal. destruct (structure_meta_supercell_type sim) as [st|].
  - case_bool_decide; simpl; split; try done.
    + intros _. left. eauto.
    + intros [(st' & [= <-] & Hin) | [[=] _]]. done.
  - case_decide; simpl; split; try done.
    + intros _. by right.
    + intros [(st' & [=] & _) | [_ Heq]]. done.
Qed.

(** The loop for [inc_val] false leaves a module-level dict as it was when the
    module was loaded. *)
Lemma set_vals_false_wf pv p : store_wf pv → set_vals false (pv p) = PREDEFINED_VARS p.
Proof.
  intros Hwf. destruct (Hwf p) as [<- Hc]. apply map_eq. intros k.
  destruct (decide (k = "vals")) as [->|Hk].
  - by rewrite set_vals_false_lookup, lookup_delete_eq.
  - by rewrite set_vals_lookup_ne, lookup_delete_ne.
Qed.

(** The definitions [atoms_gb_dist_change] re-resolves: the three module-level
    ones, their [vals] removed, then its own. *)
Lemma get_depends_atoms_gb_dist_change pv req pv' :
  store_wf pv →
  get_depends "atoms_gb_dist_change" false false ∅ pv = Ok (req, pv') →
  (∃ d, req = [Shared gb_dist_initial_var; Shared gb_dist_final_var; Shared sup_type_var; Own d]) ∧
  pv' gb_dist_initial_var = PREDEFINED_VARS gb_dist_initial_var ∧
  pv' gb_dist_final_var = PREDEFINED_VARS gb_dist_final_var ∧
  pv' sup_type_var = PREDEFINED_VARS sup_type_var.
Proof.
  intros Hwf H.
  assert (Heq : ∃ d, get_depends "atoms_gb_dist_change" false false ∅ pv =
            Ok (finish false d ([Shared gb_dist_initial_var; Shared gb_dist_final_var;
                                 Shared sup_type_var] ++ []) pv) ∧
            d !! "name" = Some (PStr "atoms_gb_dist_change")) .
  { exists {[ "type" := PStr "compute"; "name" := PStr "atoms_gb_dist_change" ]}.
    split; [|done].
    unfold get_depends. rewrite get_depends_rec_S. unfold get_depends_body.
    pick_branch. reflexivity. }
  destruct Heq as (d & Heq & Hd). rewrite Heq in H. clear Heq. cbn [app] in H.
  erewrite (finish_fresh _ _ _ _ "atoms_gb_dist_change") in H; [|done|]; cycle 1.
  { repeat constructor; simpl; eexists; (split; [by rewrite store_wf_lookup by done | done]). }
  cbn [vals_loop app] in H.
  injection H as <- <-.
  split; [eauto|]. unfold store_update.
  repeat (case_decide; try congruence). by rewrite !set_vals_false_wf.
Qed.

Lemma seq_dtype_floats x (xs : list Q) : seq_dtype (PFloat <$> x :: xs) = Some DFloat.
Proof.
  revert x. induction xs as [|y xs IH]; intros x; [done|].
  change (seq_dtype (PFloat <$> x :: y :: xs))
    with (t ← dtype_of (PFloat x); u ← seq_dtype (PFloat <$> y :: xs); Some (dtype_max t u)).
  by rewrite IH.
Qed.

Lemma mapM_as_num_floats (xs : list Q) :
  mapM (λ x, if as_num x is Some q then Ok q else Raise TypeError) (PFloat <$> xs) = Ok xs.
Proof. induction xs as [|x xs IH]; [done|]. cbn. by rewrite IH. Qed.

(** A flat sequence of floats is a one-dimensional float array. *)
Lemma np_array_floats (xs : list Q) : np_array (PList (PFloat <$> xs)) = Ok (Nd1 DFloat xs).
Proof.
  destruct xs as [|x xs]; [done|]. unfold np_array.
  rewrite seq_dtype_floats, mapM_as_num_floats. done.
Qed.




(** ** [gb_energy] *)

Lemma py_eqb_str t s : py_eqb t (PStr s) = true ↔ t = PStr s.
Proof.
  destruct t as [|b|z|q|s'|l]; simpl; try (split; discriminate).
  rewrite String.eqb_eq. split; congruence.
Qed.

(** The loop over the bulk simulations ends with the value for the last
    matching one. *)
Lemma bulk_loop_last a gb_i bulk_idx E0 E :
  bulk_loop a gb_i bulk_idx E0 = Ok E →
  match last_match a gb_i bulk_idx with
  | Some b => gb_formula a gb_i b = Ok E
  | None => E = E0
  end.
Proof.
  revert E0. induction bulk_idx as [|b bulk_idx IH]; intros E0 H; simpl in *.
  - by injection H.
  - bind_ok H. bind_ok H. apply IH in H.
    destruct (last_match a gb_i bulk_idx); [done|].
    unfold is_match. rewrite Ha. subst. by destruct a0; [|injection Ha0].
Qed.

Lemma last_match_None a gb_i bulk_idx :
  (∀ b, b ∈ bulk_idx → is_match a gb_i b = false) →
  last_match a gb_i bulk_idx = None.
Proof.
  induction bulk_idx as [|b bulk_idx IH]; intros H; simpl; [done|].
  rewrite IH, H; [done | apply list_elem_of_here |].
  intros b' Hb'. apply H. by apply list_elem_of_further.
Qed.

Lemma last_match_Some a gb_i bulk_idx b :
  StronglySorted Z.lt bulk_idx →
  b ∈ bulk_idx → is_match a gb_i b = true →
  (∀ j, j ∈ bulk_idx → (b < j)%Z → is_match a gb_i j = false) →
  last_match a gb_i bulk_idx = Some b.
Proof.
  induction 1 as [|x l Hs IH Hx]; intros Hin Hb Hlast; simpl.
  - by apply elem_of_nil in Hin.
  - apply elem_of_cons in Hin as [->|Hin].
    + rewrite last_match_None, Hb; [done|].
      intros j Hj. apply Hlast; [by apply list_elem_of_further|].
      rewrite Forall_forall in Hx. by apply Hx.
    + rewrite IH; [done..|]. intros j Hj. apply Hlast. by apply list_elem_of_further.
Qed.

(** [partition_idx] lists the indices by supercell type, in ascending
    order. *)
Lemma partition_idx_elem i0 sup_type :
  (∀ i, i ∈ (partition_idx i0 sup_type).1 ↔
     ∃ k : nat, i = (i0 + Z.of_nat k)%Z ∧ sup_type !! k = Some (PStr "bicrystal")) ∧
  (∀ i, i ∈ (partition_idx i0 sup_type).2 ↔
     ∃ k : nat, i = (i0 + Z.of_nat k)%Z ∧ sup_type !! k = Some (PStr "bulk")).
Proof.
  revert i0. induction sup_type as [|t sup_type IH]; intros i0; simpl.
  - split; intros i; rewrite elem_of_nil; naive_solver.
  - specialize (IH (i0 + 1)%Z). destruct (partition_idx (i0 + 1) sup_type) as [gb bulk].
    destruct IH as [IH1 IH2]. simpl in *.
    assert (Hshift : ∀ (i : Z) (s : string),
      (∃ k : nat, i = (i0 + Z.of_nat k)%Z ∧ (t :: sup_type) !! k = Some (PStr s)) ↔
      (i = i0 ∧ t = PStr s) ∨ (∃ k : nat, i = (i0 + 1 + Z.of_nat k)%Z ∧ sup_type !! k = Some (PStr s))).
    { intros i s. split.
      - intros ([|k] & -> & Hk); simpl in Hk.
        + left. split; [lia | congruence].
        + right. exists k. split; [lia | done].
      - intros [[-> ->] | (k & -> & Hk)].
        + exists 0%nat. split; [lia | done].
        + exists (S k). split; [lia | done]. }
    destruct (py_eqb t (PStr "bicrystal")) eqn:E1; [|destruct (py_eqb t (PStr "bulk")) eqn:E2].
    + apply py_eqb_str in E1 as ->. split; intros i; rewrite Hshift; simpl.
      * rewrite elem_of_cons, IH1. naive_solver.
      * rewrite IH2. naive_solver.
    + apply py_eqb_str in E2 as ->. split; intros i; rewrite Hshift; simpl.
      * rewrite IH1. naive_solver.
      * rewrite elem_of_cons, IH2. naive_solver.
    + assert (t ≠ PStr "bicrystal") by (intros ->; discriminate).
      assert (t ≠ PStr "bulk") by (intros ->; discriminate).
      split; intros i; rewrite Hshift; simpl; [rewrite IH1 | rewrite IH2]; naive_solver.
Qed.

Lemma partition_idx_sorted i0 sup_type :
  StronglySorted Z.lt (partition_idx i0 sup_type).1 ∧
  StronglySorted Z.lt (partition_idx i0 sup_type).2.
Proof.
  revert i0. induction sup_type as [|t sup_type IH]; intros i0; simpl.
  - split; constructor.
  - pose proof (partition_idx_elem (i0 + 1) sup_type) as [H1 H2].
    specialize (IH (i0 + 1)%Z). destruct (partition_idx (i0 + 1) sup_type) as [gb bulk].
    destruct IH as [IH1 IH2]. simpl in *.
    destruct (py_eqb t (PStr "bicrystal")); [|destruct (py_eqb t (PStr "bulk"))];
      simpl; (split; [try done | try done]);
      (constructor; [done|]); apply Forall_forall; intros j Hj.
    + apply H1 in Hj as (k & -> & _). lia.
    + apply H2 in Hj as (k & -> & _). lia.
Qed.

Lemma py_truediv_float x y E : py_truediv x y = Ok E → ∃ q, E = PFloat q.
Proof. unfold py_truediv. repeat case_match; intros [= <-]; eauto. Qed.

Lemma gb_formula_float a gb_i b E : gb_formula a gb_i b = Ok E → ∃ q, E = PFloat q.
Proof. unfold gb_formula. intros H. repeat bind_ok H. by eapply py_truediv_float. Qed.

Lemma list_assign_ok {A} (l l' : list A) i x :
  list_assign l i x = Ok l' → (0 ≤ i)%Z →
  l' = <[Z.to_nat i := x]> l ∧ (Z.to_nat i < length l)%nat.
Proof.
  unfold list_assign. intros H Hi.
  destruct (i <? 0)%Z eqn:E1; [lia|].
  destruct ((i <? 0) || (Z.of_nat (length l) <=? i))%Z eqn:E2; [done|].
  injection H as <-. split; [done | lia].
Qed.

(** The loop over the bicrystals writes, for each one with a matching bulk, the
    converted value for the last match, and nothing else. *)
Lemma gb_loop_spec a bulk_idx gb_idx : ∀ acc vals,
  gb_loop a gb_idx bulk_idx acc = Ok vals →
  StronglySorted Z.lt gb_idx → Forall (Z.le 0) gb_idx →
  length vals = length acc ∧
  (∀ i : nat, Z.of_nat i ∉ gb_idx → vals !! i = acc !! i) ∧
  (∀ gb_i, gb_i ∈ gb_idx →
     match last_match a gb_i bulk_idx with
     | Some b => ∃ E E', gb_formula a gb_i b = Ok E ∧ scaled a E = Ok E' ∧
                         vals !! Z.to_nat gb_i = Some E'
     | None => vals !! Z.to_nat gb_i = acc !! Z.to_nat gb_i
     end).
Proof.
  induction gb_idx as [|gb_i gb_idx IH]; intros acc vals H Hsort Hpos; simpl in H.
  - injection H as <-. split; [done|]. split; [done|]. intros ? Hin. by apply elem_of_nil in Hin.
  - apply StronglySorted_inv in Hsort as [Hsort Hlt].
    apply Forall_cons in Hpos as [Hpos0 Hpos].
    bind_ok H. rename a0 into E_gb. bind_ok H. rename a0 into acc1.
    destruct (IH _ _ H Hsort Hpos) as (Hlen & Hout & Hin). clear IH H.
    apply bulk_loop_last in Ha.
    assert (Hfresh : Z.of_nat (Z.to_nat gb_i) ∉ gb_idx).
    { rewrite Z2Nat.id by done. intros Hin'. rewrite Forall_forall in Hlt.
      specialize (Hlt _ Hin'). lia. }
    assert (Hacc1 :
      match last_match a gb_i bulk_idx with
      | Some b => ∃ E E', gb_formula a gb_i b = Ok E ∧ scaled a E = Ok E' ∧
                          acc1 = <[Z.to_nat gb_i := E']> acc ∧
                          (Z.to_nat gb_i < length acc)%nat
      | None => acc1 = acc
      end).
    { destruct (last_match a gb_i bulk_idx) as [b|].
      - destruct (gb_formula_float _ _ _ _ Ha) as [q ->]. cbn [is_none negb] in Ha0.
        bind_ok Ha0. apply list_assign_ok in Ha0 as [-> ?]; [|done]. eauto 10.
      - subst E_gb. cbn [is_none negb] in Ha0. by injection Ha0. }
    clear Ha Ha0. split; [|split].
    + rewrite Hlen. destruct (last_match a gb_i bulk_idx); [|by subst].
      destruct Hacc1 as (? & ? & _ & _ & -> & _). by rewrite length_insert.
    + intros i Hi. apply not_elem_of_cons in Hi as [Hne Hi]. rewrite (Hout i Hi).
      destruct (last_match a gb_i bulk_idx); [|by subst].
      destruct Hacc1 as (? & ? & _ & _ & -> & _). apply list_lookup_insert_ne. lia.
    + intros g Hg. apply elem_of_cons in Hg as [->|Hg].
      * rewrite (Hout _ Hfresh). destruct (last_match a gb_i bulk_idx); [|by subst].
        destruct Hacc1 as (E & E' & HE & HE' & -> & Hb). exists E, E'.
        by rewrite list_lookup_insert_eq.
      * specialize (Hin g Hg). destruct (last_match a g bulk_idx); [done|].
        rewrite Hin. destruct (last_match a gb_i bulk_idx); [|by subst].
        destruct Hacc1 as (? & ? & _ & _ & -> & _). apply list_lookup_insert_ne.
        rewrite Forall_forall in Hlt, Hpos. specialize (Hlt _ Hg). specialize (Hpos _ Hg). lia.
Qed.

(** What the loops of [gb_energy] leave at the index of a bicrystal. *)
Lemma gb_energy_at out req_vars pv a vals (gb_i : nat) :
  gb_energy_inputs out req_vars pv = Ok a →
  gb_energy out req_vars pv = Ok vals →
  gi_sup_type a !! gb_i = Some (PStr "bicrystal") →
  ∃ bulk_idx,
    StronglySorted Z.lt bulk_idx ∧
    (∀ i, i ∈ bulk_idx ↔ ∃ k : nat, i = Z.of_nat k ∧ gi_sup_type a !! k = Some (PStr "bulk")) ∧
    match last_match a (Z.of_nat gb_i) bulk_idx with
    | Some b => ∃ E E', gb_formula a (Z.of_nat gb_i) b = Ok E ∧ scaled a E = Ok E' ∧
                        vals !! gb_i = Some E'
    | None => vals !! gb_i = replicate (gi_num_sims a) PNone !! gb_i
    end.
Proof.
  intros Ha H Hgb. unfold gb_energy in H. rewrite Ha in H. cbn [mbind result_bind] in H.
  pose proof (partition_idx_elem 0 (gi_sup_type a)) as [Hel1 Hel2].
  pose proof (partition_idx_sorted 0 (gi_sup_type a)) as [Hs1 Hs2].
  destruct (partition_idx 0 (gi_sup_type a)) as [gb_idx bulk_idx]. simpl in *.
  exists bulk_idx. split; [done|]. split; [done|].
  apply gb_loop_spec in H as (_ & _ & H); [|done|].
  - specialize (H (Z.of_nat gb_i)). rewrite Nat2Z.id in H. apply H, Hel1. eauto.
  - apply Forall_forall. intros i Hi. apply Hel1 in Hi as (k & -> & _). lia.
Qed.

(** C7: a bicrystal for which no bulk simulation has an equal tuple of series
    values gets [None] in the list [gb_energy] assigns. *)
Theorem gb_energy_unmatched out req_vars pv a vals (gb_i : nat) :
  gb_energy_inputs out req_vars pv = Ok a →
  gb_energy out req_vars pv = Ok vals →
  length (gi_sup_type a) = gi_num_sims a →
  gi_sup_type a !! gb_i = Some (PStr "bicrystal") →
  (∀ bulk_i : nat, gi_sup_type a !! bulk_i = Some (PStr "bulk") →
     same_series a (Z.of_nat gb_i) (Z.of_nat bulk_i) ≠ Ok true) →
  vals !! gb_i = Some PNone.
Proof.
  intros Ha H Hlen Hgb Hno.
  destruct (gb_energy_at _ _ _ _ _ _ Ha H Hgb) as (bulk_idx & _ & Hel & Hv).
  rewrite last_match_None in Hv.
  - rewrite Hv. apply lookup_replicate_2. apply lookup_lt_Some in Hgb. lia.
  - intros b Hb. apply Hel in Hb as (k & -> & Hk). specialize (Hno k Hk).
    unfold is_match. by repeat case_match.
Qed.

(** C2, as the code has it: a bicrystal with a matching bulk simulation gets
    [(E_gb - (N_gb / N_bulk) * E_bulk) / (2 * A_gb)] computed against the last
    bulk simulation whose tuple of series values equals its own, times
    16.02176565 exactly when the unit is [J/m^2]. *)
Theorem gb_energy_last_match out req_vars pv a vals (gb_i bulk_i : nat)
    (N_gb N_bulk : Z) (E_gb E_bulk A_gb : Q) :
  gb_energy_inputs out req_vars pv = Ok a →
  gb_energy out req_vars pv = Ok vals →
  gi_sup_type a !! gb_i = Some (PStr "bicrystal") →
  gi_sup_type a !! bulk_i = Some (PStr "bulk") →
  same_series a (Z.of_nat gb_i) (Z.of_nat bulk_i) = Ok true →
  (∀ j : nat, (bulk_i < j)%nat → gi_sup_type a !! j = Some (PStr "bulk") →
     same_series a (Z.of_nat gb_i) (Z.of_nat j) ≠ Ok true) →
  py_index (gi_num_atoms a) (PInt (Z.of_nat gb_i)) = Ok (PInt N_gb) →
  py_index (gi_num_atoms a) (PInt (Z.of_nat bulk_i)) = Ok (PInt N_bulk) →
  py_index (gi_energy a) (PInt (Z.of_nat gb_i)) = Ok (PFloat E_gb) →
  py_index (gi_energy a) (PInt (Z.of_nat bulk_i)) = Ok (PFloat E_bulk) →
  py_index (gi_area a) (PInt (Z.of_nat gb_i)) = Ok (PFloat A_gb) →
  let E := ((E_gb - (inject_Z N_gb / inject_Z N_bulk) * E_bulk) / (2 * A_gb))%Q in
  vals !! gb_i =
    Some (PFloat (if py_eqb (gi_unit a) (PStr "J/m^2") then E * J_per_m2 else E)%Q).
Proof.
  intros Ha H Hgb Hbulk Hsame Hlast Hn1 Hn2 He1 He2 Har E.
  destruct (gb_energy_at _ _ _ _ _ _ Ha H Hgb) as (bulk_idx & Hsort & Hel & Hv).
  rewrite (last_match_Some _ _ _ (Z.of_nat bulk_i)) in Hv; [|done|..].
  - destruct Hv as (F & F' & HF & HF' & ->). f_equal.
    unfold gb_formula in HF. rewrite Hn1, Hn2, He1, He2, Har in HF. cbn in HF.
    destruct (Qeq_bool (inject_Z N_bulk) 0); [done|]. cbn in HF.
    destruct (Qeq_bool _ 0); [done|]. injection HF as <-.
    unfold scaled in HF'. destruct (py_eqb _ _); cbn in HF'; by injection HF' as <-.
  - apply Hel. eauto.
  - unfold is_match. by rewrite Hsame.
  - intros j Hj Hlt. apply Hel in Hj as (k & -> & Hk).
    assert (bulk_i < k)%nat as Hlt' by lia. specialize (Hlast k Hlt' Hk).
    unfold is_match. by repeat case_match.
Qed.

Lemma gb_energy_unmatched_witness :
  gb_energy (example_out 1 2) (example_pair "J/m^2") PREDEFINED_VARS = Ok [PNone; PNone] ∧
  [PNone; PNone] !! 1%nat = Some PNone.
Proof.
  split; [reflexivity|].
  refine (gb_energy_unmatched (example_out 1 2) (example_pair "J/m^2") PREDEFINED_VARS
            _ _ 1 eq_refl eq_refl eq_refl eq_refl _).
  intros [|[|bulk_i]] Hb; [discriminate | discriminate | discriminate].
Defined.

Lemma gb_energy_last_match_witness :
  let E := ((-510 - (inject_Z 100 / inject_Z 100) * -500) / (2 * 50))%Q in
  (∃ vals, gb_energy (example_out 1 1) (example_pair "eV/A^2") PREDEFINED_VARS = Ok vals ∧
           vals !! 1%nat = Some (PFloat E)) ∧
  (∃ vals, gb_energy (example_out 1 1) (example_pair "J/m^2") PREDEFINED_VARS = Ok vals ∧
           vals !! 1%nat = Some (PFloat (E * J_per_m2))) ∧
  (E == -1 # 10)%Q.
Proof.
  intros E.
  assert (Hlast : ∀ unit (j : nat), (0 < j)%nat →
    [PStr "bulk"; PStr "bicrystal"] !! j = Some (PStr "bulk") →
    same_series
      {| gi_energy := PList [PFloat (-500); PFloat (-510)];
         gi_num_atoms := PList [PInt 100; PInt 100];
         gi_area := PList [PNone; PFloat 50];
         gi_sup_type := [PStr "bulk"; PStr "bicrystal"];
         gi_unit := PStr unit; gi_num_sims := 2;
         gi_srs_vals := [[PInt 1]; [PInt 1]] |} 1 (Z.of_nat j) ≠ Ok true).
  { intros unit [|[|j]] Hj Hb; [lia | discriminate | discriminate]. }
  split; [|split; [|reflexivity]].
  - eexists. split; [reflexivity|].
    exact (gb_energy_last_match (example_out 1 1) (example_pair "eV/A^2") PREDEFINED_VARS
             _ _ 1 0 100 100 (-510) (-500) 50
             eq_refl eq_refl eq_refl eq_refl eq_refl (Hlast "eV/A^2")
             eq_refl eq_refl eq_refl eq_refl eq_refl).
  - eexists. split; [reflexivity|].
    exact (gb_energy_last_match (example_out 1 1) (example_pair "J/m^2") PREDEFINED_VARS
             _ _ 1 0 100 100 (-510) (-500) 50
             eq_refl eq_refl eq_refl eq_refl eq_refl (Hlast "J/m^2")
             eq_refl eq_refl eq_refl eq_refl eq_refl).
Defined.

(** The claim of C2 as stated fails: with the bulk simulations 0 and 1 of
    equal series values and energies -500 and -400, bulk 0 is the first match
    of bicrystal 2, and [gb_energy] assigns the value computed against
    bulk 1. *)
Lemma gb_energy_first_match_counterexample :
  let a :=
    {| gi_energy := PList [PFloat (-500); PFloat (-400); PFloat (-510)];
       gi_num_atoms := PList [PInt 100; PInt 100; PInt 100];
       gi_area := PList [PNone; PNone; PFloat 50];
       gi_sup_type := [PStr "bulk"; PStr "bulk"; PStr "bicrystal"];
       gi_unit := PStr "eV/A^2";
       gi_num_sims := 3;
       gi_srs_vals := [[PInt 0]; [PInt 0]; [PInt 0]] |} in
  let E (E_bulk : Q) := ((-510 - (inject_Z 100 / inject_Z 100) * E_bulk) / (2 * 50))%Q in
  gb_energy_inputs example_out3 example_triple PREDEFINED_VARS = Ok a ∧
  same_series a 2 0 = Ok true ∧
  gb_formula a 2 0 = Ok (PFloat (E (-500))) ∧
  gb_energy example_out3 example_triple PREDEFINED_VARS =
    Ok [PNone; PNone; PFloat (E (-400))] ∧
  ¬ (E (-400) == E (-500))%Q.
Proof.
  intros a E. do 4 (split; [vm_compute; reflexivity|]). by vm_compute.
Qed.

(** ** Geometry *)

Section Corners.
#[local] Open Scope Q_scope.

Lemma mapO_Some {A B} (f : A → option B) (l : list A) (l' : list B) :
  mapO f l = Some l' →
  length l' = length l ∧
  ∀ n x, l !! n = Some x → ∃ y, l' !! n = Some y ∧ f x = Some y.
Proof.
  revert l'. induction l as [|a l IH]; intros l' H; simpl in H.
  - injection H as <-. split; [done|]. intros n x Hn. by rewrite lookup_nil in Hn.
  - destruct (f a) as [y|] eqn:Ey; [|discriminate]. simpl in H.
    destruct (mapO f l) as [ys|] eqn:Eys; [|discriminate]. simpl in H.
    injection H as <-. destruct (IH ys eq_refl) as [Hlen Hn].
    split; [simpl; by rewrite Hlen|].
    intros [|n] x Hx; simpl in *; [injection Hx as <-; eauto | by apply Hn].
Qed.

Lemma mapO_is_Some {A B} (f : A → option B) (l : list A) :
  Forall (λ x, is_Some (f x)) l → is_Some (mapO f l).
Proof.
  induction 1 as [|x l [y Hy] _ [ys Hys]]; simpl; [by eexists|].
  rewrite Hy. simpl. rewrite Hys. by eexists.
Qed.

Lemma shift_each_Some t (corners : list (list vec3)) (os : list vec3) r :
  shift_each t corners os = Some r →
  length corners = length os →
  length r = length corners ∧
  ∀ n cs o, corners !! n = Some cs → os !! n = Some o →
    ∃ cs', r !! n = Some cs' ∧ shift t cs o = Some cs'.
Proof.
  revert os r. induction corners as [|cs corners IH]; intros [|o os] r H Hlen;
    simpl in *; try discriminate.
  - injection H as <-. split; [done|]. intros n ?? Hn. by rewrite lookup_nil in Hn.
  - destruct (shift t cs o) as [cs'|] eqn:E; [|discriminate]. simpl in H.
    destruct (shift_each t corners os) as [rest|] eqn:Er; [|discriminate]. simpl in H.
    injection H as <-. injection Hlen as Hlen.
    destruct (IH os rest Er Hlen) as [Hl Hn]. split; [simpl; by rewrite Hl|].
    intros [|n] cs0 o0 H1 H2; simpl in *.
    + injection H1 as <-. injection H2 as <-. eauto.
    + by apply Hn.
Qed.

Lemma shift_each_is_Some t (corners : list (list vec3)) (os : list vec3) :
  (∀ cs o, cs ∈ corners → o ∈ os → is_Some (shift t cs o)) →
  is_Some (shift_each t corners os).
Proof.
  revert os. induction corners as [|cs corners IH]; intros [|o os] H; simpl;
    try by eexists.
  destruct (H cs o) as [cs' ->]; [apply list_elem_of_here..|]. simpl.
  destruct (IH os) as [rest ->]; [|by eexists].
  intros ?? H1 H2. apply H; by apply list_elem_of_further.
Qed.

(** Adding to zero gives the number back, for a number of the type. *)
Lemma wrap64_small z : (- 2 ^ 63 ≤ z < 2 ^ 63)%Z → wrap64 z = z.
Proof. intros Hz. unfold wrap64. rewrite Z.mod_small by lia. lia. Qed.

Lemma round64_comp x y : x == y → round64 x = round64 y.
Proof. intros H. unfold round64. by rewrite (Qred_complete x y H). Qed.

Lemma add_zero_l t x c : valid t x = true → add t 0 x = Some c → c == x.
Proof.
  destruct t; simpl.
  - unfold is_int64. intros H [= <-].
    apply andb_prop in H as [H H3]. apply andb_prop in H as [H1 H2].
    apply Qeq_bool_eq in H1. apply Z.leb_le in H2. apply Z.ltb_lt in H3.
    change (Qfloor 0) with 0%Z. rewrite Z.add_0_l, wrap64_small by lia. exact H1.
  - unfold representable. intros H Hc.
    rewrite (round64_comp (0 + x) x) in Hc by ring. rewrite Hc in H.
    by apply Qeq_bool_eq in H.
Qed.

Lemma valid_zero t : valid t 0 = true.
Proof. by destruct t; vm_compute. Qed.

Lemma vadd_zero_l t o c : vall (valid t) o = true → vadd t vzero o = Some c → veq c o.
Proof.
  destruct o as [[o0 o1] o2]. unfold vadd, vzero, vall. simpl. intros H Hc.
  apply andb_prop in H as [H H2]. apply andb_prop in H as [H0 H1].
  destruct (add t 0 o0) as [x|] eqn:Ex; [|discriminate]. simpl in Hc.
  destruct (add t 0 o1) as [y|] eqn:Ey; [|discriminate]. simpl in Hc.
  destruct (add t 0 o2) as [z|] eqn:Ez; [|discriminate]. simpl in Hc.
  injection Hc as <-. simpl. repeat split; eapply add_zero_l; eassumption.
Qed.

End Corners.

Section CornersSpec.
#[local] Open Scope Q_scope.

Lemma vadd_int64_is_Some a b : is_Some (vadd int64 a b).
Proof. destruct a as [[a0 a1] a2], b as [[b0 b1] b2]. by eexists. Qed.

Lemma box_corners_int64_is_Some b : is_Some (box_corners int64 b).
Proof.
  unfold box_corners.
  destruct (vadd_int64_is_Some (col0 b) (col1 b)) as [s01 ->].
  destruct (vadd_int64_is_Some (col0 b) (col2 b)) as [s02 ->].
  destruct (vadd_int64_is_Some (col1 b) (col2 b)) as [s12 ->]. simpl.
  destruct (vadd_int64_is_Some s01 (col2 b)) as [s012 ->]. by eexists.
Qed.

Lemma shift_int64_is_Some cs o : is_Some (shift int64 cs o).
Proof.
  apply mapO_is_Some, Forall_forall. intros c _. apply vadd_int64_is_Some.
Qed.

Lemma box_corners_Some t b cs :
  box_corners t b = Some cs →
  ∃ s01 s02 s12 s012,
    cs = [vzero; col0 b; col1 b; col2 b; s01; s02; s12; s012] ∧
    vadd t (col0 b) (col1 b) = Some s01 ∧
    vadd t (col0 b) (col2 b) = Some s02 ∧
    vadd t (col1 b) (col2 b) = Some s12 ∧
    vadd t s01 (col2 b) = Some s012.
Proof.
  unfold box_corners. intros H.
  destruct (vadd t (col0 b) (col1 b)) as [s01|]; [|discriminate].
  cbn [mbind option_bind] in H.
  destruct (vadd t (col0 b) (col2 b)) as [s02|]; [|discriminate].
  cbn [mbind option_bind] in H.
  destruct (vadd t (col1 b) (col2 b)) as [s12|]; [|discriminate].
  cbn [mbind option_bind] in H.
  destruct (vadd t s01 (col2 b)) as [s012|] eqn:E; [|discriminate].
  cbn [mbind option_bind] in H.
  injection H as <-. exists s01, s02, s12, s012. repeat split. exact E.
Qed.

(** The corners of one parallelepiped, shifted by its origin. *)
Lemma shift_corners t b o cs cs' :
  box_corners t b = Some cs → shift t cs o = Some cs' →
  corners_of t b o cs' ∧
  (vall (valid t) o = true → ∃ c0, head cs' = Some c0 ∧ veq c0 o).
Proof.
  intros Hcs Hs.
  destruct (box_corners_Some _ _ _ Hcs) as (s01 & s02 & s12 & s012 & -> & H1 & H2 & H3 & H4).
  unfold shift in Hs. cbn [mapO] in Hs.
  repeat match type of Hs with
  | context [vadd t ?a o] =>
      let c := fresh "c" in
      let E := fresh "E" in
      destruct (vadd t a o) as [c|] eqn:E; [cbn [mbind option_bind] in Hs | discriminate Hs]
  end.
  injection Hs as <-. split.
  - do 12 eexists. split; [reflexivity|]. repeat split; eassumption.
  - intros Hv. eexists. split; [reflexivity|]. by eapply vadd_zero_l.
Qed.

Lemma vmapO_cast_same t o : vmapO (cast t t) o = Some o.
Proof. by destruct o as [[o0 o1] o2], t. Qed.

Lemma mapO_cast_same t os : mapO (vmapO (cast t t)) os = Some os.
Proof.
  induction os as [|o os IH]; [done|]. cbn [mapO]. by rewrite vmapO_cast_same, IH.
Qed.

(** With one origin per parallelepiped the call comes to the corners, each
    shifted by its own origin, unless the origin is a float array and [box]
    is not. *)
Lemma get_box_corners_Origin2 box t_origin os :
  length os = length (boxes box) →
  valid_box box = true →
  forallb (vall (valid t_origin)) os = true →
  get_box_corners box (Some (Origin2 t_origin os)) =
    if can_cast t_origin (box_dtype box)
    then of_option (shifted_corners (box_dtype box) t_origin (boxes box) os)
    else Raises TypeError.
Proof.
  intros Hlen Hbox Hos. unfold get_box_corners. rewrite Hbox.
  cbn [from_option valid_origin default id]. rewrite Hos. cbn [andb negb].
  rewrite (bool_decide_eq_true_2 _ Hlen). cbn [orb negb].
  destruct (can_cast t_origin (box_dtype box)); [|done]. cbn [negb].
  unfold shifted_corners.
  destruct (mapO (box_corners _) _) as [cs|]; [|done]. cbn [mbind option_bind].
  destruct (mapO (vmapO _) os) as [os'|] eqn:E; [|done]. cbn [mbind option_bind].
  apply mapO_Some in E as [E _]. rewrite decide_True by congruence. done.
Qed.

Lemma valid_zeros t N : forallb (vall (valid t)) (replicate N vzero) = true.
Proof.
  induction N as [|N IH]; [done|]. cbn [replicate forallb]. rewrite IH.
  unfold vzero, vall. by rewrite valid_zero.
Qed.

Lemma get_box_corners_None box :
  valid_box box = true →
  get_box_corners box None =
    of_option (shifted_corners (box_dtype box) (box_dtype box) (boxes box)
                 (replicate (length (boxes box)) vzero)).
Proof.
  intros Hbox.
  pose proof (get_box_corners_Origin2 box (box_dtype box)
                (replicate (length (boxes box)) vzero)
                (length_replicate _ _) Hbox (valid_zeros _ _)) as H.
  assert (can_cast (box_dtype box) (box_dtype box) = true) as Hc by (by destruct (box_dtype box)).
  rewrite Hc in H. rewrite <- H. unfold get_box_corners. rewrite Hbox.
  cbn [from_option default id valid_origin]. by rewrite valid_zeros.
Qed.

Lemma shifted_corners_int64_is_Some box os :
  is_Some (shifted_corners int64 int64 box os).
Proof.
  unfold shifted_corners.
  destruct (mapO_is_Some (box_corners int64) box) as [corners ->].
  { apply Forall_forall. intros b _. apply box_corners_int64_is_Some. }
  rewrite mapO_cast_same. cbn [mbind option_bind].
  apply shift_each_is_Some. intros cs o _ _. apply shift_int64_is_Some.
Qed.

Lemma shifted_corners_Some t t_origin box os corners :
  shifted_corners t t_origin box os = Some corners →
  length os = length box →
  length corners = length box ∧
  ∀ n b o, box !! n = Some b → os !! n = Some o →
    ∃ o' cs,
      vmapO (cast t_origin t) o = Some o' ∧
      corners !! n = Some cs ∧
      corners_of t b o' cs ∧
      (t_origin = t → vall (valid t) o = true → ∃ c0, head cs = Some c0 ∧ veq c0 o).
Proof.
  unfold shifted_corners. intros Hr Hlen.
  destruct (mapO (box_corners t) box) as [cs0|] eqn:Ecs; [|discriminate Hr].
  cbn [mbind option_bind] in Hr.
  destruct (mapO (vmapO (cast t_origin t)) os) as [os'|] eqn:Eos; [|discriminate Hr].
  cbn [mbind option_bind] in Hr.
  destruct (mapO_Some _ _ _ Ecs) as [Hl1 Hn1].
  destruct (mapO_Some _ _ _ Eos) as [Hl2 Hn2].
  destruct (shift_each_Some _ _ _ _ Hr) as [Hl3 Hn3]; [by rewrite Hl1, Hl2|].
  split; [by rewrite Hl3|].
  intros n b o Hb Ho.
  destruct (Hn1 n b Hb) as (cs & Hcs & Hbc).
  destruct (Hn2 n o Ho) as (o' & Ho' & Hcast').
  destruct (Hn3 n cs o' Hcs Ho') as (cs' & Hcs' & Hshift).
  destruct (shift_corners _ _ _ _ _ Hbc Hshift) as [Hco Hc0].
  exists o', cs'. repeat split; try done.
  intros Heq Hv. rewrite Heq, vmapO_cast_same in Hcast'. injection Hcast' as <-.
  by apply Hc0.
Qed.


End CornersSpec.

Section CornersExamples.
#[local] Open Scope Q_scope.



(** The arrays of the docstring of [get_box_corners], as int64 arrays. *)
Example get_box_corners_docstring :
  get_box_corners
    (Box3 int64 [ ((0, 3, 1), (2, -1, -1), (1, 2, 0)); ((0, 0, 3), (1, 2, 0), (-1, 1, -1)) ])
    None =
  Returns [ [ (0, 0, 0); (0, 2, 1); (3, -1, 2); (1, -1, 0);
              (3, 1, 3); (1, 1, 1); (4, -2, 2); (4, 0, 3) ];
            [ (0, 0, 0); (0, 1, -1); (0, 2, 1); (3, 0, -1);
              (0, 3, 0); (3, 1, -2); (3, 2, 0); (3, 3, -1) ] ].
Proof. vm_compute. reflexivity. Qed.

(** int64 sums wrap. *)
Example get_box_corners_wraps :
  ∃ c0 c1 c2 c3 c5 c6 c7,
    get_box_corners
      (Box2 int64 ((inject_Z (2 ^ 62), inject_Z (2 ^ 62), 0), (0, 0, 0), (0, 0, 0))) None =
    Returns [[c0; c1; c2; c3; (inject_Z (- 2 ^ 63), 0, 0); c5; c6; c7]].
Proof. do 7 eexists. vm_compute. reflexivity. Qed.

End CornersExamples.

Section BoxXyz.
#[local] Open Scope Q_scope.

(** [get_box_xyz] once the number of origins is that of the
    parallelepipeds. *)
Lemma get_box_xyz_matching box origin faces :
  let N := length (boxes box) in
  let t := box_dtype box in
  let t_origin := from_option origin_dtype t origin in
  let os := from_option origin_columns (replicate N vzero) origin in
  length os = N →
  get_box_xyz box origin faces =
    c ← get_box_corners (Box3 t (boxes box)) (Some (Origin2 t_origin os));
    let coords := [ take_cols [0; 1; 4; 2; 0]%nat <$> c; take_cols [3; 5; 7; 6; 3]%nat <$> c;
                    take_cols [0; 1; 5; 3; 0]%nat <$> c; take_cols [2; 4; 7; 6; 2]%nat <$> c;
                    take_cols [0; 2; 6; 3; 0]%nat <$> c; take_cols [1; 4; 7; 5; 1]%nat <$> c ] in
    if negb faces then Returns (Path (concatenate_axis2 N coords))
    else Returns (Faces (zip ["face01a"; "face01b"; "face02a"; "face02b"; "face12a"; "face12b"]
                           coords)).
Proof.
  intros N t t_origin os Hlen. unfold get_box_xyz. fold N t.
  assert ((match origin with
           | None => (t, replicate N vzero)
           | Some (Origin1 t_origin o) => (t_origin, [o])
           | Some (Origin2 t_origin os) => (t_origin, os)
           end) = (t_origin, os)) as ->.
  { subst t_origin os. by destruct origin as [[]|]. }
  by rewrite (bool_decide_eq_true_2 _ Hlen).
Qed.




End BoxXyz.

Section BoundingBox.
#[local] Open Scope Q_scope.

Lemma vle_refl a : vle a a.
Proof. destruct a as [[a0 a1] a2]. simpl. repeat split; apply Qle_refl. Qed.

Lemma vle_trans a b c : vle a b → vle b c → vle a c.
Proof.
  destruct a as [[a0 a1] a2], b as [[b0 b1] b2], c as [[c0 c1] c2]. simpl.
  intros (? & ? & ?) (? & ? & ?). repeat split; eapply Qle_trans; eauto.
Qed.

Lemma vmin_le_l a b : vle (vmap2 Qmin a b) a.
Proof. destruct a as [[a0 a1] a2], b as [[b0 b1] b2]. simpl. repeat split; apply Q.le_min_l. Qed.

Lemma vmin_le_r a b : vle (vmap2 Qmin a b) b.
Proof. destruct a as [[a0 a1] a2], b as [[b0 b1] b2]. simpl. repeat split; apply Q.le_min_r. Qed.

Lemma vmax_le_l a b : vle a (vmap2 Qmax a b).
Proof. destruct a as [[a0 a1] a2], b as [[b0 b1] b2]. simpl. repeat split; apply Q.le_max_l. Qed.

Lemma vmax_le_r a b : vle b (vmap2 Qmax a b).
Proof. destruct a as [[a0 a1] a2], b as [[b0 b1] b2]. simpl. repeat split; apply Q.le_max_r. Qed.

(** The minimum over the columns is below every column, the maximum above. *)
Lemma col_fold_min_le cs c : c ∈ cs → vle (col_fold Qmin cs) c.
Proof.
  assert (H : ∀ cs acc, vle (fold_left (vmap2 Qmin) cs acc) acc ∧
                        ∀ c, c ∈ cs → vle (fold_left (vmap2 Qmin) cs acc) c).
  { clear. induction cs as [|x cs IH]; intros acc; simpl.
    - split; [apply vle_refl | intros c Hc; by apply elem_of_nil in Hc].
    - destruct (IH (vmap2 Qmin acc x)) as [H1 H2]. split.
      + eapply vle_trans; [exact H1 | apply vmin_le_l].
      + intros c Hc. apply elem_of_cons in Hc as [->|Hc]; [|by apply H2].
        eapply vle_trans; [exact H1 | apply vmin_le_r]. }
  destruct cs as [|x cs]; [intros Hc; by apply elem_of_nil in Hc|].
  simpl. intros Hc. destruct (H cs x) as [H1 H2].
  apply elem_of_cons in Hc as [->|Hc]; [exact H1 | by apply H2].
Qed.

Lemma col_fold_max_le cs c : c ∈ cs → vle c (col_fold Qmax cs).
Proof.
  assert (H : ∀ cs acc, vle acc (fold_left (vmap2 Qmax) cs acc) ∧
                        ∀ c, c ∈ cs → vle c (fold_left (vmap2 Qmax) cs acc)).
  { clear. induction cs as [|x cs IH]; intros acc; simpl.
    - split; [apply vle_refl | intros c Hc; by apply elem_of_nil in Hc].
    - destruct (IH (vmap2 Qmax acc x)) as [H1 H2]. split.
      + eapply vle_trans; [apply vmax_le_l | exact H1].
      + intros c Hc. apply elem_of_cons in Hc as [->|Hc]; [|by apply H2].
        eapply vle_trans; [apply vmax_le_r | exact H1]. }
  destruct cs as [|x cs]; [intros Hc; by apply elem_of_nil in Hc|].
  simpl. intros Hc. destruct (H cs x) as [H1 H2].
  apply elem_of_cons in Hc as [->|Hc]; [exact H1 | by apply H2].
Qed.

(** Snapping to zero moves a value by less than the tolerance. *)
Lemma snap_bounds x : x - tol <= snap_arr_to_val 0 tol x <= x + tol.
Proof.
  unfold snap_arr_to_val.
  assert (0 < tol) by (by vm_compute).
  destruct (Qlt_le_dec (Qabs (x - 0)) tol) as [Hlt|Hge]; [|lra].
  apply Qabs_Qlt_condition in Hlt. lra.
Qed.

Lemma floor_snap_le m x : m <= x → inject_Z (Qfloor (snap_arr_to_val 0 tol m)) - tol <= x.
Proof.
  intros Hm. pose proof (Qfloor_le (snap_arr_to_val 0 tol m)).
  pose proof (snap_bounds m). lra.
Qed.

Lemma ceil_snap_ge M x : x <= M → x <= inject_Z (Qceiling (snap_arr_to_val 0 tol M)) + tol.
Proof.
  intros HM. pose proof (Qle_ceiling (snap_arr_to_val 0 tol M)).
  pose proof (snap_bounds M). lra.
Qed.

Lemma astype_int_Some z k : astype_int z = Some k → k = z.
Proof. unfold astype_int. destruct (_ && _); [by intros [= <-] | discriminate]. Qed.

Lemma extent_Some hi lo k : extent hi lo = Some k → k = (hi - lo)%Z.
Proof. unfold extent. destruct (representable _); [apply astype_int_Some | discriminate]. Qed.

Lemma vastype_int_Some a b : vastype_int a = Some b → b = a.
Proof.
  destruct a as [[a0 a1] a2]. unfold vastype_int. intros H.
  destruct (astype_int a0) as [x|] eqn:Ex; [|discriminate]. cbn [mbind option_bind] in H.
  destruct (astype_int a1) as [y|] eqn:Ey; [|discriminate]. cbn [mbind option_bind] in H.
  destruct (astype_int a2) as [z|] eqn:Ez; [|discriminate]. cbn [mbind option_bind] in H.
  injection H as <-. by rewrite (astype_int_Some _ _ Ex), (astype_int_Some _ _ Ey),
    (astype_int_Some _ _ Ez).
Qed.

(** The box computed from the minima and maxima holds every column up to the
    tolerance. *)
Lemma in_box_within_bounds cs x bv :
  x ∈ cs →
  let mins_floor := vfloor (vmap (snap_arr_to_val 0 tol) (col_fold Qmin cs)) in
  let maxs_ceil := vceil (vmap (snap_arr_to_val 0 tol) (col_fold Qmax cs)) in
  vextent maxs_ceil mins_floor = Some bv →
  in_box_within tol mins_floor bv x.
Proof.
  intros Hx. pose proof (col_fold_min_le _ _ Hx) as Hmin.
  pose proof (col_fold_max_le _ _ Hx) as Hmax.
  destruct (col_fold Qmin cs) as [[m0 m1] m2], (col_fold Qmax cs) as [[M0 M1] M2],
    x as [[x0 x1] x2].
  cbn [vmap vfloor vceil vextent]. intros H.
  repeat match type of H with
  | context [extent ?h ?l] =>
      let k := fresh "k" in
      let E := fresh "E" in
      destruct (extent h l) as [k|] eqn:E;
        [ apply extent_Some in E; subst k; cbn [mbind option_bind] in H | discriminate H ]
  end.
  injection H as <-.
  simpl in *. destruct Hmin as (? & ? & ?), Hmax as (? & ? & ?).
  replace (Qfloor (snap_arr_to_val 0 tol m0) +
    (Qceiling (snap_arr_to_val 0 tol M0) - Qfloor (snap_arr_to_val 0 tol m0)))%Z
    with (Qceiling (snap_arr_to_val 0 tol M0)) by lia.
  replace (Qfloor (snap_arr_to_val 0 tol m1) +
    (Qceiling (snap_arr_to_val 0 tol M1) - Qfloor (snap_arr_to_val 0 tol m1)))%Z
    with (Qceiling (snap_arr_to_val 0 tol M1)) by lia.
  replace (Qfloor (snap_arr_to_val 0 tol m2) +
    (Qceiling (snap_arr_to_val 0 tol M2) - Qfloor (snap_arr_to_val 0 tol m2)))%Z
    with (Qceiling (snap_arr_to_val 0 tol M2)) by lia.
  repeat split; auto using floor_snap_le, ceil_snap_ge.
Qed.

Lemma of_option_Returns {A} (o : option A) (a : A) : of_option o = Returns a → o = Some a.
Proof. destruct o; [by intros [= <-] | discriminate]. Qed.

(** Takes a returning run apart, one bind at a time. *)
Ltac returns H :=
  match type of H with
  | (if negb ?b then _ else _) = Returns _ =>
      let E := fresh "E" in destruct b eqn:E; [cbn [negb] in H | discriminate H]
  | (if decide ?P then _ else _) = Returns _ =>
      let E := fresh "E" in destruct (decide P) as [E|E]; [discriminate H|]
  | ?x ≫= _ = Returns _ =>
      let a := fresh "a" in
      let E := fresh "E" in
      destruct x as [a| |] eqn:E; [cbn [mbind outcome_bind] in H | discriminate H..]
  end.

(** What a returning run of [get_bounding_box] went through. *)
Lemma get_bounding_box_Returns linalg_inv box bound_vecs r :
  get_bounding_box linalg_inv box bound_vecs = Returns r →
  let B := default eye3 bound_vecs in
  let lo cs := vfloor (vmap (snap_arr_to_val 0 tol) (col_fold Qmin cs)) in
  let hi cs := vceil (vmap (snap_arr_to_val 0 tol) (col_fold Qmax cs)) in
  ∃ bound_vecs_inv corners corners_f corners_bound,
    linalg_inv B = Returns bound_vecs_inv ∧
    get_box_corners box None = Returns corners ∧
    mapO (mapO (vmapO (cast (box_dtype box) float64))) corners = Some corners_f ∧
    mapO (mapO (mat_vec bound_vecs_inv)) corners_f = Some corners_bound ∧
    corners ≠ [] ∧
    mapO (λ m, mat_vec B (vinject m)) (lo <$> corners_bound) = Some (bound_box_origin r) ∧
    mapO (λ '(hi, lo), vextent hi lo) (zip (hi <$> corners_bound) (lo <$> corners_bound)) =
      Some (bound_box_bv r) ∧
    mapO (λ bv, scale_cols bv B) (bound_box_bv r) = Some (bound_box r) ∧
    mapO vastype_int (lo <$> corners_bound) = Some (bound_box_origin_bv r).
Proof.
  intros H B lo hi. unfold get_bounding_box in H. fold B in H.
  returns H. returns H. rename a into Bi. returns H. returns H. rename a into corners.
  returns H. rename a into cf. returns H. rename a into cb.
  returns H. returns H. returns H. returns H. returns H.
  injection H as <-. cbn [bound_box bound_box_origin bound_box_bv bound_box_origin_bv].
  rewrite <- !list_fmap_compose in E6, E7, E9.
  repeat rewrite <- list_fmap_compose in E7.
  apply of_option_Returns in E3, E4, E6, E7, E8, E9.
  exists Bi, corners, cf, cb.
  do 4 (split; [done|]). split; [|repeat split; assumption].
  intros ->. apply mapO_Some in E3 as [Hl _]. by destruct cf.
Qed.

End BoundingBox.

Section BoundingBoxReturns.
#[local] Open Scope Q_scope.

(** *** Small integers pass through the float operations unchanged *)

Lemma Qred_inject_Z z : Qred (inject_Z z) = inject_Z z.
Proof.
  unfold Qred, inject_Z.
  pose proof (Z.ggcd_gcd z 1) as Hg.
  pose proof (Z.ggcd_correct_divisors z 1) as Hd.
  destruct (Z.ggcd z 1) as [g [aa bb]]. simpl in *.
  rewrite Z.gcd_1_r in Hg. subst g. destruct Hd as [Ha Hb].
  rewrite Z.mul_1_l in Ha, Hb. by subst.
Qed.

Lemma pow2_nonneg e : (0 ≤ e)%Z → pow2 e = inject_Z (2 ^ e).
Proof. intros He. unfold pow2. by rewrite (proj2 (Z.leb_le 0 e) He). Qed.

Lemma pow2_neg e : (e < 0)%Z → pow2 e * inject_Z (2 ^ (- e)) == 1.
Proof.
  intros He. unfold pow2. rewrite (proj2 (Z.leb_gt 0 e) He).
  assert (H : (2 ^ (- e))%Z = Zpos (Pos.pow 2 (Z.to_pos (- e)))).
  { rewrite Pos2Z.inj_pow. f_equal. rewrite Z2Pos.id; lia. }
  rewrite H. unfold Qeq, Qmult, inject_Z. simpl. lia.
Qed.

Lemma round_half_even_Z m : round_half_even (inject_Z m) = m.
Proof.
  unfold round_half_even. rewrite Qfloor_Z.
  assert (H : Qcompare (inject_Z m - inject_Z m) (1 # 2) = Lt).
  { rewrite (Qcompare_comp (inject_Z m - inject_Z m) 0 ltac:(ring) (1 # 2) (1 # 2) ltac:(reflexivity)).
    reflexivity. }
  by rewrite H.
Qed.

Lemma round_half_even_comp x y : x == y → round_half_even x = round_half_even y.
Proof.
  intros H. unfold round_half_even. rewrite (Qfloor_comp x y H).
  by rewrite (Qcompare_comp (x - inject_Z (Qfloor y)) (y - inject_Z (Qfloor y))
                ltac:(by rewrite H) (1 # 2) (1 # 2) ltac:(reflexivity)).
Qed.

Lemma pow2_nonpos p : (p ≤ 0)%Z → pow2 p * inject_Z (2 ^ (- p)) == 1.
Proof.
  intros Hp. destruct (Z.eq_dec p 0) as [->|Hp0]; [reflexivity|].
  apply pow2_neg. lia.
Qed.

Lemma round64_int z : (Z.abs z < 2 ^ 53)%Z → round64 (inject_Z z) = Some (inject_Z z).
Proof.
  intros Hz. unfold round64. rewrite Qred_inject_Z.
  destruct (Z.eq_dec z 0) as [->|Hz0]; [reflexivity|].
  assert (E0 : Qeq_bool (inject_Z z) 0 = false).
  { destruct (Qeq_bool (inject_Z z) 0) eqn:E; [|done].
    apply Qeq_bool_iff in E. unfold Qeq in E. simpl in E. lia. }
  rewrite E0.
  assert (Ea : Qabs (inject_Z z) = inject_Z (Z.abs z)) by reflexivity.
  rewrite Ea. set (a := Z.abs z) in *.
  assert (Ha : (0 < a)%Z) by lia.
  pose proof (Z.log2_spec a Ha) as [Hl1 Hl2].
  pose proof (Z.log2_nonneg a) as Hl0.
  assert (Hl3 : (Z.log2 a < 53)%Z) by (apply Z.log2_lt_pow2; lia).
  assert (El : Qlog2 (inject_Z a) = Z.log2 a).
  { unfold Qlog2. cbn [Qnum Qden inject_Z]. change (Z.log2 1) with 0%Z.
    rewrite Z.sub_0_r, pow2_nonneg by done.
    assert (Qle_bool (inject_Z (2 ^ Z.log2 a)) (inject_Z a) = true) as ->; [|done].
    apply Qle_bool_iff. by rewrite <- Zle_Qle. }
  rewrite El. rewrite Z.max_l by lia.
  set (p := (Z.log2 a - 52)%Z).
  assert (HP : pow2 p * inject_Z (2 ^ (- p)) == 1) by (apply pow2_nonpos; lia).
  set (P := pow2 p) in *. set (X := inject_Z (2 ^ (- p))) in *.
  assert (HP0 : ¬ P == 0).
  { intros E. rewrite E in HP. by apply (Q_apart_0_1). }
  assert (Hdiv : inject_Z a / P == inject_Z (a * 2 ^ (- p))).
  { rewrite inject_Z_mult. fold X.
    assert (E : inject_Z a == (inject_Z a * X) * P).
    { rewrite <- Qmult_assoc, (Qmult_comm X P), HP. ring. }
    rewrite E at 1. by apply Qdiv_mult_l. }
  rewrite (round_half_even_comp _ _ Hdiv), round_half_even_Z.
  assert (Hr : inject_Z (a * 2 ^ (- p)) * P == inject_Z a).
  { rewrite inject_Z_mult. fold X.
    rewrite <- Qmult_assoc, (Qmult_comm X P), HP. ring. }
  rewrite (Qred_complete _ _ Hr), Qred_inject_Z.
  assert (Qle_bool (pow2 1024) (inject_Z a) = false) as ->.
  { destruct (Qle_bool (pow2 1024) (inject_Z a)) eqn:E; [|done].
    apply Qle_bool_iff in E. rewrite pow2_nonneg in E by done.
    rewrite <- Zle_Qle in E.
    pose proof (Z.pow_le_mono_r 2 53 1024 ltac:(done) ltac:(done)). lia. }
  f_equal. destruct (Z_le_gt_dec 0 z) as [Hs|Hs].
  - assert (Qle_bool 0 (inject_Z z) = true) as ->.
    { apply Qle_bool_iff. by rewrite <- (Zle_Qle 0). }
    unfold a. by rewrite Z.abs_eq.
  - assert (Qle_bool 0 (inject_Z z) = false) as ->.
    { destruct (Qle_bool 0 (inject_Z z)) eqn:E; [|done].
      apply Qle_bool_iff in E. rewrite <- (Zle_Qle 0) in E. lia. }
    unfold a, Qopp, inject_Z. cbn [Qnum Qden]. f_equal. lia.
Qed.

Lemma round64_intq B x : (B < 2 ^ 53)%Z → intq B x → ∃ r, round64 x = Some r ∧ r == x ∧ intq B r.
Proof.
  intros HB (z & Hx & Hz). exists (inject_Z z).
  rewrite (round64_comp _ _ Hx), round64_int by lia.
  split; [done|]. split; [by rewrite Hx|]. by exists z.
Qed.

Lemma representable_intq B x : (B < 2 ^ 53)%Z → intq B x → representable x = true.
Proof.
  intros HB Hx. destruct (round64_intq B x HB Hx) as (r & Hr & E & _).
  unfold representable. rewrite Hr. by apply Qeq_bool_iff.
Qed.

Lemma intq_proper B x y : x == y → intq B x → intq B y.
Proof. intros E (z & Hx & Hz). exists z. split; [by rewrite <- E | done]. Qed.

Lemma intq_mono B B' x : (B ≤ B')%Z → intq B x → intq B' x.
Proof. intros HB (z & Hx & Hz). exists z. split; [done | lia]. Qed.

Lemma intq_Z B z : (Z.abs z ≤ B)%Z → intq B (inject_Z z).
Proof. intros Hz. by exists z. Qed.

Lemma intq_0 B : (0 ≤ B)%Z → intq B 0.
Proof. intros HB. apply (intq_Z B 0). lia. Qed.

Lemma intq_floor B x : intq B x → inject_Z (Qfloor x) == x ∧ (Z.abs (Qfloor x) ≤ B)%Z.
Proof. intros (z & Hx & Hz). rewrite (Qfloor_comp _ _ Hx), Qfloor_Z. by rewrite Hx. Qed.

Lemma intq_ceiling B x : intq B x → (Z.abs (Qceiling x) ≤ B)%Z.
Proof. intros (z & Hx & Hz). by rewrite (Qceiling_comp _ _ Hx), Qceiling_Z. Qed.

Lemma small_int_intq x : small_int x = true → intq (2 ^ 50) x.
Proof.
  unfold small_int. intros H. apply andb_prop in H as [H1 H2].
  apply Qeq_bool_iff in H1. apply Z.leb_le in H2.
  exists (Qfloor x). split; [by rewrite H1 | done].
Qed.

Lemma intq_valid t B x : (B < 2 ^ 53)%Z → intq B x → valid t x = true.
Proof.
  intros HB Hx. destruct t; simpl; [|by eapply representable_intq].
  destruct (intq_floor _ _ Hx) as [E Hz]. unfold is_int64.
  rewrite (proj2 (Qeq_bool_iff _ _) E). cbn [andb].
  apply andb_true_intro. split; [apply Z.leb_le | apply Z.ltb_lt]; lia.
Qed.

Lemma add_intq t B1 B2 x y :
  intq B1 x → intq B2 y → (B1 + B2 < 2 ^ 53)%Z →
  ∃ r, add t x y = Some r ∧ intq (B1 + B2) r.
Proof.
  intros Hx Hy HB. destruct t; simpl.
  - destruct (intq_floor _ _ Hx) as [_ H1], (intq_floor _ _ Hy) as [_ H2].
    eexists. split; [done|]. rewrite wrap64_small by lia. apply intq_Z. lia.
  - destruct Hx as (zx & Ex & Hx), Hy as (zy & Ey & Hy).
    destruct (round64_intq (B1 + B2) (x + y)) as (r & Hr & _ & Hi); [done| |by eauto].
    exists (zx + zy)%Z. split; [by rewrite inject_Z_plus, Ex, Ey | lia].
Qed.

Lemma vadd_intq t B1 B2 a b :
  vintq B1 a → vintq B2 b → (B1 + B2 < 2 ^ 53)%Z →
  ∃ c, vadd t a b = Some c ∧ vintq (B1 + B2) c.
Proof.
  destruct a as [[a0 a1] a2], b as [[b0 b1] b2]. intros (A0 & A1 & A2) (B0' & B1' & B2') HB.
  destruct (add_intq t _ _ _ _ A0 B0' HB) as (c0 & E0 & C0).
  destruct (add_intq t _ _ _ _ A1 B1' HB) as (c1 & E1 & C1).
  destruct (add_intq t _ _ _ _ A2 B2' HB) as (c2 & E2 & C2).
  exists (c0, c1, c2). unfold vadd, vmap2O. rewrite E0, E1, E2. by split.
Qed.

(** Mapping a partial function that is defined on every element. *)
Lemma mapO_intro {A B} (P : A → Prop) (R : B → Prop) (f : A → option B) (l : list A) :
  (∀ x, P x → ∃ y, f x = Some y ∧ R y) → Forall P l →
  ∃ l', mapO f l = Some l' ∧ Forall R l' ∧ length l' = length l.
Proof.
  intros Hf. induction 1 as [|x l Hx _ (l' & IH & HR & Hlen)].
  - by exists [].
  - destruct (Hf x Hx) as (y & Hy & Ry). exists (y :: l'). simpl. rewrite Hy, IH.
    split; [done|]. split; [by constructor | by rewrite Hlen].
Qed.

End BoundingBoxReturns.

Section BoundingBoxStages.
#[local] Open Scope Q_scope.

Lemma intq_Z_inv B z : intq B (inject_Z z) → (Z.abs z ≤ B)%Z.
Proof.
  intros (z' & E & Hz). unfold Qeq in E. simpl in E.
  rewrite !Z.mul_1_r in E. by subst.
Qed.

Lemma vintq_mono B B' a : (B ≤ B')%Z → vintq B a → vintq B' a.
Proof.
  destruct a as [[a0 a1] a2]. intros HB (H0 & H1 & H2).
  repeat split; by eapply intq_mono.
Qed.

Lemma vintq_zero B : (0 ≤ B)%Z → vintq B vzero.
Proof. intros HB. repeat split; by apply intq_0. Qed.

Lemma mall_small_int b :
  mall small_int b = true →
  vintq (2 ^ 50) (col0 b) ∧ vintq (2 ^ 50) (col1 b) ∧ vintq (2 ^ 50) (col2 b).
Proof.
  destruct b as [[[[b00 b01] b02] [[b10 b11] b12]] [[b20 b21] b22]].
  unfold mall, vall. intros H.
  repeat match goal with
         | H : _ && _ = true |- _ => apply andb_prop in H as [? ?]
         end.
  cbn [vintq col0 col1 col2]. repeat split; by apply small_int_intq.
Qed.

Lemma mall_small_int_valid t b : mall small_int b = true → mall (valid t) b = true.
Proof.
  destruct b as [[[[b00 b01] b02] [[b10 b11] b12]] [[b20 b21] b22]].
  unfold mall, vall. intros H.
  repeat match goal with
         | H : _ && _ = true |- _ => apply andb_prop in H as [? ?]
         end.
  repeat (apply andb_true_intro; split);
    apply (intq_valid t (2 ^ 50)); try lia; by apply small_int_intq.
Qed.

(** *** The corners *)

Lemma box_corners_intq t b B :
  (0 ≤ B)%Z → (3 * B < 2 ^ 53)%Z →
  vintq B (col0 b) → vintq B (col1 b) → vintq B (col2 b) →
  ∃ cs, box_corners t b = Some cs ∧ Forall (vintq (3 * B)) cs.
Proof.
  intros HB0 HB H0 H1 H2. unfold box_corners.
  destruct (vadd_intq t B B (col0 b) (col1 b)) as (s01 & -> & H01); [done..|lia|].
  destruct (vadd_intq t B B (col0 b) (col2 b)) as (s02 & -> & H02); [done..|lia|].
  destruct (vadd_intq t B B (col1 b) (col2 b)) as (s12 & -> & H12); [done..|lia|].
  cbn [mbind option_bind].
  destruct (vadd_intq t (B + B) B s01 (col2 b)) as (s012 & -> & H012); [done..|lia|].
  exists [vzero; col0 b; col1 b; col2 b; s01; s02; s12; s012]. split; [reflexivity|].
  constructor; [apply vintq_zero; lia|].
  constructor; [apply (vintq_mono B); [lia | exact H0]|].
  constructor; [apply (vintq_mono B); [lia | exact H1]|].
  constructor; [apply (vintq_mono B); [lia | exact H2]|].
  constructor; [apply (vintq_mono (B + B)); [lia | exact H01]|].
  constructor; [apply (vintq_mono (B + B)); [lia | exact H02]|].
  constructor; [apply (vintq_mono (B + B)); [lia | exact H12]|].
  constructor; [apply (vintq_mono (B + B + B)); [lia | exact H012]|].
  constructor.
Qed.

Lemma shift_zero_intq t cs B :
  (B < 2 ^ 53)%Z → Forall (vintq B) cs →
  ∃ cs', shift t cs vzero = Some cs' ∧ Forall (vintq B) cs'.
Proof.
  intros HB Hcs.
  destruct (mapO_intro (vintq B) (vintq B) (λ c, vadd t c vzero) cs) as (cs' & E & H & _);
    [|done|by exists cs'].
  intros c Hc.
  destruct (vadd_intq t B 0 c vzero Hc) as (c' & E & Hc'); [by apply vintq_zero | lia |].
  exists c'. split; [done|]. by rewrite Z.add_0_r in Hc'.
Qed.

Lemma shift_each_zeros t corners B :
  (B < 2 ^ 53)%Z → Forall (Forall (vintq B)) corners →
  ∃ r, shift_each t corners (replicate (length corners) vzero) = Some r ∧
       Forall (Forall (vintq B)) r ∧ length r = length corners.
Proof.
  intros HB. induction 1 as [|cs corners Hcs _ (r & IH & Hr & Hlen)]; [by exists []|].
  destruct (shift_zero_intq t cs B HB Hcs) as (cs' & E & Hcs').
  exists (cs' :: r). cbn [length replicate shift_each]. rewrite E, IH.
  split; [done|]. split; [by constructor | simpl; by rewrite Hlen].
Qed.

Lemma get_box_corners_small box :
  forallb (mall small_int) (boxes box) = true →
  ∃ corners,
    get_box_corners box None = Returns corners ∧
    Forall (Forall (vintq (3 * 2 ^ 50))) corners ∧
    length corners = length (boxes box).
Proof.
  intros Hs. pose proof (proj1 (forallb_forall _ _) Hs) as Hs'.
  assert (Hv : valid_box box = true).
  { unfold valid_box. apply forallb_forall. intros b Hb.
    apply mall_small_int_valid. by apply Hs'. }
  rewrite (get_box_corners_None box Hv). unfold shifted_corners.
  destruct (mapO_intro (λ b, mall small_int b = true) (Forall (vintq (3 * 2 ^ 50)))
              (box_corners (box_dtype box)) (boxes box)) as (cs & E & Hcs & Hlen).
  { intros b Hb. destruct (mall_small_int b Hb) as (H0 & H1 & H2).
    by apply box_corners_intq. }
  { apply Forall_forall. intros b Hb. apply Hs'. by apply list_elem_of_In. }
  rewrite E, mapO_cast_same. cbn [mbind option_bind].
  rewrite <- Hlen.
  destruct (shift_each_zeros (box_dtype box) cs (3 * 2 ^ 50)) as (r & Er & Hr & Hl);
    [lia | done |].
  rewrite Er. exists r. split; [done|]. split; [done | congruence].
Qed.

(** *** The corners in the basis *)

Lemma cast_float64_intq t B x :
  (B < 2 ^ 53)%Z → intq B x → ∃ r, cast t float64 x = Some r ∧ intq B r.
Proof.
  intros HB Hx. destruct t; simpl; [|by exists x].
  destruct (round64_intq B x HB Hx) as (r & E & _ & Hr). by exists r.
Qed.

Lemma vcast_float64_intq t B a :
  (B < 2 ^ 53)%Z → vintq B a → ∃ c, vmapO (cast t float64) a = Some c ∧ vintq B c.
Proof.
  destruct a as [[a0 a1] a2]. intros HB (H0 & H1 & H2).
  destruct (cast_float64_intq t B a0 HB H0) as (c0 & E0 & C0).
  destruct (cast_float64_intq t B a1 HB H1) as (c1 & E1 & C1).
  destruct (cast_float64_intq t B a2 HB H2) as (c2 & E2 & C2).
  exists (c0, c1, c2). unfold vmapO. rewrite E0, E1, E2. by split.
Qed.

Lemma dot_unit B r c :
  (0 ≤ B)%Z → (B < 2 ^ 53)%Z → vintq B c →
  r = (1, 0, 0) ∨ r = (0, 1, 0) ∨ r = (0, 0, 1) →
  ∃ x, dot r c = Some x ∧ intq B x.
Proof.
  destruct c as [[c0 c1] c2]. intros HB0 HB (H0 & H1 & H2) Hr.
  assert (R : ∀ x, intq B x → representable x = true)
    by (intros x; by apply representable_intq).
  destruct Hr as [->|[->| ->]]; unfold dot.
  all: match goal with
       | |- context [forallb representable ?l] =>
           assert (forallb representable l = true) as ->
       end.
  all: try (cbn [forallb]; repeat (apply andb_true_intro; split); try done;
            apply R).
  all: try (eexists; split; [done|]).
  all: first [ apply (intq_proper B c0); [ring | done]
             | apply (intq_proper B c1); [ring | done]
             | apply (intq_proper B c2); [ring | done]
             | apply (intq_proper B 0); [ring | by apply intq_0] ].
Qed.

Lemma mat_vec_eye3_intq B c :
  (0 ≤ B)%Z → (B < 2 ^ 53)%Z → vintq B c →
  ∃ x, mat_vec eye3 c = Some x ∧ vintq B x.
Proof.
  intros HB0 HB Hc. unfold mat_vec, eye3.
  destruct (dot_unit B (1, 0, 0) c HB0 HB Hc) as (x & -> & Hx); [by left|].
  destruct (dot_unit B (0, 1, 0) c HB0 HB Hc) as (y & -> & Hy); [by right; left|].
  destruct (dot_unit B (0, 0, 1) c HB0 HB Hc) as (z & -> & Hz); [by right; right|].
  by exists (x, y, z).
Qed.

(** *** Minima, maxima, floor and ceiling *)

Lemma vmap2_intq f B a b :
  (∀ x y, f x y = x ∨ f x y = y) → vintq B a → vintq B b → vintq B (vmap2 f a b).
Proof.
  destruct a as [[a0 a1] a2], b as [[b0 b1] b2]. intros Hf (A0 & A1 & A2) (B0' & B1' & B2').
  unfold vmap2. repeat split.
  - by destruct (Hf a0 b0) as [-> | ->].
  - by destruct (Hf a1 b1) as [-> | ->].
  - by destruct (Hf a2 b2) as [-> | ->].
Qed.

Lemma col_fold_intq f B cs :
  (∀ x y, f x y = x ∨ f x y = y) → (0 ≤ B)%Z →
  Forall (vintq B) cs → vintq B (col_fold f cs).
Proof.
  intros Hf HB Hcs. destruct Hcs as [|c cs Hc Hcs]; [by apply vintq_zero|].
  simpl. revert c Hc. induction Hcs as [|c' cs Hc' _ IH]; intros c Hc; [done|].
  simpl. apply IH. by apply vmap2_intq.
Qed.

Lemma Qmin_case x y : Qmin x y = x ∨ Qmin x y = y.
Proof. unfold Qmin, GenericMinMax.gmin. destruct (x ?= y); auto. Qed.

Lemma Qmax_case x y : Qmax x y = x ∨ Qmax x y = y.
Proof. unfold Qmax, GenericMinMax.gmax. destruct (x ?= y); auto. Qed.

Lemma vsnap_intq B a : (0 ≤ B)%Z → vintq B a → vintq B (vmap (snap_arr_to_val 0 tol) a).
Proof.
  destruct a as [[a0 a1] a2]. intros HB (H0 & H1 & H2). unfold vmap, snap_arr_to_val.
  repeat split; destruct (Qlt_le_dec _ _); try done; by apply intq_0.
Qed.

Lemma vfloor_intq B a : vintq B a → vintq B (vinject (vfloor a)).
Proof.
  destruct a as [[a0 a1] a2]. intros (H0 & H1 & H2). unfold vfloor, vinject.
  repeat split; apply intq_Z; by eapply intq_floor.
Qed.

Lemma vceil_intq B a : vintq B a → vintq B (vinject (vceil a)).
Proof.
  destruct a as [[a0 a1] a2]. intros (H0 & H1 & H2). unfold vceil, vinject.
  repeat split; apply intq_Z; by eapply intq_ceiling.
Qed.

(** *** The integer results *)

Lemma astype_int_intq B z : (B < 2 ^ 63)%Z → (Z.abs z ≤ B)%Z → astype_int z = Some z.
Proof.
  intros HB Hz. unfold astype_int.
  assert (((- 2 ^ 63 <=? z) && (z <? 2 ^ 63))%Z = true) as ->; [|done].
  apply andb_true_intro. split; [apply Z.leb_le | apply Z.ltb_lt]; lia.
Qed.

Lemma vastype_int_intq B m :
  (B < 2 ^ 63)%Z → vintq B (vinject m) → vastype_int m = Some m.
Proof.
  destruct m as [[m0 m1] m2]. intros HB (H0 & H1 & H2). unfold vastype_int.
  apply intq_Z_inv in H0, H1, H2.
  by rewrite !(astype_int_intq B) by done.
Qed.

Lemma extent_intq B hi lo :
  (2 * B < 2 ^ 53)%Z → (Z.abs hi ≤ B)%Z → (Z.abs lo ≤ B)%Z →
  extent hi lo = Some (hi - lo)%Z.
Proof.
  intros HB Hhi Hlo. unfold extent.
  rewrite (representable_intq (2 * B)); [|done|apply intq_Z; lia].
  apply (astype_int_intq (2 * B)); lia.
Qed.

Lemma vextent_intq B hi lo :
  (2 * B < 2 ^ 53)%Z → vintq B (vinject hi) → vintq B (vinject lo) →
  ∃ bv, vextent hi lo = Some bv ∧ vintq (2 * B) (vinject bv).
Proof.
  destruct hi as [[h0 h1] h2], lo as [[l0 l1] l2]. intros HB (H0 & H1 & H2) (L0 & L1 & L2).
  apply intq_Z_inv in H0, H1, H2, L0, L1, L2. unfold vextent.
  rewrite !(extent_intq B) by done. eexists. split; [done|].
  repeat split; apply intq_Z; lia.
Qed.

Lemma scale_unit B k x :
  (B < 2 ^ 53)%Z → (Z.abs k ≤ B)%Z → x = 0 ∨ x = 1 → is_Some (scale k x).
Proof.
  intros HB Hk Hx. unfold scale. rewrite round64_int by lia. cbn [mbind option_bind].
  destruct (round64_intq B (inject_Z k * x) HB) as (r & -> & _); [|by eexists].
  destruct Hx as [-> | ->].
  - apply (intq_proper B 0); [ring | apply intq_0; lia].
  - apply (intq_proper B (inject_Z k)); [ring | by apply intq_Z].
Qed.

Lemma scale_cols_eye3 B bv :
  (B < 2 ^ 53)%Z → vintq B (vinject bv) → is_Some (scale_cols bv eye3).
Proof.
  destruct bv as [[k0 k1] k2]. intros HB (H0 & H1 & H2).
  apply intq_Z_inv in H0, H1, H2. unfold scale_cols, eye3.
  repeat match goal with
  | |- context [scale ?k ?x] =>
      let r := fresh "r" in
      destruct (scale_unit B k x HB) as [r ->]; [done | by auto |];
      cbn [mbind option_bind]
  end.
  by eexists.
Qed.

End BoundingBoxStages.

Section BoundingBoxReturns.
#[local] Open Scope Q_scope.

Lemma Forall_zip_pair {A B} (P : A → Prop) (R : B → Prop) (l : list A) (k : list B) :
  Forall P l → Forall R k → Forall (λ p, P p.1 ∧ R p.2) (zip l k).
Proof.
  intros Hl. revert k. induction Hl as [|x l Hx _ IH]; intros k Hk; [constructor|].
  destruct Hk as [|y k Hy Hk]; [constructor|]. simpl. constructor; [done | by apply IH].
Qed.

(** In the identity basis a box of small integers is followed to the end:
    every number on the way is an integer below 2^53, which the float
    operations leave as it is. *)
Lemma get_bounding_box_small linalg_inv box bound_vecs :
  boxes box ≠ [] →
  forallb (mall small_int) (boxes box) = true →
  default eye3 bound_vecs = eye3 →
  linalg_inv eye3 = Returns eye3 →
  ∃ r, get_bounding_box linalg_inv box bound_vecs = Returns r.
Proof.
  intros Hne Hs Hd Hinv.
  destruct (get_box_corners_small box Hs) as (corners & Hc & Hci & Hlen).
  assert (HB : ∃ B, B = (3 * 2 ^ 50)%Z ∧ (0 ≤ B)%Z ∧ (2 * B < 2 ^ 53)%Z).
  { eexists. split; [reflexivity|]. lia. }
  destruct HB as (B & HBeq & HB0 & HB). rewrite <- HBeq in Hci. clear HBeq.
  assert (E : mall representable eye3 = true) by (vm_compute; reflexivity).
  unfold get_bounding_box. rewrite Hd. cbv zeta. rewrite E. cbn [negb].
  rewrite Hinv. cbn [mbind outcome_bind]. rewrite E. cbn [negb].
  rewrite Hc. cbn [mbind outcome_bind].
  destruct (mapO_intro (Forall (vintq B)) (Forall (vintq B))
              (mapO (vmapO (cast (box_dtype box) float64))) corners)
    as (cf & Ecf & Hcf & Hlcf); [|exact Hci|].
  { intros cs Hcs.
    destruct (mapO_intro (vintq B) (vintq B) (vmapO (cast (box_dtype box) float64)) cs)
      as (cs' & E' & H' & _); [|done|by exists cs'].
    intros c Hc'. apply vcast_float64_intq; [lia | done]. }
  rewrite Ecf. cbn [of_option mbind outcome_bind].
  destruct (mapO_intro (Forall (vintq B)) (Forall (vintq B)) (mapO (mat_vec eye3)) cf)
    as (cb & Ecb & Hcb & Hlcb); [|exact Hcf|].
  { intros cs Hcs.
    destruct (mapO_intro (vintq B) (vintq B) (mat_vec eye3) cs)
      as (cs' & E' & H' & _); [|done|by exists cs'].
    intros c Hc'. apply mat_vec_eye3_intq; [lia | lia | done]. }
  rewrite Ecb. cbn [of_option mbind outcome_bind].
  rewrite decide_False; cycle 1.
  { intros E0. apply Hne. apply length_zero_iff_nil. congruence. }
  set (mins_floor := vfloor <$> _). set (maxs_ceil := vceil <$> _).
  assert (Hmin : Forall (λ m, vintq B (vinject m)) mins_floor).
  { unfold mins_floor. rewrite <- list_fmap_compose. apply Forall_fmap.
    eapply Forall_impl; [exact Hcb|]. intros cs Hcs. simpl.
    apply vfloor_intq, vsnap_intq; [lia|].
    apply col_fold_intq; [apply Qmin_case | lia | done]. }
  assert (Hmax : Forall (λ m, vintq B (vinject m)) maxs_ceil).
  { unfold maxs_ceil. rewrite <- list_fmap_compose. apply Forall_fmap.
    eapply Forall_impl; [exact Hcb|]. intros cs Hcs. simpl.
    apply vceil_intq, vsnap_intq; [lia|].
    apply col_fold_intq; [apply Qmax_case | lia | done]. }
  destruct (mapO_intro (λ m, vintq B (vinject m)) (λ _, True)
              (λ m, mat_vec eye3 (vinject m)) mins_floor) as (bo & Ebo & _ & _);
    [|exact Hmin|].
  { intros m Hm. destruct (mat_vec_eye3_intq B (vinject m)) as (x & Ex & _);
      [lia | lia | done | by exists x]. }
  rewrite Ebo. cbn [of_option mbind outcome_bind].
  destruct (mapO_intro (λ p : ivec3 * ivec3, vintq B (vinject p.1) ∧ vintq B (vinject p.2))
              (λ bv, vintq (2 * B) (vinject bv))
              (λ '(hi, lo), vextent hi lo) (zip maxs_ceil mins_floor))
    as (bbv & Ebv & Hbv & _);
    [|exact (Forall_zip_pair (λ m, vintq B (vinject m)) (λ m, vintq B (vinject m))
               _ _ Hmax Hmin)|].
  { intros [hi lo] [Hhi Hlo]. by apply vextent_intq. }
  rewrite Ebv. cbn [of_option mbind outcome_bind].
  destruct (mapO_intro (λ bv, vintq (2 * B) (vinject bv)) (λ _, True)
              (λ bv, scale_cols bv eye3) bbv) as (bb & Ebb & _ & _); [|exact Hbv|].
  { intros bv Hb. destruct (scale_cols_eye3 (2 * B) bv) as [m Em]; [lia | done | by exists m]. }
  rewrite Ebb. cbn [of_option mbind outcome_bind].
  destruct (mapO_intro (λ m, vintq B (vinject m)) (λ _, True) vastype_int mins_floor)
    as (bobv & Ebobv & _ & _); [|exact Hmin|].
  { intros m Hm. exists m. split; [|done]. apply (vastype_int_intq B); [lia | done]. }
  rewrite Ebobv. cbn [of_option mbind outcome_bind]. by eexists.
Qed.

End BoundingBoxReturns.

Section BoundingBoxSpec.
#[local] Open Scope Q_scope.

Lemma mapO_elem_of {A B} (f : A → option B) (l : list A) (l' : list B) x :
  mapO f l = Some l' → x ∈ l → ∃ y, y ∈ l' ∧ f x = Some y.
Proof.
  intros H Hx. apply list_elem_of_lookup_1 in Hx as [i Hi].
  destruct (mapO_Some _ _ _ H) as [_ Hn]. destruct (Hn i x Hi) as (y & Hy & Hf).
  exists y. split; [by eapply list_elem_of_lookup_2 | done].
Qed.




(** The edge vectors are not always multiples of the basis vectors: for the
    basis vector [(2^-44, 0, 0)], shorter than 1e-12, the edge vector is
    zero. *)
Example get_bounding_box_snapped_edge :
  let bound_vecs := ((1 # 17592186044416, 0, 0), (0, 1, 0), (0, 0, 1)) in
  let inv (m : mat3) := Returns ((17592186044416, 0, 0), (0, 1, 0), (0, 0, 1)) in
  ∃ r bb bv,
    get_bounding_box inv (Box3 float64 [bound_vecs]) (Some bound_vecs) = Returns r ∧
    bound_box r = [bb] ∧ bound_box_bv r = [bv] ∧
    bv = (1, 1, 1)%Z ∧ col0 bb = vzero.
Proof.
  intros bound_vecs inv.
  exists {| bound_box := [((0, 0, 0), (0, 1, 0), (0, 0, 1))];
            bound_box_origin := [(0 # 17592186044416, 0, 0)];
            bound_box_bv := [(1, 1, 1)%Z];
            bound_box_origin_bv := [(0, 0, 0)%Z] |},
         ((0, 0, 0), (0, 1, 0), (0, 0, 1)), (1, 1, 1)%Z.
  split; [vm_compute; reflexivity|]. repeat split; reflexivity.
Qed.

End BoundingBoxSpec.

(** ** More on [get_depends] *)

Lemma get_depends_rec_wf fuel name inc_id iv kwargs pv out pv' :
  store_wf pv →
  get_depends_rec fuel name inc_id iv kwargs pv = Ok (out, pv') →
  store_wf pv'.
Proof.
  intros Hwf H. eapply effect_weak_wf; [exact Hwf|].
  eapply effect_weaken, get_depends_rec_effect; eauto.
Qed.

(** Whether an element satisfies conditions depends on its keys other than
    [vals] only. *)
Lemma dict_matches_ext (c el1 el2 : dict) :
  (∀ k, k ≠ "vals" → el1 !! k = el2 !! k) →
  dict_matches c el1 = dict_matches c el2.
Proof.
  intros Hext. unfold dict_matches. apply bool_decide_ext.
  split; intros HF k v Hk; specialize (HF k v Hk);
    apply lookup_delete_Some in Hk as [Hne _];
    unfold key_matches in *; [by rewrite <- Hext | by rewrite Hext].
Qed.

(** The list [finish] returns is the same for all states of the module-level
    dicts. *)
Lemma finish_fst_indep iv d (out : list obj) pv1 pv2 :
  store_wf pv1 → store_wf pv2 →
  (finish iv d out pv1).1 = (finish iv d out pv2).1.
Proof.
  intros H1 H2. unfold finish. rewrite !vals_loop_fst.
  assert (dict_from_list (deref pv1 <$> out) d = None ↔
          dict_from_list (deref pv2 <$> out) d = None) as Hiff.
  { unfold dict_from_list. induction out as [|o out IH]; simpl; [done|].
    assert (dict_matches d (deref pv1 o) = dict_matches d (deref pv2 o)) as ->.
    { destruct o as [e|p]; simpl; [done|]. apply dict_matches_ext. intros k Hk.
      by rewrite (store_wf_lookup pv1), (store_wf_lookup pv2). }
    destruct (dict_matches d (deref pv2 o)); [split; discriminate | exact IH]. }
  destruct (dict_from_list (deref pv1 <$> out) d) eqn:E1,
           (dict_from_list (deref pv2 <$> out) d) eqn:E2; try done.
  - discriminate (proj2 Hiff eq_refl).
  - discriminate (proj1 Hiff eq_refl).
Qed.

(** The list a call returns does not depend on the state of the module-level
    dicts. *)
Lemma get_depends_rec_store_indep fuel : ∀ name inc_id iv kwargs pv1 pv2 out pv1',
  store_wf pv1 → store_wf pv2 →
  get_depends_rec fuel name inc_id iv kwargs pv1 = Ok (out, pv1') →
  ∃ pv2', get_depends_rec fuel name inc_id iv kwargs pv2 = Ok (out, pv2').
Proof.
  induction fuel as [|fuel IH]; intros name inc_id iv kwargs pv1 pv2 out pv1' Hw1 Hw2 H;
    [discriminate|].
  rewrite get_depends_rec_S in *. unfold get_depends_body in *.
  destruct (negb _); [discriminate|].
  bind_ok H. destruct a as [[d out0] pv0]. injection H as H.
  lazymatch goal with
  | |- ∃ _, ?b ≫= _ = _ =>
      cut (∃ pv0', store_wf pv0 ∧ store_wf pv0' ∧ b = Ok (d, out0, pv0'))
  end.
  { intros (pv0' & Hw & Hw' & ->). cbn [mbind result_bind].
    exists (finish iv d out0 pv0').2. f_equal.
    rewrite (surjective_pairing (finish iv d out0 pv0')). f_equal.
    rewrite <- (finish_fst_indep iv d out0 pv0 pv0' Hw Hw'). by rewrite H. }
  clear H out pv1'.
  repeat case_decide; run_ok; subst;
    repeat match goal with
    | H : py_item ?kw ?k = Ok _ |- context [py_item ?kw ?k] =>
        rewrite H; cbn [mbind result_bind]
    | Hw1 : store_wf ?p1, Hw2 : store_wf ?p2,
      H : get_depends_rec fuel ?n ?id ?iv' ?kw ?p1 = Ok (_, _)
      |- context [get_depends_rec fuel ?n ?id ?iv' ?kw ?p2] =>
        let p := fresh "pv" in
        let H2 := fresh "H" in
        destruct (IH _ _ _ _ _ _ _ _ Hw1 Hw2 H) as [p H2];
        pose proof (get_depends_rec_wf _ _ _ _ _ _ _ _ Hw1 H);
        pose proof (get_depends_rec_wf _ _ _ _ _ _ _ _ Hw2 H2);
        rewrite H2; cbn [mbind result_bind]; clear H H2 Hw1 Hw2
    end;
    eauto.
Qed.

(** X1: a second call of [get_depends] with the same arguments returns the
    same list and leaves the module-level dicts as the first call left
    them. *)
Theorem get_depends_idempotent name inc_id inc_val kwargs pv out pv' :
  store_wf pv →
  get_depends name inc_id inc_val kwargs pv = Ok (out, pv') →
  ∃ pv'', get_depends name inc_id inc_val kwargs pv' = Ok (out, pv'') ∧
          (∀ p, pv'' p = pv' p) ∧
          defns (out, pv'') = defns (out, pv').
Proof.
  intros Hwf H. pose proof (get_depends_rec_wf _ _ _ _ _ _ _ _ Hwf H) as Hwf'.
  destruct (get_depends_rec_store_indep _ _ _ _ _ _ _ _ _ Hwf Hwf' H) as [pv'' H'].
  exists pv''. split; [exact H'|].
  destruct (get_depends_rec_effect _ _ _ _ _ _ _ _ Hwf H) as [_ Hs].
  destruct (get_depends_rec_effect _ _ _ _ _ _ _ _ Hwf' H') as [_ Hs'].
  assert (Heq : ∀ p, pv'' p = pv' p).
  { intros p. rewrite Hs', Hs. destruct (refers p out); [apply set_vals_idemp | done]. }
  split; [exact Heq|]. unfold defns. simpl. apply list_fmap_ext.
  intros i [d|p] _; simpl; [done | apply Heq].
Qed.

Lemma get_depends_idempotent_witness :
  ∃ out pv' pv'',
    store_wf PREDEFINED_VARS ∧
    get_depends "master_gamma" true true example_kwargs PREDEFINED_VARS = Ok (out, pv') ∧
    get_depends "master_gamma" true true example_kwargs pv' = Ok (out, pv'') ∧
    (∀ p, pv'' p = pv' p) ∧
    defns (out, pv'') = defns (out, pv').
Proof.
  pose proof (eq_refl :
    (if get_depends "master_gamma" true true example_kwargs PREDEFINED_VARS is Ok r
     then true else false) = true) as X.
  destruct (get_depends _ _ _ _ _) as [[out pv']|e] eqn:E; [|discriminate X].
  destruct (get_depends_idempotent _ _ _ _ _ _ _ PREDEFINED_VARS_wf E) as (pv'' & H1 & H2 & H3).
  exists out, pv', pv''. repeat split; [apply PREDEFINED_VARS_wf | exact H1 | exact H2 | exact H3].
Defined.

Lemma obj_name_deref pv o : store_wf pv → py_get (deref pv o) "name" = obj_name o.
Proof.
  intros Hwf. destruct o as [d|p]; simpl; [done|].
  unfold py_get. rewrite store_wf_lookup by done. by destruct p.
Qed.

Lemma names_defns out pv : store_wf pv → names (defns (out, pv)) = obj_name <$> out.
Proof.
  intros Hwf. unfold names, defns. simpl. rewrite <- list_fmap_compose.
  apply list_fmap_ext. intros i o _. by apply obj_name_deref.
Qed.

Lemma series_id_defn_name inc_id name :
  series_id_defn inc_id name !! "name" = Some (PStr name).
Proof. by destruct inc_id. Qed.

(** An element of another name, or of none, does not satisfy the conditions
    a definition makes. *)
Lemma dict_matches_other_name (d el : dict) n :
  d !! "name" = Some (PStr n) → py_get el "name" ≠ PStr n → dict_matches d el = false.
Proof.
  intros Hd Hel. apply bool_decide_eq_false. intros HF.
  specialize (HF "name" (PStr n)). rewrite lookup_delete_ne in HF by done.
  specialize (HF Hd). unfold key_matches, py_get in *.
  destruct (el !! "name") as [w|]; [|done]. by apply py_eqb_str in HF as ->.
Qed.

(** [finish] with a definition whose name is not among those of the list
    appends it. *)
Lemma finish_names iv (d : dict) (out : list obj) pv n :
  store_wf pv →
  d !! "name" = Some (PStr n) →
  PStr n ∉ obj_name <$> out →
  obj_name <$> (finish iv d out pv).1 = (obj_name <$> out) ++ [PStr n].
Proof.
  intros Hwf Hd Hn. unfold finish.
  assert (dict_from_list (deref pv <$> out) d = None) as ->.
  { unfold dict_from_list. induction out as [|o out IH]; simpl; [done|].
    apply not_elem_of_cons in Hn as [Hne Hn].
    rewrite (dict_matches_other_name d _ n Hd); [by apply IH|].
    by rewrite obj_name_deref. }
  rewrite vals_loop_fst, <- list_fmap_compose, fmap_app.
  f_equal.
  - apply list_fmap_ext. intros i [e|p] _; simpl; [|done].
    unfold py_get. by rewrite set_vals_lookup_ne.
  - simpl. unfold py_get. by rewrite set_vals_lookup_ne, Hd.
Qed.

Lemma not_elem_of_names n (l : list pyval) :
  existsb (λ v, py_eqb v (PStr n)) l = false → PStr n ∉ l.
Proof.
  induction l as [|v l IH]; simpl; intros H Hin; [by apply elem_of_nil in Hin|].
  apply orb_false_iff in H as [Hv Hl].
  apply elem_of_cons in Hin as [Heq|Hin]; [|by apply IH].
  symmetry in Heq. apply py_eqb_str in Heq. congruence.
Qed.

Lemma get_depends_rec_names fuel : ∀ name inc_id iv kwargs pv out pv',
  store_wf pv →
  get_depends_rec fuel name inc_id iv kwargs pv = Ok (out, pv') →
  obj_name <$> out = PStr <$> resolved_names name.
Proof.
  induction fuel as [|fuel IH]; intros name inc_id iv kwargs pv out pv' Hwf H; [discriminate|].
  rewrite get_depends_rec_S in H. unfold get_depends_body in H.
  destruct (negb _); [discriminate|].
  bind_ok H. destruct a as [[d out0] pv0]. injection H as H.
  apply (f_equal fst) in H. simpl in H. subst out.
  unfold resolved_names.
  repeat case_decide; run_ok; subst;
    repeat match goal with
    | Hw : store_wf ?pv, H : get_depends_rec _ _ _ _ _ ?pv = Ok (_, _) |- _ =>
        pose proof (get_depends_rec_wf _ _ _ _ _ _ _ _ Hw H);
        apply (IH _ _ _ _ _ _ _ Hw) in H
    end.
  all: rewrite ?app_nil_r, <- ?app_assoc.
  all: erewrite finish_names;
    [| done
     | by destruct inc_id; repeat case_match; rewrite ?lookup_insert_ne by done
     | ].
  all: rewrite ?fmap_app;
    repeat match goal with H : obj_name <$> _ = _ |- _ => rewrite H; clear H end;
    cbn [fmap list_fmap obj_name]; unfold py_get; rewrite ?series_id_defn_name.
  all: try (vm_compute; reflexivity).
  all: apply not_elem_of_names; vm_compute; reflexivity.
Qed.

(** X2: the definitions a call returns are, by name and in order, those of
    the dependency table [resolved_names]: the prerequisites in the order
    the branch of the compute lists them, nested results unfolded in place
    and never merged, then the compute itself.  [master_gamma] returns 35
    definitions, the three series-index definitions seven times over. *)
Theorem get_depends_names name inc_id inc_val kwargs pv out pv' :
  store_wf pv →
  get_depends name inc_id inc_val kwargs pv = Ok (out, pv') →
  names (defns (out, pv')) = PStr <$> resolved_names name.
Proof.
  intros Hwf H. rewrite names_defns by exact (get_depends_rec_wf _ _ _ _ _ _ _ _ Hwf H).
  exact (get_depends_rec_names _ _ _ _ _ _ _ _ Hwf H).
Qed.

Lemma get_depends_names_witness :
  ∃ out pv',
    store_wf PREDEFINED_VARS ∧
    get_depends "master_gamma" false true example_kwargs PREDEFINED_VARS = Ok (out, pv') ∧
    names (defns (out, pv')) = PStr <$> resolved_names "master_gamma" ∧
    length (resolved_names "master_gamma") = 35%nat.
Proof.
  pose proof (eq_refl :
    (if get_depends "master_gamma" false true example_kwargs PREDEFINED_VARS is Ok r
     then true else false) = true) as X.
  destruct (get_depends _ _ _ _ _) as [[out pv']|e] eqn:E; [|discriminate X].
  exists out, pv'. split; [apply PREDEFINED_VARS_wf|]. split; [reflexivity|].
  split; [|reflexivity].
  exact (get_depends_names _ _ _ _ _ _ _ PREDEFINED_VARS_wf E).
Defined.

Lemma py_item_None (d : dict) k : d !! k = None → py_item d k = Raise (KeyError k).
Proof. unfold py_item. by intros ->. Qed.

(** Reads of keyword arguments that are given succeed, the first one that
    is missing raises. *)
Ltac read_kwargs kwargs :=
  repeat match goal with
  | H : is_Some (kwargs !! ?k) |- context [py_item kwargs ?k] =>
      let v := fresh "v" in
      let Hv := fresh "Hv" in
      let Hk := fresh "Hk" in
      destruct (py_item_ok kwargs k H) as (v & Hv & Hk); rewrite Hv; clear H;
      cbn [mbind result_bind]
  | H : kwargs !! ?k = None |- context [py_item kwargs ?k] =>
      rewrite (py_item_None kwargs k H); reflexivity
  end.

(** X3: a registered compute reads its keyword arguments in a fixed order
    before anything else; the first one that is not given raises
    [KeyError] with its name. *)
Theorem get_depends_missing_kwarg name inc_id inc_val kwargs pv l1 k l2 :
  name ∈ allowed_computes →
  required_kwargs name = l1 ++ k :: l2 →
  Forall (λ k', is_Some (kwargs !! k')) l1 →
  kwargs !! k = None →
  get_depends name inc_id inc_val kwargs pv = Raise (KeyError k).
Proof.
  intros Hin Hreq Hl1 Hk. unfold get_depends.
  rewrite get_depends_rec_S. unfold get_depends_body.
  rewrite bool_decide_eq_true_2 by done. cbn [negb].
  unfold required_kwargs in Hreq.
  repeat case_decide; try subst name; try (by destruct l1).
  all: repeat (destruct l1 as [|? l1];
         [ injection Hreq as <- <-
         | injection Hreq as <- Hreq; apply Forall_cons in Hl1 as [? Hl1] ]);
       try (by destruct l1).
  all: read_kwargs kwargs.
Qed.

Lemma get_depends_missing_kwarg_witness :
  "gb_energy" ∈ allowed_computes ∧
  required_kwargs "gb_energy" = ["energy_src"; "opt_step"] ++ "series_id" :: ["unit"] ∧
  get_depends "gb_energy" true true
    {[ "energy_src" := PStr "final_energy"; "opt_step" := PNone ]} PREDEFINED_VARS =
    Raise (KeyError "series_id").
Proof.
  assert (H : "gb_energy" ∈ allowed_computes).
  { apply (bool_decide_unpack _). vm_compute. exact I. }
  split; [exact H|]. split; [reflexivity|].
  apply (get_depends_missing_kwarg "gb_energy" true true _ PREDEFINED_VARS
           ["energy_src"; "opt_step"] "series_id" ["unit"] H eq_refl).
  - repeat constructor; by eexists.
  - reflexivity.
Defined.

Lemma finish_id_ok inc_id iv (d : dict) (out : list obj) pv :
  Forall (id_ok inc_id) out → id_ok inc_id (Own d) →
  Forall (id_ok inc_id) (finish iv d out pv).1.
Proof.
  intros Hout Hd. unfold finish. rewrite vals_loop_fst.
  apply Forall_fmap.
  assert (Hall : Forall (id_ok inc_id) (if dict_from_list (deref pv <$> out) d is None
                                       then out ++ [Own d] else out)).
  { destruct (dict_from_list _ _); [done|]. apply Forall_app. by repeat constructor. }
  eapply Forall_impl; [exact Hall|].
  intros [e|p] He; simpl in *; [|done]. by rewrite !set_vals_lookup_ne.
Qed.

Lemma series_id_defn_id_ok inc_id name : id_ok inc_id (Own (series_id_defn inc_id name)).
Proof. by destruct inc_id. Qed.

Lemma get_depends_rec_id_ok fuel : ∀ name inc_id iv kwargs pv out pv',
  get_depends_rec fuel name inc_id iv kwargs pv = Ok (out, pv') →
  Forall (id_ok inc_id) out.
Proof.
  induction fuel as [|fuel IH]; intros name inc_id iv kwargs pv out pv' H; [discriminate|].
  rewrite get_depends_rec_S in H. unfold get_depends_body in H.
  destruct (negb _); [discriminate|].
  bind_ok H. destruct a as [[d out0] pv0]. injection H as H.
  apply (f_equal fst) in H. simpl in H. subst out.
  apply finish_id_ok;
    repeat case_decide; run_ok; subst;
    repeat match goal with
    | H : get_depends_rec _ _ _ _ _ _ = Ok (_, _) |- _ => apply IH in H
    end;
    rewrite ?Forall_app; repeat split; try assumption;
    repeat constructor; try apply series_id_defn_id_ok.
  all: simpl; rewrite ?lookup_insert_ne by done; try (by destruct inc_id).
  all: by destruct inc_id; repeat case_match; rewrite ?lookup_insert_ne by done.
Qed.

(** X4: with [inc_id] true every definition the call makes has its name as
    [id], with [inc_id] false it has no [id]; the module-level definitions
    keep their [id] either way. *)
Theorem get_depends_ids name inc_id inc_val kwargs pv out pv' :
  store_wf pv →
  get_depends name inc_id inc_val kwargs pv = Ok (out, pv') →
  ∀ o, o ∈ out →
    deref pv' o !! "id" =
      match o with
      | Own d => if inc_id then d !! "name" else None
      | Shared p => Some (PStr (predef_name p))
      end.
Proof.
  intros Hwf H o Ho.
  pose proof (get_depends_rec_wf _ _ _ _ _ _ _ _ Hwf H) as Hwf'.
  pose proof (get_depends_rec_id_ok _ _ _ _ _ _ _ _ H) as Hid.
  rewrite Forall_forall in Hid. specialize (Hid o Ho).
  destruct o as [d|p]; simpl in *; [exact Hid|].
  rewrite store_wf_lookup by done. by destruct p.
Qed.

Lemma get_depends_ids_witness :
  ∃ out pv',
    store_wf PREDEFINED_VARS ∧
    get_depends "atoms_gb_dist_change" false true ∅ PREDEFINED_VARS = Ok (out, pv') ∧
    Shared sup_type_var ∈ out ∧
    deref pv' (Shared sup_type_var) !! "id" = Some (PStr "supercell_type").
Proof.
  pose proof (eq_refl :
    (if get_depends "atoms_gb_dist_change" false true ∅ PREDEFINED_VARS is Ok r
     then refers sup_type_var r.1 else false) = true) as X.
  destruct (get_depends _ _ _ _ _) as [[out pv']|e] eqn:E; [|discriminate X].
  apply refers_elem_of in X.
  exists out, pv'. split; [apply PREDEFINED_VARS_wf|]. split; [reflexivity|].
  split; [exact X|].
  exact (get_depends_ids _ _ _ _ _ _ _ PREDEFINED_VARS_wf E _ X).
Defined.

(** X5: a call changes the module-level dicts in their [vals] key only,
    and only those the returned list refers to. *)
Theorem get_depends_frame name inc_id inc_val kwargs pv out pv' :
  store_wf pv →
  get_depends name inc_id inc_val kwargs pv = Ok (out, pv') →
  store_wf pv' ∧
  ∀ p, (Shared p ∉ out → pv' p = pv p) ∧
       (∀ k, k ≠ "vals" → pv' p !! k = pv p !! k).
Proof.
  intros Hwf H.
  pose proof (get_depends_rec_wf _ _ _ _ _ _ _ _ Hwf H) as Hwf'.
  split; [exact Hwf'|]. intros p. split.
  - intros Hp. destruct (get_depends_rec_effect _ _ _ _ _ _ _ _ Hwf H) as [_ Hs].
    rewrite Hs. destruct (refers p out) eqn:E; [|done].
    by apply refers_elem_of in E.
  - intros k Hk. by rewrite (store_wf_lookup pv'), (store_wf_lookup pv).
Qed.

Lemma get_depends_frame_witness :
  ∃ out pv',
    store_wf PREDEFINED_VARS ∧
    get_depends "gb_energy" true true example_kwargs PREDEFINED_VARS = Ok (out, pv') ∧
    store_wf pv' ∧
    ∀ p, (Shared p ∉ out → pv' p = PREDEFINED_VARS p) ∧
         (∀ k, k ≠ "vals" → pv' p !! k = PREDEFINED_VARS p !! k).
Proof.
  pose proof (eq_refl :
    (if get_depends "gb_energy" true true example_kwargs PREDEFINED_VARS is Ok r
     then true else false) = true) as X.
  destruct (get_depends _ _ _ _ _) as [[out pv']|e] eqn:E; [|discriminate X].
  exists out, pv'. split; [apply PREDEFINED_VARS_wf|]. split; [reflexivity|].
  exact (get_depends_frame _ _ _ _ _ _ _ PREDEFINED_VARS_wf E).
Defined.

(** X6: the lists share the module-level dicts: when a call with [inc_val]
    false returns a module-level definition that a list returned earlier
    with [inc_val] true refers to, the [vals] key seen through the earlier
    list is gone. *)
Theorem get_depends_aliasing n1 id1 kw1 n2 id2 kw2 pv out1 pv1 out2 pv2 p :
  store_wf pv →
  get_depends n1 id1 true kw1 pv = Ok (out1, pv1) →
  get_depends n2 id2 false kw2 pv1 = Ok (out2, pv2) →
  Shared p ∈ out1 → Shared p ∈ out2 →
  is_Some (deref pv1 (Shared p) !! "vals") ∧ deref pv2 (Shared p) !! "vals" = None.
Proof.
  intros Hwf H1 H2 Hp1 Hp2.
  pose proof (get_depends_rec_wf _ _ _ _ _ _ _ _ Hwf H1) as Hwf1.
  destruct (get_depends_rec_effect _ _ _ _ _ _ _ _ Hwf H1) as [_ Hs1].
  destruct (get_depends_rec_effect _ _ _ _ _ _ _ _ Hwf1 H2) as [_ Hs2].
  apply refers_elem_of in Hp1, Hp2. simpl. split.
  - rewrite Hs1, Hp1, set_vals_true_lookup by apply Hwf. eauto.
  - rewrite Hs2, Hp2. apply set_vals_false_lookup, Hwf1.
Qed.

Lemma get_depends_aliasing_witness :
  ∃ out1 pv1 out2 pv2,
    store_wf PREDEFINED_VARS ∧
    get_depends "gb_energy" true true example_kwargs PREDEFINED_VARS = Ok (out1, pv1) ∧
    get_depends "atoms_gb_dist_change" false false ∅ pv1 = Ok (out2, pv2) ∧
    Shared sup_type_var ∈ out1 ∧ Shared sup_type_var ∈ out2 ∧
    is_Some (deref pv1 (Shared sup_type_var) !! "vals") ∧
    deref pv2 (Shared sup_type_var) !! "vals" = None.
Proof.
  pose proof (eq_refl :
    (if get_depends "gb_energy" true true example_kwargs PREDEFINED_VARS is Ok r1
     then if get_depends "atoms_gb_dist_change" false false ∅ r1.2 is Ok r2
          then refers sup_type_var r1.1 && refers sup_type_var r2.1 else false
     else false) = true) as X.
  destruct (get_depends "gb_energy" _ _ _ _) as [[out1 pv1]|e] eqn:E1; [|discriminate X].
  cbn [snd fst] in X.
  destruct (get_depends "atoms_gb_dist_change" false false ∅ pv1) as [[out2 pv2]|e] eqn:E2;
    [|discriminate X].
  apply andb_prop in X as [X1 X2]. apply refers_elem_of in X1, X2.
  exists out1, pv1, out2, pv2.
  split; [apply PREDEFINED_VARS_wf|]. split; [reflexivity|]. split; [exact E2|].
  split; [exact X1|]. split; [exact X2|].
  exact (get_depends_aliasing _ _ _ _ _ _ _ _ _ _ _ _ PREDEFINED_VARS_wf E1 E2 X1 X2).
Defined.

(** ** The computes that call [is_bicrystal] *)

(** X7: [is_bicrystal] has no [return] for a structure with [meta] whose
    supercell types do not include [bicrystal]: the call returns [None].
    [gb_area], [gb_boundary_vac], [gb_thickness] and [atoms_gb_dist_initial]
    test the value for truth, so they return [None] there, as for the
    [False] of a legacy structure, and the attribute of the structure when
    [is_bicrystal] returns [True]. *)
Theorem bicrystal_computes_spec out sim structure sim_idx :
  (∀ supercell_type,
     structure_meta_supercell_type sim = Some supercell_type →
     "bicrystal" ∉ supercell_type →
     is_bicrystal sim = PNone) ∧
  (is_bicrystal sim ≠ PBool true →
     gb_area out sim structure sim_idx = PNone ∧
     gb_boundary_vac out sim structure sim_idx = PNone ∧
     gb_thickness out sim structure sim_idx = PNone ∧
     atoms_gb_dist_initial out sim structure sim_idx = PNone) ∧
  (is_bicrystal sim = PBool true →
     gb_area out sim structure sim_idx = boundary_area structure ∧
     gb_boundary_vac out sim structure sim_idx = boundary_vac structure ∧
     gb_thickness out sim structure sim_idx = bicrystal_thickness structure ∧
     atoms_gb_dist_initial out sim structure sim_idx = atoms_gb_dist structure).
Proof.
  unfold gb_area, gb_boundary_vac, gb_thickness, atoms_gb_dist_initial.
  split; [|split].
  - intros st Hm Hn. unfold is_bicrystal. rewrite Hm.
    by rewrite bool_decide_eq_false_2.
  - intros Hb.
    assert (H : truthy (is_bicrystal sim) = false); [|by rewrite H].
    revert Hb. unfold is_bicrystal.
    destruct (structure_meta_supercell_type sim) as [st|].
    + by case_bool_decide.
    + by case_decide.
  - by intros ->.
Qed.

Lemma bicrystal_computes_spec_witness :
  let out := {| variables := []; series_name := []; series_id_val := [];
                session_id := []; session_id_idx := [] |} in
  let sim supercell_type :=
    {| structure_meta_supercell_type := Some [supercell_type];
       options_base_structure_type := ""; options_method := "lammps";
       results := ∅ |} in
  let structure := {| boundary_area := PFloat 12; boundary_vac := PFloat (1 # 5);
                      bicrystal_thickness := PFloat 30; atoms_gb_dist := PList [] |} in
  is_bicrystal (sim "bulk") = PNone ∧
  gb_area out (sim "bulk") structure 0 = PNone ∧
  gb_area out (sim "bicrystal") structure 0 = PFloat 12.
Proof.
  intros out sim structure.
  pose proof (bicrystal_computes_spec out (sim "bulk") structure 0) as (H1 & H2 & _).
  pose proof (bicrystal_computes_spec out (sim "bicrystal") structure 0) as (_ & _ & H3).
  split; [|split].
  - apply (H1 ["bulk"] eq_refl). apply (bool_decide_unpack _). vm_compute. exact I.
  - apply H2. discriminate.
  - apply H3. reflexivity.
Defined.

(** ** [supercell_type] *)

(** X8: [supercell_type] and [is_bicrystal] agree on what a bicrystal is as
    far as this: a simulation whose supercell type is [bicrystal] is a
    bicrystal for [is_bicrystal]; for a structure without [meta] the converse
    holds as well, and a base structure type outside the compatibility table
    is a [KeyError] for [supercell_type] while [is_bicrystal] returns
    [False]. *)
Theorem supercell_type_is_bicrystal out sim sim_idx :
  (supercell_type out sim sim_idx = Ok "bicrystal" → is_bicrystal sim = PBool true) ∧
  (structure_meta_supercell_type sim = None →
     (is_bicrystal sim = PBool true → supercell_type out sim sim_idx = Ok "bicrystal") ∧
     (COMPATIBILITY_LOOKUP !! options_base_structure_type sim = None →
        supercell_type out sim sim_idx = Raise (KeyError (options_base_structure_type sim)) ∧
        is_bicrystal sim = PBool false)).
Proof.
  unfold supercell_type, is_bicrystal.
  destruct (structure_meta_supercell_type sim) as [st|]; (split; [|try done]).
  - intros H. rewrite bool_decide_eq_true_2; [done|].
    destruct st as [|t st]; [discriminate|]. injection H as ->. apply elem_of_cons. by left.
  - case_decide as Ht; [done|]. intros H.
    destruct (COMPATIBILITY_LOOKUP !! options_base_structure_type sim) as [t|] eqn:E;
      [|discriminate].
    injection H as ->. exfalso. apply Ht.
    unfold COMPATIBILITY_LOOKUP in E.
    repeat (apply lookup_insert_Some in E as [[? ?]|[? E]]; [congruence|]).
    apply lookup_singleton_Some in E as [? ?]. congruence.
  - intros _. split.
    + case_decide as Ht; [|discriminate]. intros _. by rewrite Ht.
    + intros E. rewrite E. split; [done|]. case_decide as Ht; [|done].
      by rewrite Ht in E.
Qed.

Lemma supercell_type_is_bicrystal_witness :
  let out := {| variables := []; series_name := []; series_id_val := [];
                session_id := []; session_id_idx := [] |} in
  let legacy type := {| structure_meta_supercell_type := None;
                        options_base_structure_type := type; options_method := "lammps";
                        results := ∅ |} in
  supercell_type out (legacy "CSLBicrystal") 0 = Ok "bicrystal" ∧
  is_bicrystal (legacy "CSLBicrystal") = PBool true ∧
  supercell_type out (legacy "Bicrystal") 0 = Raise (KeyError "Bicrystal") ∧
  is_bicrystal (legacy "Bicrystal") = PBool false.
Proof.
  intros out legacy.
  pose proof (supercell_type_is_bicrystal out (legacy "CSLBicrystal") 0) as [H1 H2].
  pose proof (supercell_type_is_bicrystal out (legacy "Bicrystal") 0) as [_ H3].
  split; [reflexivity|]. split; [exact (H1 eq_refl)|].
  exact (proj2 (H3 eq_refl) eq_refl).
Defined.

(** ** [energy_per_atom] *)

Lemma set_vals_false_None (d : dict) : d !! "vals" = None → set_vals false d = d.
Proof. intros H. unfold set_vals, py_get. by rewrite H. Qed.

Lemma energy_defn_name energy_src opt_step :
  energy_defn energy_src opt_step !! "name" = Some (PStr "energy").
Proof. unfold energy_defn. by destruct (negb _). Qed.

Lemma energy_defn_vals energy_src opt_step : energy_defn energy_src opt_step !! "vals" = None.
Proof. unfold energy_defn. by destruct (negb _). Qed.

Lemma energy_kwargs_lookup (energy_src opt_step : pyval) :
  let kwargs : dict := {[ "energy_src" := energy_src; "opt_step" := opt_step ]} in
  kwargs !! "energy_src" = Some energy_src ∧ kwargs !! "opt_step" = Some opt_step.
Proof. split; by simplify_map_eq. Qed.

(** The definitions [energy_per_atom] re-resolves are its own: the
    module-level dicts are not among them. *)
Lemma get_depends_energy_per_atom energy_src opt_step pv :
  ∃ d : dict,
    get_depends "energy_per_atom" false false
      {[ "energy_src" := energy_src; "opt_step" := opt_step ]} pv =
      Ok ([Own num_atoms_defn; Own (energy_defn energy_src opt_step); Own d], pv).
Proof.
  unfold get_depends. rewrite get_depends_rec_S. unfold get_depends_body at 1. pick_branch.
  destruct (energy_kwargs_lookup energy_src opt_step) as [Hes Hos].
  unfold py_item. rewrite Hes, Hos.
  cbn [mbind result_bind].
  assert (get_depends_rec 2 "num_atoms" false false ∅ pv = Ok ([Own num_atoms_defn], pv)) as ->.
  { rewrite get_depends_rec_S. unfold get_depends_body. pick_branch. reflexivity. }
  cbn [mbind result_bind].
  assert (get_depends_rec 2 "energy" false false
            {[ "energy_src" := energy_src; "opt_step" := opt_step ]} pv =
          Ok ([Own (energy_defn energy_src opt_step)], pv)) as ->.
  { rewrite get_depends_rec_S. unfold get_depends_body. pick_branch.
    unfold py_item, py_get. rewrite Hes, Hos.
    cbn [mbind result_bind default]. unfold finish. cbn [fmap list_fmap dict_from_list find app].
    cbn [vals_loop]. fold (energy_defn energy_src opt_step).
    by rewrite set_vals_false_None by apply energy_defn_vals. }
  cbn [mbind result_bind app].
  eexists. erewrite (finish_fresh _ _ _ _ "energy_per_atom"); cycle 1.
  - by rewrite !lookup_insert_ne by done.
  - repeat constructor; simpl; eexists; (split; [first [apply energy_defn_name | reflexivity] | done]).
  - cbn [vals_loop app]. rewrite !set_vals_false_None;
      [reflexivity | by rewrite !lookup_insert_ne by done | apply energy_defn_vals | done].
Qed.

(** X9: with the variables for [num_atoms] and for [energy] (same
    [energy_src], and [opt_step] unless it is [None]) found among
    [out['variables']], [energy_per_atom] returns the energy at [sim_idx]
    divided by the number of atoms at [sim_idx], as a float; a number of
    atoms of zero raises [ZeroDivisionError], a value that is not a number
    [TypeError].  The definitions it re-resolves are its own: the
    module-level dicts stay as they were. *)
Theorem energy_per_atom_spec out sim sim_idx energy_src opt_step pv vn ve n e :
  let vrs := deref pv <$> variables out in
  dict_from_list vrs num_atoms_defn = Some vn →
  dict_from_list vrs (energy_defn energy_src opt_step) = Some ve →
  vals_at (Some vn) sim_idx = Ok n →
  vals_at (Some ve) sim_idx = Ok e →
  energy_per_atom out sim sim_idx energy_src opt_step pv =
    match as_num e, as_num n with
    | Some x, Some y =>
        if Qeq_bool y 0 then Raise ZeroDivisionError else Ok (PFloat (x / y), pv)
    | _, _ => Raise TypeError
    end.
Proof.
  intros vrs Hn He Hvn Hve. unfold energy_per_atom.
  destruct (get_depends_energy_per_atom energy_src opt_step pv) as [d ->].
  cbn [mbind result_bind fmap list_fmap deref]. fold vrs. rewrite Hn, He.
  change (list_item (?a :: _) 0) with (Ok a).
  change (list_item (_ :: ?a :: _) 1) with (Ok a).
  cbn [mbind result_bind]. rewrite Hvn, Hve. cbn [mbind result_bind].
  unfold py_truediv. destruct (as_num e), (as_num n); try done.
  by destruct (Qeq_bool _ _).
Qed.

Lemma energy_per_atom_spec_witness :
  let var name vals : dict :=
    {[ "type" := PStr "compute"; "name" := PStr name; "id" := PStr name; "vals" := vals ]} in
  let out :=
    {| variables :=
         [ Own (<["energy_src" := PStr "final_energy"]>
                  (var "energy" (PList [PFloat (-500); PFloat (-510)])));
           Own (var "num_atoms" (PList [PInt 100; PInt 0])) ];
       series_name := []; series_id_val := []; session_id := []; session_id_idx := [] |} in
  let sim :=
    {| structure_meta_supercell_type := Some ["bulk"];
       options_base_structure_type := ""; options_method := "lammps"; results := ∅ |} in
  energy_per_atom out sim 0 (PStr "final_energy") PNone PREDEFINED_VARS =
    Ok (PFloat (-500 / 100), PREDEFINED_VARS) ∧
  energy_per_atom out sim 1 (PStr "final_energy") PNone PREDEFINED_VARS =
    Raise ZeroDivisionError.
Proof.
  intros var out sim. split.
  - exact (energy_per_atom_spec out sim 0 (PStr "final_energy") PNone PREDEFINED_VARS
             _ _ (PInt 100) (PFloat (-500)) eq_refl eq_refl eq_refl eq_refl).
  - exact (energy_per_atom_spec out sim 1 (PStr "final_energy") PNone PREDEFINED_VARS
             _ _ (PInt 0) (PFloat (-510)) eq_refl eq_refl eq_refl eq_refl).
Defined.

(** ** [atoms_gb_dist_change] and the variables of the output *)

Lemma dict_from_list_None_names (lst : list obj) pv (d : dict) n :
  store_wf pv → d !! "name" = Some (PStr n) →
  Forall (λ o, obj_name o ≠ PStr n) lst →
  dict_from_list (deref pv <$> lst) d = None.
Proof.
  intros Hwf Hd Hl. unfold dict_from_list.
  induction Hl as [|o lst Ho _ IH]; simpl; [done|].
  rewrite (dict_matches_other_name d _ n Hd); [exact IH|].
  by rewrite obj_name_deref.
Qed.

Lemma dict_from_list_skip (l l' : list dict) (d : dict) :
  Forall (λ el, dict_matches d el = false) l →
  dict_from_list (l ++ l') d = dict_from_list l' d.
Proof.
  unfold dict_from_list. induction 1 as [|el l Hel _ IH]; simpl; [done|]. by rewrite Hel.
Qed.

Lemma dict_matches_PREDEFINED_VARS p :
  dict_matches (PREDEFINED_VARS p) (PREDEFINED_VARS p) = true.
Proof. by destruct p. Qed.

(** X10: when [out['variables']] holds the module-level dict for
    [atoms_gb_dist_initial] itself, and no variable of that name before it,
    [atoms_gb_dist_change] raises [KeyError] for [vals]: its own call of
    [get_depends] with [inc_val] false has just deleted the key from that
    dict. *)
Theorem atoms_gb_dist_change_shared_variable out sim sim_idx pv l l' :
  store_wf pv →
  variables out = l ++ Shared gb_dist_initial_var :: l' →
  Forall (λ o, obj_name o ≠ PStr "atoms_gb_dist_initial") l →
  atoms_gb_dist_change out sim sim_idx pv = Raise (KeyError "vals").
Proof.
  intros Hwf Hv Hl.
  destruct (get_depends_ok "atoms_gb_dist_change" false false ∅ pv)
    as [[req pv'] Hget]; [registered | constructor |].
  pose proof (get_depends_rec_wf _ _ _ _ _ _ _ _ Hwf Hget) as Hwf'.
  destruct (get_depends_atoms_gb_dist_change _ _ _ Hwf Hget) as ([d ->] & E1 & E2 & E3).
  unfold atoms_gb_dist_change. rewrite Hget. cbn [mbind result_bind].
  cbn [fmap list_fmap deref]. rewrite Hv, E1, fmap_app, dict_from_list_skip; cycle 1.
  { apply Forall_fmap. eapply Forall_impl; [exact Hl|]. intros o Ho. simpl.
    apply (dict_matches_other_name _ _ "atoms_gb_dist_initial"); [done|].
    by rewrite obj_name_deref. }
  cbn [fmap list_fmap deref]. rewrite E1.
  unfold dict_from_list at 1. cbn [find]. rewrite dict_matches_PREDEFINED_VARS.
  reflexivity.
Qed.

Lemma atoms_gb_dist_change_shared_variable_witness :
  let out :=
    {| variables := [ Shared sup_type_var; Shared gb_dist_initial_var;
                      Shared gb_dist_final_var ];
       series_name := []; series_id_val := []; session_id := []; session_id_idx := [] |} in
  let sim :=
    {| structure_meta_supercell_type := Some ["bicrystal"];
       options_base_structure_type := ""; options_method := "lammps"; results := ∅ |} in
  ∃ req pv,
    get_depends "atoms_gb_dist_initial" true true ∅ PREDEFINED_VARS = Ok (req, pv) ∧
    store_wf pv ∧
    atoms_gb_dist_change out sim 0 pv = Raise (KeyError "vals").
Proof.
  intros out sim.
  destruct (get_depends_ok "atoms_gb_dist_initial" true true ∅ PREDEFINED_VARS)
    as [[req pv] Hget]; [registered | constructor |].
  pose proof (get_depends_rec_wf _ _ _ _ _ _ _ _ PREDEFINED_VARS_wf Hget) as Hwf.
  exists req, pv. split; [exact Hget|]. split; [exact Hwf|].
  apply (atoms_gb_dist_change_shared_variable out sim 0 pv [Shared sup_type_var]
           [Shared gb_dist_final_var] Hwf eq_refl).
  repeat constructor. discriminate.
Defined.

(** X11: the variables are looked up before the bicrystal test: without a
    variable named [atoms_gb_dist_initial] the call raises [TypeError] (the
    subscript of [None]) for every simulation, a bicrystal or not. *)
Theorem atoms_gb_dist_change_missing_variable out sim sim_idx pv :
  store_wf pv →
  Forall (λ o, obj_name o ≠ PStr "atoms_gb_dist_initial") (variables out) →
  atoms_gb_dist_change out sim sim_idx pv = Raise TypeError.
Proof.
  intros Hwf Hl.
  destruct (get_depends_ok "atoms_gb_dist_change" false false ∅ pv)
    as [[req pv'] Hget]; [registered | constructor |].
  pose proof (get_depends_rec_wf _ _ _ _ _ _ _ _ Hwf Hget) as Hwf'.
  destruct (get_depends_atoms_gb_dist_change _ _ _ Hwf Hget) as ([d ->] & E1 & E2 & E3).
  unfold atoms_gb_dist_change. rewrite Hget. cbn [mbind result_bind].
  cbn [fmap list_fmap deref].
  rewrite E1.
  rewrite (dict_from_list_None_names _ pv' (PREDEFINED_VARS gb_dist_initial_var)
             "atoms_gb_dist_initial" Hwf' eq_refl Hl).
  reflexivity.
Qed.

Lemma atoms_gb_dist_change_missing_variable_witness :
  let out :=
    {| variables := [ Shared sup_type_var; Shared gb_dist_final_var ];
       series_name := []; series_id_val := []; session_id := []; session_id_idx := [] |} in
  let sim :=
    {| structure_meta_supercell_type := None;
       options_base_structure_type := "BulkCrystal"; options_method := "lammps";
       results := ∅ |} in
  truthy (is_bicrystal sim) = false ∧
  atoms_gb_dist_change out sim 0 PREDEFINED_VARS = Raise TypeError.
Proof.
  intros out sim. split; [reflexivity|].
  apply (atoms_gb_dist_change_missing_variable out sim 0 PREDEFINED_VARS PREDEFINED_VARS_wf).
  repeat constructor; discriminate.
Defined.

(** ** More on [gb_energy] *)

Lemma mapM_length {A B} (f : A → result B) (l : list A) (l' : list B) :
  mapM f l = Ok l' → length l' = length l.
Proof.
  revert l'. induction l as [|x l IH]; intros l' H; simpl in H.
  - by injection H as <-.
  - bind_ok H. bind_ok H. injection H as <-. simpl. f_equal. by apply IH.
Qed.

(** What [gb_energy] reads, once more, by its parts. *)
Lemma gb_energy_inputs_inv out req_vars pv a :
  gb_energy_inputs out req_vars pv = Ok a →
  ∃ last series_id ids,
    list_item req_vars (-1) = Ok last ∧
    py_item last "series_id" = Ok series_id ∧
    py_iter series_id = Ok ids ∧
    gi_num_sims a = length (session_id_idx out) ∧
    (ids = [] → gi_srs_vals a = replicate (gi_num_sims a) [PInt 0]).
Proof.
  intros H. unfold gb_energy_inputs in H. bind_ok H.
  destruct a0 as [|e [|n [|ar [|st [|? ?]]]]]; try discriminate H.
  bind_ok H. rename a0 into last. bind_ok H. rename a0 into series_id.
  bind_ok H. bind_ok H. rename a1 into sesh_ids. bind_ok H. rename a1 into ids.
  bind_ok H. bind_ok H. bind_ok H. injection H as <-. simpl.
  exists last, series_id, ids. repeat split; try done.
  - by eapply mapM_length.
  - intros ->. simpl in *. injection Ha5 as <-. simpl in *. by injection Ha6 as <-.
Qed.

(** X12: the list [gb_energy] assigns has one entry per simulation
    ([out['session_id_idx']] has one index per simulation), and the entry of
    every simulation that is not a bicrystal is [None]. *)
Theorem gb_energy_shape out req_vars pv a vals :
  gb_energy_inputs out req_vars pv = Ok a →
  gb_energy out req_vars pv = Ok vals →
  length vals = length (session_id_idx out) ∧
  ∀ i : nat, (i < length vals)%nat →
    gi_sup_type a !! i ≠ Some (PStr "bicrystal") → vals !! i = Some PNone.
Proof.
  intros Ha H.
  destruct (gb_energy_inputs_inv _ _ _ _ Ha) as (? & ? & ? & _ & _ & _ & Hn & _).
  unfold gb_energy in H. rewrite Ha in H. cbn [mbind result_bind] in H.
  pose proof (partition_idx_elem 0 (gi_sup_type a)) as [Hel1 _].
  pose proof (partition_idx_sorted 0 (gi_sup_type a)) as [Hs1 _].
  destruct (partition_idx 0 (gi_sup_type a)) as [gb_idx bulk_idx]. simpl in *.
  apply gb_loop_spec in H as (Hlen & Hout & _); [|done|].
  - rewrite length_replicate in Hlen. split; [congruence|].
    intros i Hi Hnb. rewrite Hout.
    + apply lookup_replicate_2. lia.
    + intros Hin. apply Hel1 in Hin as (k & Hk & Hb). apply Hnb.
      by replace i with k by lia.
  - apply Forall_forall. intros i Hi. apply Hel1 in Hi as (k & -> & _). lia.
Qed.

Lemma gb_energy_shape_witness :
  ∃ a vals,
    gb_energy_inputs (example_out 1 1) (example_pair "J/m^2") PREDEFINED_VARS = Ok a ∧
    gb_energy (example_out 1 1) (example_pair "J/m^2") PREDEFINED_VARS = Ok vals ∧
    length vals = 2%nat ∧ vals !! 0%nat = Some PNone.
Proof.
  pose proof (eq_refl :
    (if gb_energy_inputs (example_out 1 1) (example_pair "J/m^2") PREDEFINED_VARS is Ok a
     then if gb_energy (example_out 1 1) (example_pair "J/m^2") PREDEFINED_VARS is Ok vals
          then true else false else false) = true) as X.
  destruct (gb_energy_inputs _ _ _) as [a|] eqn:Ea; [|discriminate X].
  destruct (gb_energy _ _ _) as [vals|] eqn:Ev; [|discriminate X].
  exists a, vals. split; [reflexivity|]. split; [reflexivity|].
  destruct (gb_energy_shape _ _ _ _ _ Ea Ev) as [Hlen Hv].
  split; [exact Hlen|]. apply Hv.
  - rewrite Hlen. simpl. lia.
  - assert (gi_sup_type a !! 0%nat = Some (PStr "bulk")) as ->; [|discriminate].
    assert (Ok a = gb_energy_inputs (example_out 1 1) (example_pair "J/m^2") PREDEFINED_VARS)
      as Ha by (by rewrite Ea).
    vm_compute in Ha. by injection Ha as ->.
Defined.

Lemma list_item_replicate {A} (x : A) (n i : nat) :
  (i < n)%nat → list_item (replicate n x) (Z.of_nat i) = Ok x.
Proof.
  intros Hi. unfold list_item. rewrite length_replicate.
  destruct (Z.of_nat i <? 0)%Z eqn:E1; [lia|].
  destruct ((Z.of_nat i <? 0) || (Z.of_nat n <=? Z.of_nat i))%Z eqn:E2; [lia|].
  by rewrite Nat2Z.id, lookup_replicate_2.
Qed.

(** X13: with an empty [series_id] every simulation gets the same series
    tuple, [[0]], so all simulations form one group: each bicrystal is
    computed against the last bulk simulation of the whole harvest. *)
Theorem gb_energy_no_series out req_vars pv a vals last (gb_i bulk_i : nat) :
  gb_energy_inputs out req_vars pv = Ok a →
  gb_energy out req_vars pv = Ok vals →
  list_item req_vars (-1) = Ok last →
  last !! "series_id" = Some (PList []) →
  length (gi_sup_type a) = gi_num_sims a →
  gi_sup_type a !! gb_i = Some (PStr "bicrystal") →
  gi_sup_type a !! bulk_i = Some (PStr "bulk") →
  (∀ j : nat, (bulk_i < j)%nat → gi_sup_type a !! j ≠ Some (PStr "bulk")) →
  ∃ E E', gb_formula a (Z.of_nat gb_i) (Z.of_nat bulk_i) = Ok E ∧
          scaled a E = Ok E' ∧
          vals !! gb_i = Some E'.
Proof.
  intros Ha H Hlast Hsid Hlen Hgb Hbulk Hafter.
  destruct (gb_energy_inputs_inv _ _ _ _ Ha) as (last' & sid & ids & Hl & Hs & Hi & _ & Hsrs).
  rewrite Hlast in Hl. injection Hl as <-.
  unfold py_item in Hs. rewrite Hsid in Hs. injection Hs as <-.
  injection Hi as <-. specialize (Hsrs eq_refl).
  destruct (gb_energy_at _ _ _ _ _ _ Ha H Hgb) as (bulk_idx & Hsort & Hel & Hv).
  rewrite (last_match_Some _ _ _ (Z.of_nat bulk_i)) in Hv; [exact Hv | done | ..].
  - apply Hel. eauto.
  - unfold is_match, same_series. rewrite Hsrs.
    apply lookup_lt_Some in Hgb, Hbulk.
    rewrite !list_item_replicate by lia. reflexivity.
  - intros j Hj Hlt. apply Hel in Hj as (k & -> & Hk).
    exfalso. apply (Hafter k); [lia | done].
Qed.

Lemma gb_energy_no_series_witness :
  ∃ a vals last E E',
    gb_energy_inputs example_out3 example_triple PREDEFINED_VARS = Ok a ∧
    gb_energy example_out3 example_triple PREDEFINED_VARS = Ok vals ∧
    list_item example_triple (-1) = Ok last ∧
    gb_formula a 2 1 = Ok E ∧ scaled a E = Ok E' ∧ vals !! 2%nat = Some E'.
Proof.
  pose proof (eq_refl :
    (if gb_energy_inputs example_out3 example_triple PREDEFINED_VARS is Ok a
     then if gb_energy example_out3 example_triple PREDEFINED_VARS is Ok vals
          then true else false else false) = true) as X.
  destruct (gb_energy_inputs _ _ _) as [a|] eqn:Ea; [|discriminate X].
  destruct (gb_energy _ _ _) as [vals|] eqn:Ev; [|discriminate X].
  assert (Ha : Ok a = gb_energy_inputs example_out3 example_triple PREDEFINED_VARS)
    by (by rewrite Ea).
  vm_compute in Ha. injection Ha as Ha.
  destruct (list_item example_triple (-1)) as [last|] eqn:El; [|discriminate El].
  assert (Hl : Ok last = list_item example_triple (-1)) by (by rewrite El).
  vm_compute in Hl. injection Hl as Hl.
  destruct (gb_energy_no_series example_out3 example_triple PREDEFINED_VARS a vals last 2 1
              Ea Ev El) as (E & E' & H1 & H2 & H3).
  - by rewrite Hl.
  - by rewrite Ha.
  - by rewrite Ha.
  - by rewrite Ha.
  - intros [|[|[|j]]] Hj; try lia; by rewrite Ha.
  - exists a, vals, last, E, E'. repeat split; first [reflexivity | assumption].
Defined.
